(** * The graph-to-bytecode emitter of the TorchScript interpreter

    A shallow embedding of [torch/csrc/jit/runtime/interpreter/code_impl.h]:
    the [CodeImpl] emitter (register allocation, control-flow lowering with
    backpatched jumps, deferred bailout blocks), [request_bailout], and the
    [MobileCodeImpl] pre-pass.

    Pointers ([Node*], [Value*], [Block*]) are modelled by the unique id of
    the object they point to.  A [Value] carries the node that defines it
    ([Value::node()]), so the graph is represented by its unfolding and the
    emitter is structurally recursive.  Every exception, failed assertion and
    out-of-range access of the C++ code is the result [None]. *)

From stdpp Require Import base gmap strings list fin_maps.
From Stdlib Require Import ZArith Lia.

Local Open Scope Z_scope.

(** ** Fixed-width integers *)

Module Int.

(** Conversion to an unsigned integer of [w] bits. *)
Definition to_unsigned (w : Z) (z : Z) : Z := z mod 2 ^ w.

(** Conversion to a signed (two's complement) integer of [w] bits. *)
Definition to_signed (w : Z) (z : Z) : Z :=
  (z + 2 ^ (w - 1)) mod 2 ^ w - 2 ^ (w - 1).

Definition to_size_t : Z → Z := to_unsigned 64.
Definition to_uint64 : Z → Z := to_unsigned 64.
Definition to_uint16 : Z → Z := to_unsigned 16.
Definition to_int64 : Z → Z := to_signed 64.
Definition to_int32 : Z → Z := to_signed 32.

Definition INT_MAX : Z := 2 ^ 31 - 1.

(** [safe_narrow_cast<Ttarget, Tsource>]: the cast, with a warning when it
    overflows; in both cases the result is the source value converted to
    the target type. *)
Definition safe_narrow_cast_int32 (v : Z) : Z := to_int32 v.
Definition safe_narrow_cast_uint16 (v : Z) : Z := to_uint16 v.

(** [a - b] on [size_t]. *)
Definition size_sub (a b : nat) : Z := to_size_t (Z.of_nat a - Z.of_nat b).

End Int.

(** ** Instructions *)

(** Modelled from the spec: the opcodes the emitter writes
    ([instruction.h] is absent). *)
Inductive OpCode : Type :=
| OP | OPN | LOAD | MOVE | STOREN | STORE | DROP | DROPR | LOADC
| JF | JMP | LOOP | RET | WAIT | CALL | GUARD | TYPECHECK | FAIL_GUARD
| PROFILE_OP | TAIL_CALL | INTERFACE_CALL | GET_ATTR | SET_ATTR
| LIST_UNPACK | TUPLE_CONSTRUCT | NAMED_TUPLE_CONSTRUCT | LIST_CONSTRUCT
| DICT_CONSTRUCT | CREATE_OBJECT | ISINSTANCE | TUPLE_SLICE | FORK | WARN
| ENTER | EXIT.

Global Instance OpCode_eq_dec : EqDecision OpCode.
Proof. solve_decision. Defined.

(** [struct Instruction { OpCode op; int32_t X; uint16_t N; }] *)
Record Instruction : Type := mkInstruction {
  op : OpCode;
  X : Z;
  N : Z
}.

Global Instance Instruction_eq_dec : EqDecision Instruction.
Proof. solve_decision. Defined.

Definition set_op (o : OpCode) (i : Instruction) : Instruction :=
  {| op := o; X := X i; N := N i |}.

Definition set_X (x : Z) (i : Instruction) : Instruction :=
  {| op := op i; X := x; N := N i |}.

(** ** The graph IR *)

(** Modelled from the spec: nodes, values and blocks ([ir.h] is absent), as
    far as the emitter reads them; a pointer is the identity of its
    target. *)

Definition NodeId := nat.
Definition ValueId := nat.
Definition BlockId := nat.
Definition GraphId := nat.
Definition FunctionId := nat.

(** The types the emitter inspects. *)
Inductive TypeT : Type :=
| FunctionType (function : FunctionId)
| ClassType (class_name : string) (attributes : list string)
            (methods : list (string * FunctionId))
| TupleType (name : option string) (tid : nat)
| OtherType (tid : nat).

Inductive IValue : Type :=
| IV_Int (z : Z)
| IV_String (s : string)
| IV_Other (n : nat).

(** The node kinds [emitNode] and [emitNodeAtBlockLevel] switch on; every
    other kind is [other_kind]. *)
Inductive NodeKind : Type :=
| prim_Drop | prim_Constant | prim_If | prim_Loop | aten_wait | prim_Param
| prim_Return | prim_CallFunction | prim_CallMethod | prim_TypeCheck
| prim_BailOut | prim_profile_ivalue | prim_profile | prim_GetAttr
| prim_SetAttr | prim_ListUnpack | prim_TupleConstruct | prim_ListConstruct
| prim_DictConstruct | prim_CreateObject | prim_isinstance | prim_TupleSlice
| prim_fork | aten_warn | prim_Enter | prim_Exit
| other_kind (symbol : string).

Global Instance NodeKind_eq_dec : EqDecision NodeKind.
Proof. solve_decision. Defined.

(** [FunctionSchema] of an operator; [arguments] is kept abstract (one id per
    declared argument). *)
Record FunctionSchema : Type := mkSchema {
  name : string;
  overload_name : string;
  arguments : list nat;
  is_vararg : bool
}.

Record Operator : Type := mkOperator {
  schema : FunctionSchema;
  hasOperation : bool
}.

(** Attributes of a node; an accessor ([i], [s], [g], [tys]) throws when the
    attribute is absent. *)
Record Attrs : Type := mkAttrs {
  attr_Subgraph : option GraphId;
  attr_name : option string;
  attr_types : option (list TypeT);
  attr_index : option Z;
  attr_beg : option Z;
  attr_end : option Z;
  attr_warn_id : option Z;
  (** [toIValue(node->output())] of a constant node *)
  attr_value : option IValue
}.

Definition no_attrs : Attrs :=
  mkAttrs None None None None None None None None.

(** An output of a node: its identity and its type. *)
Record Output : Type := mkOutput {
  out_unique : ValueId;
  out_type : TypeT
}.

(** What the emitter reads of a node apart from its inputs and blocks. *)
Record NodeInfo : Type := mkNodeInfo {
  node_id : NodeId;
  kind : NodeKind;
  outputs : list Output;
  attrs : Attrs;
  maybeOperator : option Operator;
  owningBlock : BlockId;
  topo_position : Z
}.

Inductive Node : Type :=
| mkNode (info : NodeInfo) (inputs : Values) (blocks : Blocks)
with Value : Type :=
| mkValue (unique : ValueId) (uses_size : nat) (type : TypeT) (node : Node)
with Values : Type :=
| vnil
| vcons (v : Value) (vs : Values)
with Block : Type :=
| mkBlock (param_node : Node) (nodes : Nodes) (return_node : Node)
with Blocks : Type :=
| bnil
| bcons (b : Block) (bs : Blocks)
with Nodes : Type :=
| nnil
| ncons (n : Node) (ns : Nodes).

Scheme Node_mut := Induction for Node Sort Prop
  with Value_mut := Induction for Value Sort Prop
  with Values_mut := Induction for Values Sort Prop
  with Block_mut := Induction for Block Sort Prop
  with Blocks_mut := Induction for Blocks Sort Prop
  with Nodes_mut := Induction for Nodes Sort Prop.

Combined Scheme ir_mutind from
  Node_mut, Value_mut, Values_mut, Block_mut, Blocks_mut, Nodes_mut.

Definition info_of (n : Node) : NodeInfo :=
  match n with mkNode i _ _ => i end.
Definition inputs_of (n : Node) : Values :=
  match n with mkNode _ vs _ => vs end.
Definition blocks_of (n : Node) : Blocks :=
  match n with mkNode _ _ bs => bs end.

Definition value_unique (v : Value) : ValueId :=
  match v with mkValue u _ _ _ => u end.
Definition value_uses_size (v : Value) : nat :=
  match v with mkValue _ u _ _ => u end.
Definition value_type (v : Value) : TypeT :=
  match v with mkValue _ _ t _ => t end.
Definition value_node (v : Value) : Node :=
  match v with mkValue _ _ _ n => n end.

Fixpoint values_to_list (vs : Values) : list Value :=
  match vs with
  | vnil => []
  | vcons v vs' => v :: values_to_list vs'
  end.

Fixpoint nodes_to_list (ns : Nodes) : list Node :=
  match ns with
  | nnil => []
  | ncons n ns' => n :: nodes_to_list ns'
  end.

Fixpoint blocks_to_list (bs : Blocks) : list Block :=
  match bs with
  | bnil => []
  | bcons b bs' => b :: blocks_to_list bs'
  end.

(** [inputs().size()] *)
Fixpoint values_size (vs : Values) : nat :=
  match vs with
  | vnil => 0%nat
  | vcons _ vs' => S (values_size vs')
  end.

(** ** The compiler state ([struct CodeImpl]) *)

(** [op.getOperation(node)]: the callable bound for a node. *)
Record Operation : Type := mkOperation {
  operation_of : Operator;
  operation_node : NodeId
}.

(** [GraphFunction(name, graph, function_creator)]; the creator of a bailout
    function is [BuildBailOutGraphFrom(bailout_index, unoptimized_graph, _)]. *)
Record GraphFunction : Type := mkGraphFunction {
  gf_name : string;
  gf_graph : option GraphId;
  gf_creator : option (Z * GraphId)
}.

(** An entry of [function_table_] ([Function*]). *)
Inductive FunctionPtr : Type :=
| fn_external (f : FunctionId)
| fn_owned (f : GraphFunction).

(** [struct BailoutBlock] *)
Record BailoutBlock : Type := mkBailoutBlock {
  jf_instruction_index : nat;
  instructions : list Instruction
}.

Record CodeImpl : Type := mkCodeImpl {
  instructions_ : list Instruction;
  instructions_source_ : list NodeId;
  constant_table_ : list IValue;
  operator_table_ : list Operation;
  function_table_ : list FunctionPtr;
  forked_functions_ : list GraphFunction;
  type_table_ : list TypeT;
  profile_function_table_ : list NodeId;
  register_size_ : Z;
  value_to_reg_ : gmap ValueId Z;
  op_to_num_specified_args_ : gmap string nat;
  use_count_ : gmap ValueId nat;
  current_node_ : NodeInfo;
  last_inserted_op_ : option NodeInfo;
  bailout_blocks_ : list BailoutBlock;
  bailout_functions_ : list GraphFunction
}.

(** Field updates. *)
Definition set_instructions_ (x : list Instruction) (c : CodeImpl) : CodeImpl :=
  {| instructions_ := x; instructions_source_ := instructions_source_ c;
  constant_table_ := constant_table_ c; operator_table_ := operator_table_ c;
  function_table_ := function_table_ c; forked_functions_ := forked_functions_
  c; type_table_ := type_table_ c; profile_function_table_ :=
  profile_function_table_ c; register_size_ := register_size_ c; value_to_reg_
  := value_to_reg_ c; op_to_num_specified_args_ := op_to_num_specified_args_
  c; use_count_ := use_count_ c; current_node_ := current_node_ c;
  last_inserted_op_ := last_inserted_op_ c; bailout_blocks_ := bailout_blocks_
  c; bailout_functions_ := bailout_functions_ c |}.

Definition set_instructions_source_ (x : list NodeId) (c : CodeImpl) : CodeImpl :=
  {| instructions_ := instructions_ c; instructions_source_ := x;
  constant_table_ := constant_table_ c; operator_table_ := operator_table_ c;
  function_table_ := function_table_ c; forked_functions_ := forked_functions_
  c; type_table_ := type_table_ c; profile_function_table_ :=
  profile_function_table_ c; register_size_ := register_size_ c; value_to_reg_
  := value_to_reg_ c; op_to_num_specified_args_ := op_to_num_specified_args_
  c; use_count_ := use_count_ c; current_node_ := current_node_ c;
  last_inserted_op_ := last_inserted_op_ c; bailout_blocks_ := bailout_blocks_
  c; bailout_functions_ := bailout_functions_ c |}.

Definition set_constant_table_ (x : list IValue) (c : CodeImpl) : CodeImpl :=
  {| instructions_ := instructions_ c; instructions_source_ :=
  instructions_source_ c; constant_table_ := x; operator_table_ :=
  operator_table_ c; function_table_ := function_table_ c; forked_functions_
  := forked_functions_ c; type_table_ := type_table_ c;
  profile_function_table_ := profile_function_table_ c; register_size_ :=
  register_size_ c; value_to_reg_ := value_to_reg_ c;
  op_to_num_specified_args_ := op_to_num_specified_args_ c; use_count_ :=
  use_count_ c; current_node_ := current_node_ c; last_inserted_op_ :=
  last_inserted_op_ c; bailout_blocks_ := bailout_blocks_ c;
  bailout_functions_ := bailout_functions_ c |}.

Definition set_operator_table_ (x : list Operation) (c : CodeImpl) : CodeImpl :=
  {| instructions_ := instructions_ c; instructions_source_ :=
  instructions_source_ c; constant_table_ := constant_table_ c;
  operator_table_ := x; function_table_ := function_table_ c;
  forked_functions_ := forked_functions_ c; type_table_ := type_table_ c;
  profile_function_table_ := profile_function_table_ c; register_size_ :=
  register_size_ c; value_to_reg_ := value_to_reg_ c;
  op_to_num_specified_args_ := op_to_num_specified_args_ c; use_count_ :=
  use_count_ c; current_node_ := current_node_ c; last_inserted_op_ :=
  last_inserted_op_ c; bailout_blocks_ := bailout_blocks_ c;
  bailout_functions_ := bailout_functions_ c |}.

Definition set_function_table_ (x : list FunctionPtr) (c : CodeImpl) : CodeImpl :=
  {| instructions_ := instructions_ c; instructions_source_ :=
  instructions_source_ c; constant_table_ := constant_table_ c;
  operator_table_ := operator_table_ c; function_table_ := x;
  forked_functions_ := forked_functions_ c; type_table_ := type_table_ c;
  profile_function_table_ := profile_function_table_ c; register_size_ :=
  register_size_ c; value_to_reg_ := value_to_reg_ c;
  op_to_num_specified_args_ := op_to_num_specified_args_ c; use_count_ :=
  use_count_ c; current_node_ := current_node_ c; last_inserted_op_ :=
  last_inserted_op_ c; bailout_blocks_ := bailout_blocks_ c;
  bailout_functions_ := bailout_functions_ c |}.

Definition set_forked_functions_ (x : list GraphFunction) (c : CodeImpl) : CodeImpl :=
  {| instructions_ := instructions_ c; instructions_source_ :=
  instructions_source_ c; constant_table_ := constant_table_ c;
  operator_table_ := operator_table_ c; function_table_ := function_table_ c;
  forked_functions_ := x; type_table_ := type_table_ c;
  profile_function_table_ := profile_function_table_ c; register_size_ :=
  register_size_ c; value_to_reg_ := value_to_reg_ c;
  op_to_num_specified_args_ := op_to_num_specified_args_ c; use_count_ :=
  use_count_ c; current_node_ := current_node_ c; last_inserted_op_ :=
  last_inserted_op_ c; bailout_blocks_ := bailout_blocks_ c;
  bailout_functions_ := bailout_functions_ c |}.

Definition set_type_table_ (x : list TypeT) (c : CodeImpl) : CodeImpl :=
  {| instructions_ := instructions_ c; instructions_source_ :=
  instructions_source_ c; constant_table_ := constant_table_ c;
  operator_table_ := operator_table_ c; function_table_ := function_table_ c;
  forked_functions_ := forked_functions_ c; type_table_ := x;
  profile_function_table_ := profile_function_table_ c; register_size_ :=
  register_size_ c; value_to_reg_ := value_to_reg_ c;
  op_to_num_specified_args_ := op_to_num_specified_args_ c; use_count_ :=
  use_count_ c; current_node_ := current_node_ c; last_inserted_op_ :=
  last_inserted_op_ c; bailout_blocks_ := bailout_blocks_ c;
  bailout_functions_ := bailout_functions_ c |}.

Definition set_profile_function_table_ (x : list NodeId) (c : CodeImpl) : CodeImpl :=
  {| instructions_ := instructions_ c; instructions_source_ :=
  instructions_source_ c; constant_table_ := constant_table_ c;
  operator_table_ := operator_table_ c; function_table_ := function_table_ c;
  forked_functions_ := forked_functions_ c; type_table_ := type_table_ c;
  profile_function_table_ := x; register_size_ := register_size_ c;
  value_to_reg_ := value_to_reg_ c; op_to_num_specified_args_ :=
  op_to_num_specified_args_ c; use_count_ := use_count_ c; current_node_ :=
  current_node_ c; last_inserted_op_ := last_inserted_op_ c; bailout_blocks_
  := bailout_blocks_ c; bailout_functions_ := bailout_functions_ c |}.

Definition set_register_size_ (x : Z) (c : CodeImpl) : CodeImpl :=
  {| instructions_ := instructions_ c; instructions_source_ :=
  instructions_source_ c; constant_table_ := constant_table_ c;
  operator_table_ := operator_table_ c; function_table_ := function_table_ c;
  forked_functions_ := forked_functions_ c; type_table_ := type_table_ c;
  profile_function_table_ := profile_function_table_ c; register_size_ := x;
  value_to_reg_ := value_to_reg_ c; op_to_num_specified_args_ :=
  op_to_num_specified_args_ c; use_count_ := use_count_ c; current_node_ :=
  current_node_ c; last_inserted_op_ := last_inserted_op_ c; bailout_blocks_
  := bailout_blocks_ c; bailout_functions_ := bailout_functions_ c |}.

Definition set_value_to_reg_ (x : gmap ValueId Z) (c : CodeImpl) : CodeImpl :=
  {| instructions_ := instructions_ c; instructions_source_ :=
  instructions_source_ c; constant_table_ := constant_table_ c;
  operator_table_ := operator_table_ c; function_table_ := function_table_ c;
  forked_functions_ := forked_functions_ c; type_table_ := type_table_ c;
  profile_function_table_ := profile_function_table_ c; register_size_ :=
  register_size_ c; value_to_reg_ := x; op_to_num_specified_args_ :=
  op_to_num_specified_args_ c; use_count_ := use_count_ c; current_node_ :=
  current_node_ c; last_inserted_op_ := last_inserted_op_ c; bailout_blocks_
  := bailout_blocks_ c; bailout_functions_ := bailout_functions_ c |}.

Definition set_op_to_num_specified_args_ (x : gmap string nat) (c : CodeImpl) : CodeImpl :=
  {| instructions_ := instructions_ c; instructions_source_ :=
  instructions_source_ c; constant_table_ := constant_table_ c;
  operator_table_ := operator_table_ c; function_table_ := function_table_ c;
  forked_functions_ := forked_functions_ c; type_table_ := type_table_ c;
  profile_function_table_ := profile_function_table_ c; register_size_ :=
  register_size_ c; value_to_reg_ := value_to_reg_ c;
  op_to_num_specified_args_ := x; use_count_ := use_count_ c; current_node_ :=
  current_node_ c; last_inserted_op_ := last_inserted_op_ c; bailout_blocks_
  := bailout_blocks_ c; bailout_functions_ := bailout_functions_ c |}.

Definition set_use_count_ (x : gmap ValueId nat) (c : CodeImpl) : CodeImpl :=
  {| instructions_ := instructions_ c; instructions_source_ :=
  instructions_source_ c; constant_table_ := constant_table_ c;
  operator_table_ := operator_table_ c; function_table_ := function_table_ c;
  forked_functions_ := forked_functions_ c; type_table_ := type_table_ c;
  profile_function_table_ := profile_function_table_ c; register_size_ :=
  register_size_ c; value_to_reg_ := value_to_reg_ c;
  op_to_num_specified_args_ := op_to_num_specified_args_ c; use_count_ := x;
  current_node_ := current_node_ c; last_inserted_op_ := last_inserted_op_ c;
  bailout_blocks_ := bailout_blocks_ c; bailout_functions_ :=
  bailout_functions_ c |}.

Definition set_current_node_ (x : NodeInfo) (c : CodeImpl) : CodeImpl :=
  {| instructions_ := instructions_ c; instructions_source_ :=
  instructions_source_ c; constant_table_ := constant_table_ c;
  operator_table_ := operator_table_ c; function_table_ := function_table_ c;
  forked_functions_ := forked_functions_ c; type_table_ := type_table_ c;
  profile_function_table_ := profile_function_table_ c; register_size_ :=
  register_size_ c; value_to_reg_ := value_to_reg_ c;
  op_to_num_specified_args_ := op_to_num_specified_args_ c; use_count_ :=
  use_count_ c; current_node_ := x; last_inserted_op_ := last_inserted_op_ c;
  bailout_blocks_ := bailout_blocks_ c; bailout_functions_ :=
  bailout_functions_ c |}.

Definition set_last_inserted_op_ (x : option NodeInfo) (c : CodeImpl) : CodeImpl :=
  {| instructions_ := instructions_ c; instructions_source_ :=
  instructions_source_ c; constant_table_ := constant_table_ c;
  operator_table_ := operator_table_ c; function_table_ := function_table_ c;
  forked_functions_ := forked_functions_ c; type_table_ := type_table_ c;
  profile_function_table_ := profile_function_table_ c; register_size_ :=
  register_size_ c; value_to_reg_ := value_to_reg_ c;
  op_to_num_specified_args_ := op_to_num_specified_args_ c; use_count_ :=
  use_count_ c; current_node_ := current_node_ c; last_inserted_op_ := x;
  bailout_blocks_ := bailout_blocks_ c; bailout_functions_ :=
  bailout_functions_ c |}.

Definition set_bailout_blocks_ (x : list BailoutBlock) (c : CodeImpl) : CodeImpl :=
  {| instructions_ := instructions_ c; instructions_source_ :=
  instructions_source_ c; constant_table_ := constant_table_ c;
  operator_table_ := operator_table_ c; function_table_ := function_table_ c;
  forked_functions_ := forked_functions_ c; type_table_ := type_table_ c;
  profile_function_table_ := profile_function_table_ c; register_size_ :=
  register_size_ c; value_to_reg_ := value_to_reg_ c;
  op_to_num_specified_args_ := op_to_num_specified_args_ c; use_count_ :=
  use_count_ c; current_node_ := current_node_ c; last_inserted_op_ :=
  last_inserted_op_ c; bailout_blocks_ := x; bailout_functions_ :=
  bailout_functions_ c |}.

Definition set_bailout_functions_ (x : list GraphFunction) (c : CodeImpl) : CodeImpl :=
  {| instructions_ := instructions_ c; instructions_source_ :=
  instructions_source_ c; constant_table_ := constant_table_ c;
  operator_table_ := operator_table_ c; function_table_ := function_table_ c;
  forked_functions_ := forked_functions_ c; type_table_ := type_table_ c;
  profile_function_table_ := profile_function_table_ c; register_size_ :=
  register_size_ c; value_to_reg_ := value_to_reg_ c;
  op_to_num_specified_args_ := op_to_num_specified_args_ c; use_count_ :=
  use_count_ c; current_node_ := current_node_ c; last_inserted_op_ :=
  last_inserted_op_ c; bailout_blocks_ := bailout_blocks_ c;
  bailout_functions_ := x |}.

(** ** Stateful, fallible computations *)

Definition M (A : Type) : Type := CodeImpl → option (A * CodeImpl).

Definition ret {A} (a : A) : M A := λ st, Some (a, st).

Definition bind {A B} (m : M A) (f : A → M B) : M B :=
  λ st, match m st with
        | Some (a, st') => f a st'
        | None => None
        end.

(** A thrown exception, a failed assertion, or undefined behaviour. *)
Definition throw {A} : M A := λ _, None.

Definition gets {A} (f : CodeImpl → A) : M A := λ st, Some (f st, st).

Definition modify (f : CodeImpl → CodeImpl) : M unit := λ st, Some (tt, f st).

(** [v.size()] of a vector member. *)
Definition size_of {A} (member : CodeImpl → list A) : M nat :=
  gets (λ st, length (member st)).

(** [.value()], [.at(i)] and attribute accessors. *)
Definition expect {A} (o : option A) : M A :=
  match o with
  | Some a => ret a
  | None => throw
  end.

Definition assert (b : bool) : M unit := if b then ret tt else throw.

Declare Scope emit_scope.
Delimit Scope emit_scope with emit.
Notation "'let*' x ':=' m 'in' k" := (bind m (λ x, k))
  (at level 10, x name, m at level 100, k at level 200) : emit_scope.
Notation "m >> k" := (bind m (λ _, k))
  (at level 90, right associativity) : emit_scope.
Open Scope emit_scope.

(** State after running [m], when it returns. *)
Definition exec {A} (m : M A) (st : CodeImpl) : option CodeImpl :=
  snd <$> m st.

(** ** The emitter's primitives *)

Section Emitter.

(** [preprocess_.can_emit_inline] ([preprocess_graph.h]), keyed by [Node*]. *)
Variable can_emit_inline : NodeId → bool.

(** [FLAGS_torch_jit_disable_warning_prints] *)
Variable FLAGS_torch_jit_disable_warning_prints : bool.

(** Modelled from the spec: [current_node_->isAfter(last_inserted_op_)]
    ([ir.h] is absent) compares the positions of two nodes in the
    topological order of their block. *)
Definition isAfter (n m : NodeInfo) : bool :=
  bool_decide (topo_position m < topo_position n).

Definition insertInstruction (o : OpCode) (x : Z) (n : Z) : M unit :=
  λ st,
    let cur := current_node_ st in
    let st1 :=
      set_instructions_source_ (instructions_source_ st ++ [node_id cur])
        (set_instructions_
           (instructions_ st ++
              [mkInstruction o (Int.safe_narrow_cast_int32 x)
                 (Int.safe_narrow_cast_uint16 n)]) st) in
    (* check that we didn't accidentally emit nodes out of topological
       order *)
    if decide (o = OP) then
      let ordered :=
        match last_inserted_op_ st1 with
        | Some last =>
            if bool_decide (node_id cur ≠ node_id last)
               && bool_decide (owningBlock cur = owningBlock last)
            then isAfter cur last
            else true
        | None => true
        end in
      if ordered then Some (tt, set_last_inserted_op_ (Some cur) st1)
      else None
    else Some (tt, st1).

(** [size_t] and [int] arguments passed for the [int64_t X] and
    [uint64_t N] parameters of [insertInstruction]. *)
Definition X_of_size (n : nat) : Z := Int.to_int64 (Z.of_nat n).
Definition N_of_size (n : nat) : Z := Int.to_uint64 (Z.of_nat n).

Definition truncateInstructions (size : nat) : M unit :=
  modify (λ st,
    let k := (length (instructions_ st) - size)%nat in
    set_instructions_source_
      (take (length (instructions_source_ st) - k)%nat
         (instructions_source_ st))
      (set_instructions_
         (take (length (instructions_ st) - k)%nat (instructions_ st)) st)).

Definition createBailoutBlock (jf_index : nat) : M unit :=
  let* size := size_of instructions_ in
  assert (bool_decide (jf_index + 1 ≤ size)%nat) >>
  modify (λ st,
    set_bailout_blocks_
      (bailout_blocks_ st ++
         [mkBailoutBlock jf_index
            (drop (jf_index + 1) (instructions_ st))]) st) >>
  truncateInstructions (jf_index + 1).

Fixpoint allocRegs_loop (vs : list ValueId) : M unit :=
  match vs with
  | [] => ret tt
  | v :: vs' =>
      let* count := gets (λ st, value_to_reg_ st !! v) in
      assert (bool_decide (count = None)) >>
      (* [++register_size_] on [int]; overflow is undefined *)
      let* register_size := gets register_size_ in
      assert (bool_decide (register_size + 1 ≤ Int.INT_MAX)) >>
      modify (λ st,
        set_value_to_reg_
          (<[v := register_size_ st + 1]> (value_to_reg_ st))
          (set_register_size_ (register_size_ st + 1) st)) >>
      allocRegs_loop vs'
  end.

Definition allocRegs (vs : list ValueId) : M Z :=
  let* register_size := gets register_size_ in
  (* [int result = register_size_ + 1]; overflow is undefined *)
  assert (bool_decide (register_size + 1 ≤ Int.INT_MAX)) >>
  let result := register_size + 1 in
  allocRegs_loop vs >>
  ret result.

Definition registerFor (v : ValueId) : M Z :=
  let* reg := gets (λ st, value_to_reg_ st !! v) in
  expect reg.

Definition emitStoreOutputs (node : NodeInfo) : M unit :=
  let N := length (outputs node) in
  if bool_decide (N = 0%nat) then ret tt
  else
    let* regs := allocRegs (out_unique <$> outputs node) in
    if bool_decide (N = 1%nat) then insertInstruction STORE regs 0
    else insertInstruction STOREN regs (N_of_size (length (outputs node))).

Definition insertConstant (value : IValue) : M Z :=
  let* size := size_of constant_table_ in
  let result := Int.to_int32 (Z.of_nat size) in
  modify (λ st, set_constant_table_ (constant_table_ st ++ [value]) st) >>
  ret result.

(** [node->output()]: asserts that the node has exactly one output. *)
Definition output (node : NodeInfo) : M Output :=
  match outputs node with
  | [o] => ret o
  | _ => throw
  end.

Definition is_FunctionType (t : TypeT) : bool :=
  match t with FunctionType _ => true | _ => false end.

Definition emitConstant (node : NodeInfo) : M unit :=
  let* o := output node in
  if is_FunctionType (out_type o) then ret tt
  else
    (* constants are just put in the constant table *)
    let* v := expect (attr_value (attrs node)) in
    let* idx := insertConstant v in
    modify (λ st,
      set_value_to_reg_ (<[out_unique o := idx]> (value_to_reg_ st)) st).

Definition emitType (t : TypeT) : M nat :=
  let* r := size_of type_table_ in
  modify (λ st, set_type_table_ (type_table_ st ++ [t]) st) >>
  ret r.


(** *** Lowering rules

    A rule that lowers the inputs or the blocks of its node takes the
    emitters of those parts as arguments ([loads] is
    [emitLoadInputs(node->inputs())], [num_inputs] is
    [node->inputs().size()]); [emitNode] below passes them. *)

(** [struct WithCurrentNode]: sets [current_node_] for the extent of a
    scope and restores it at its end. *)
Definition WithCurrentNode {A} (new_value : NodeInfo) (body : M A) : M A :=
  λ st,
    let old_value := current_node_ st in
    match body (set_current_node_ new_value st) with
    | Some (a, st') => Some (a, set_current_node_ old_value st')
    | None => None
    end.

(** [emitUse(input, drop)]; [emitNode_input] is [emitNode(input->node())]. *)
Definition emitUse_body (emitNode_input : M unit) (input : Value)
    (drop : bool) : M unit :=
  if can_emit_inline (node_id (info_of (value_node input))) then
    emitNode_input >>
    if drop then insertInstruction DROP 0 0 else ret tt
  else
    let* reg := registerFor (value_unique input) in
    (* [++use_count_[input]] *)
    let* uses := gets (λ st, use_count_ st !! value_unique input) in
    let count := S (default 0%nat uses) in
    modify (λ st,
      set_use_count_ (<[value_unique input := count]> (use_count_ st)) st) >>
    let moved := bool_decide (value_uses_size input = count) in
    let op :=
      if bool_decide (kind (info_of (value_node input)) = prim_Constant)
      then LOADC
      else if moved then MOVE else LOAD in
    let op := if drop then DROPR else op in
    insertInstruction op reg 0.

Definition CodeImpl_emitOperator (loads : M unit) (num_inputs : nat)
    (node : NodeInfo) : M unit :=
  loads >>
  let* op := expect (maybeOperator node) in
  let* size := size_of operator_table_ in
  (if hasOperation op && is_vararg (schema op) then
     insertInstruction OPN (X_of_size size) (N_of_size num_inputs)
   else
     insertInstruction OP (X_of_size size) 0) >>
  modify (λ st,
    set_operator_table_
      (operator_table_ st ++ [mkOperation op (node_id node)]) st).

Definition emitWait (loads : M unit) : M unit :=
  loads >> insertInstruction WAIT 0 0.

(** [blocks().at(i)], [inputs().slice(..)]: absent parts throw. *)
Definition at_ (part : option (M unit)) : M unit :=
  match part with
  | Some m => m
  | None => throw
  end.

(** [instructions_[i].X = x], for [x] of type [size_t]. *)
Definition patch_X (i : nat) (x : Z) : M unit :=
  let* ins := gets (λ st, instructions_ st !! i) in
  let* ins := expect ins in
  modify (λ st,
    set_instructions_
      (<[i := set_X (Int.to_int32 x) ins]> (instructions_ st)) st).

Definition emitIf (loads : M unit) (block0 block1 : option (M unit))
    : M unit :=
  loads >>
  let* start_if := size_of instructions_ in
  insertInstruction JF 0 0 >> (* dummy offset to be filled in *)
  at_ block0 >>
  insertInstruction JMP 0 0 >> (* dummy offset *)
  let* start_else := size_of instructions_ in
  patch_X start_if (Int.size_sub start_else start_if) >>
  at_ block1 >>
  let* size := size_of instructions_ in
  patch_X (start_else - 1) (Int.size_sub size (start_else - 1)).

Definition emitLoop (loads : M unit) (num_inputs : nat)
    (block0 : option (M unit)) : M unit :=
  let* c := insertConstant (IV_Int 0) in
  insertInstruction LOADC c 0 >>
  loads >>
  let* start := size_of instructions_ in
  insertInstruction LOOP 0 (N_of_size num_inputs) >> (* dummy offset *)
  at_ block0 >>
  let* size := size_of instructions_ in
  insertInstruction JMP (Int.to_int64 (Int.size_sub start size)) 0 >>
  let* size := size_of instructions_ in
  patch_X start (Int.size_sub size start).

Definition emitCall (func : FunctionId) (loads : M unit) : M unit :=
  loads >>
  let* size := size_of function_table_ in
  insertInstruction CALL (X_of_size size) 0 >>
  modify (λ st,
    set_function_table_ (function_table_ st ++ [fn_external func]) st).

Definition emitNodeAtBlockLevel (node : NodeInfo) (loads : M unit)
    (emitNode_node : M unit) : M unit :=
  WithCurrentNode node
    (match kind node with
     | prim_Constant => emitConstant node
     | prim_Return => loads
     | _ =>
         if negb (can_emit_inline (node_id node)) then
           emitNode_node >> emitStoreOutputs node
         else ret tt
     end).

(** The loop [for (i = 0; i < num_inputs; i++) emitType(types[i])]. *)
Fixpoint emitTypes_upto (types : list TypeT) (i : nat) (num : nat)
    : M unit :=
  match num with
  | O => ret tt
  | S num' =>
      let* t := expect (types !! i) in
      let* _ := emitType t in
      emitTypes_upto types (S i) num'
  end.

Definition emitTypeCheck (loads : M unit) (num_inputs : nat)
    (node : NodeInfo) : M unit :=
  (* Check that TypeCheck has at least one input. *)
  assert (negb (bool_decide (num_inputs = 0%nat))
          && bool_decide ((num_inputs + 1)%nat = length (outputs node))) >>
  loads >>
  (* Emit the expected type. *)
  let* types_start := size_of type_table_ in
  let* types := expect (attr_types (attrs node)) in
  emitTypes_upto types 0 num_inputs >>
  insertInstruction TYPECHECK (X_of_size types_start)
    (N_of_size num_inputs).

(** [load_guarded] is [emitLoadInputs(node->inputs().slice(1, 1))]. *)
Definition emitGuard (load_guarded : option (M unit)) (node : NodeInfo)
    : M nat :=
  at_ load_guarded >>
  let* o := expect (outputs node !! 0%nat) in
  let* t := emitType (out_type o) in
  insertInstruction GUARD (X_of_size t) 0 >>
  insertInstruction JF 0 0 >> (* to be patched *)
  let* size := size_of instructions_ in
  ret (size - 1)%nat.

(** [subgraph] is [node->inputs().at(0)->node()->g(attr::Subgraph)] and
    [load_rest] is [emitLoadInputs(node->inputs().slice(2))]. *)
Definition emitBailOut (load_guarded : option (M unit))
    (subgraph : option GraphId) (load_rest : option (M unit))
    (node : NodeInfo) : M unit :=
  let* jf_index := emitGuard load_guarded node in
  let* unoptimized_graph := expect subgraph in
  (* note, guaded input is already loaded onto the stack for GUARD
     instruction *)
  at_ load_rest >>
  let* size := size_of function_table_ in
  insertInstruction TAIL_CALL (X_of_size size) 0 >>
  assert (bool_decide (kind node = prim_BailOut)) >>
  let* bailout_index := expect (attr_index (attrs node)) in
  assert (bool_decide (0 ≤ bailout_index)) >>
  let func :=
    mkGraphFunction "bailout" None
      (Some (bailout_index, unoptimized_graph)) in
  modify (λ st,
    set_function_table_ (function_table_ st ++ [fn_owned func]) st) >>
  modify (λ st,
    set_bailout_functions_ (bailout_functions_ st ++ [func]) st) >>
  createBailoutBlock jf_index.

(** The callback of a [ProfileOp] or [ProfileIValueOp] is identified by
    its node. *)
Definition emitProfile (loads : M unit) (node : NodeInfo) : M unit :=
  loads >>
  let* size := size_of profile_function_table_ in
  insertInstruction PROFILE_OP (X_of_size size) 0 >>
  if bool_decide (kind node = prim_profile)
     || bool_decide (kind node = prim_profile_ivalue)
  then
    modify (λ st,
      set_profile_function_table_
        (profile_function_table_ st ++ [node_id node]) st)
  else throw.

(** Modelled from the spec: [ClassType::getAttributeSlot(name)]
    ([jit_type.h] is absent) is the position of the attribute, and throws
    when there is no such attribute. *)
Definition getAttributeSlot (t : TypeT) (field : string) : M nat :=
  match t with
  | ClassType _ attributes _ =>
      expect ((λ r : nat * string, r.1) <$>
                list_find (λ a, a = field) attributes)
  | _ => throw
  end.

(** Modelled from the spec: [ClassType::getMethod(name)] ([jit_type.h] is
    absent) is the method of that name, and throws when there is none. *)
Definition getMethod (methods : list (string * FunctionId))
    (method : string) : M FunctionId :=
  expect ((λ r : nat * (string * FunctionId), r.2.2) <$>
          list_find (λ m, m.1 = method) methods).

(** [input_type] is [node->input()->type()], absent unless the node has
    exactly one input. *)
Definition emitGetAttr (loads : M unit) (input_type : option TypeT)
    (node : NodeInfo) : M unit :=
  loads >>
  let* type := expect input_type in
  let* field := expect (attr_name (attrs node)) in
  let* slot := getAttributeSlot type field in
  insertInstruction GET_ATTR (X_of_size slot) 0.

(** [input0_type] is [node->inputs().at(0)->type()]. *)
Definition emitSetAttr (loads : M unit) (input0_type : option TypeT)
    (node : NodeInfo) : M unit :=
  loads >>
  let* type := expect input0_type in
  let* field := expect (attr_name (attrs node)) in
  let* slot := getAttributeSlot type field in
  insertInstruction SET_ATTR (X_of_size slot) 0.

Fixpoint insertBailoutBlocks_loop (blocks : list BailoutBlock) : M unit :=
  match blocks with
  | [] => ret tt
  | block :: blocks' =>
      let* jf :=
        gets (λ st, instructions_ st !! jf_instruction_index block) in
      let* jf := expect jf in
      assert (bool_decide (op jf = JF)) >>
      let* size := size_of instructions_ in
      patch_X (jf_instruction_index block)
        (Int.size_sub size (jf_instruction_index block)) >>
      modify (λ st,
        set_instructions_ (instructions_ st ++ instructions block) st) >>
      let* source :=
        gets (λ st,
          instructions_source_ st !! jf_instruction_index block) in
      let* source := expect source in
      modify (λ st,
        set_instructions_source_
          (instructions_source_ st ++
             replicate (length (instructions block)) source) st) >>
      insertBailoutBlocks_loop blocks'
  end.

Definition insertBailoutBlocks : M unit :=
  let* blocks := gets bailout_blocks_ in
  insertBailoutBlocks_loop blocks.

Definition emitInterfaceCall (method_name_str : string) (loads : M unit)
    (num_inputs : nat) : M unit :=
  loads >>
  let* method_name := insertConstant (IV_String method_name_str) in
  insertInstruction INTERFACE_CALL method_name (N_of_size num_inputs).

Definition emitListUnpack (loads : M unit) (node : NodeInfo) : M unit :=
  loads >>
  insertInstruction LIST_UNPACK (X_of_size (length (outputs node))) 0.

Definition emitContainerConstruct (op : OpCode) (loads : M unit)
    (num_inputs : nat) (node : NodeInfo) : M unit :=
  loads >>
  let* o := output node in
  let* t := emitType (out_type o) in
  insertInstruction op (X_of_size t) (N_of_size num_inputs).

Definition emitTupleConstruct (loads : M unit) (num_inputs : nat)
    (node : NodeInfo) : M unit :=
  let* o := output node in
  let* named :=
    match out_type o with
    | TupleType name _ => ret (bool_decide (name ≠ None))
    | _ => throw
    end in
  if named : bool then
    emitContainerConstruct NAMED_TUPLE_CONSTRUCT loads num_inputs node
  else
    loads >>
    insertInstruction TUPLE_CONSTRUCT (X_of_size num_inputs) 0.

Definition emitCreateObject (node : NodeInfo) : M unit :=
  let* o := output node in
  let* t := emitType (out_type o) in
  insertInstruction CREATE_OBJECT (X_of_size t) 0.

Fixpoint emitTypes (types : list TypeT) : M unit :=
  match types with
  | [] => ret tt
  | typ :: types' => let* _ := emitType typ in emitTypes types'
  end.

Definition emitIsinstance (loads : M unit) (node : NodeInfo) : M unit :=
  loads >>
  let* types := expect (attr_types (attrs node)) in
  let* types_start := size_of type_table_ in
  emitTypes types >>
  insertInstruction ISINSTANCE (X_of_size types_start)
    (N_of_size (length types)).

Definition emitTupleSlice (loads : M unit) (node : NodeInfo) : M unit :=
  loads >>
  let* beg_ind := expect (attr_beg (attrs node)) in
  let* end_ind := expect (attr_end (attrs node)) in
  insertInstruction TUPLE_SLICE beg_ind
    (Int.to_uint64 (Int.to_int64 (end_ind - beg_ind))).

Definition emitFork (loads : M unit) (num_inputs : nat) (node : NodeInfo)
    : M unit :=
  loads >>
  let* subgraph := expect (attr_Subgraph (attrs node)) in
  let forked_fn :=
    mkGraphFunction "<forked function>" (Some subgraph) None in
  modify (λ st,
    set_forked_functions_ (forked_functions_ st ++ [forked_fn]) st) >>
  modify (λ st,
    set_function_table_ (function_table_ st ++ [fn_owned forked_fn]) st) >>
  let* size := size_of function_table_ in
  insertInstruction FORK (Int.to_int64 (Int.size_sub size 1))
    (N_of_size num_inputs).

Definition emitWarn (loads : M unit) (node : NodeInfo) : M unit :=
  if FLAGS_torch_jit_disable_warning_prints then ret tt
  else
    loads >>
    let idx :=
      match attr_warn_id (attrs node) with
      | Some w => Int.to_int32 w
      | None => -1
      end in
    insertInstruction WARN idx 0.

Definition emitEnter (loads : M unit) : M unit :=
  loads >> insertInstruction ENTER 0 0.

Definition emitExit : M unit := insertInstruction EXIT 0 0.

(** *** Virtual dispatch of [emitOperator] *)

Inductive Impl : Type := CodeImpl_class | MobileCodeImpl_class.

(** [MobileCodeImpl::emitOperator]: the body is the call of the base
    method (the specialised lowering is commented out). *)
Definition MobileCodeImpl_emitOperator (loads : M unit) (num_inputs : nat)
    (node : NodeInfo) : M unit :=
  CodeImpl_emitOperator loads num_inputs node.

Definition emitOperator (this : Impl) : M unit → nat → NodeInfo → M unit :=
  match this with
  | CodeImpl_class => CodeImpl_emitOperator
  | MobileCodeImpl_class => MobileCodeImpl_emitOperator
  end.

Definition as_ClassType (t : TypeT)
    : option (list (string * FunctionId)) :=
  match t with
  | ClassType _ _ methods => Some methods
  | _ => None
  end.

Definition as_FunctionType (t : TypeT) : option FunctionId :=
  match t with
  | FunctionType f => Some f
  | _ => None
  end.

(** *** [emitNode] and the emitters that recurse through it *)

Variable this : Impl.

Fixpoint emitNode (node : Node) : M unit :=
  match node with
  | mkNode info inputs blocks =>
      let loads := emitLoadInputs inputs in
      let num_inputs := values_size inputs in
      let block0 :=
        match blocks with
        | bcons b _ => Some (emitCodeForBlock b)
        | bnil => None
        end in
      let block1 :=
        match blocks with
        | bcons _ (bcons b _) => Some (emitCodeForBlock b)
        | _ => None
        end in
      WithCurrentNode info
        (match kind info with
         | prim_Drop => emitDrop inputs
         | prim_Constant => emitConstant info
         | prim_If => emitIf loads block0 block1
         | prim_Loop => emitLoop loads num_inputs block0
         | aten_wait => emitWait loads
         | prim_Param => ret tt
         | prim_CallFunction =>
             match inputs with
             | vcons callee args =>
                 let* func := expect (as_FunctionType (value_type callee)) in
                 emitCall func (emitLoadInputs args)
             | vnil => throw
             end
         | prim_CallMethod =>
             match inputs with
             | vcons self _ =>
                 match as_ClassType (value_type self) with
                 | Some methods =>
                     let* method := expect (attr_name (attrs info)) in
                     let* func := getMethod methods method in
                     emitCall func loads
                 | None =>
                     let* method := expect (attr_name (attrs info)) in
                     emitInterfaceCall method loads num_inputs
                 end
             | vnil => throw
             end
         | prim_TypeCheck => emitTypeCheck loads num_inputs info
         | prim_BailOut =>
             match inputs with
             | vcons unoptimized (vcons guarded rest) =>
                 emitBailOut (Some (emitUse guarded false >> ret tt))
                   (attr_Subgraph (attrs (info_of (value_node unoptimized))))
                   (Some (emitLoadInputs rest)) info
             | _ => emitBailOut None None None info
             end
         | prim_profile_ivalue | prim_profile => emitProfile loads info
         | prim_GetAttr =>
             emitGetAttr loads
               match inputs with
               | vcons input vnil => Some (value_type input)
               | _ => None
               end info
         | prim_SetAttr =>
             emitSetAttr loads
               match inputs with
               | vcons input _ => Some (value_type input)
               | vnil => None
               end info
         | prim_ListUnpack => emitListUnpack loads info
         | prim_TupleConstruct => emitTupleConstruct loads num_inputs info
         | prim_ListConstruct =>
             emitContainerConstruct LIST_CONSTRUCT loads num_inputs info
         | prim_DictConstruct =>
             emitContainerConstruct DICT_CONSTRUCT loads num_inputs info
         | prim_CreateObject => emitCreateObject info
         | prim_isinstance => emitIsinstance loads info
         | prim_TupleSlice => emitTupleSlice loads info
         | prim_fork => emitFork loads num_inputs info
         | aten_warn => emitWarn loads info
         | prim_Enter => emitEnter loads
         | prim_Exit => emitExit
         | prim_Return | other_kind _ =>
             emitOperator this loads num_inputs info
         end)
  end

with emitUse (input : Value) (drop : bool) : M unit :=
  match input with
  | mkValue _ _ _ node => emitUse_body (emitNode node) input drop
  end

with emitLoadInputs (inputs : Values) : M unit :=
  match inputs with
  | vnil => ret tt
  | vcons input inputs' => emitUse input false >> emitLoadInputs inputs'
  end

with emitDrop (to_drop : Values) : M unit :=
  match to_drop with
  | vnil => ret tt
  | vcons input to_drop' => emitUse input true >> emitDrop to_drop'
  end

with emitCodeForBlock (block : Block) : M unit :=
  match block with
  | mkBlock param_node nodes return_node =>
      match param_node with
      | mkNode info inputs _ =>
          emitNodeAtBlockLevel info (emitLoadInputs inputs)
            (emitNode param_node)
      end >>
      emitNodes nodes >>
      match return_node with
      | mkNode info inputs _ =>
          emitNodeAtBlockLevel info (emitLoadInputs inputs)
            (emitNode return_node)
      end
  end

(** [for (auto node : block->nodes()) emitNodeAtBlockLevel(node)] *)
with emitNodes (nodes : Nodes) : M unit :=
  match nodes with
  | nnil => ret tt
  | ncons node nodes' =>
      match node with
      | mkNode info inputs _ =>
          emitNodeAtBlockLevel info (emitLoadInputs inputs) (emitNode node)
      end >>
      emitNodes nodes'
  end.

End Emitter.

(** ** Compilation ([CodeImpl::CodeImpl], [CodeImpl::run]) *)

(** [preprocess_.graph]: the graph the constructor has preprocessed, given
    by its root block. *)
Record Graph : Type := mkGraph {
  block : Block
}.

Definition graph_return_node (graph : Graph) : Node :=
  match block graph with mkBlock _ _ r => r end.

(** The state the constructor sets up before [run()]. *)
Definition CodeImpl_init (graph : Graph) : CodeImpl :=
  {| instructions_ := [];
     instructions_source_ := [];
     constant_table_ := [];
     operator_table_ := [];
     function_table_ := [];
     forked_functions_ := [];
     type_table_ := [];
     profile_function_table_ := [];
     register_size_ := 0;
     value_to_reg_ := ∅;
     op_to_num_specified_args_ := ∅;
     use_count_ := ∅;
     current_node_ := info_of (graph_return_node graph);
     last_inserted_op_ := None;
     bailout_blocks_ := [];
     bailout_functions_ := [] |}.

Section Run.

Variable can_emit_inline : NodeId → bool.
Variable FLAGS_torch_jit_disable_warning_prints : bool.

Definition CodeImpl_run (graph : Graph) : M unit :=
  emitCodeForBlock can_emit_inline FLAGS_torch_jit_disable_warning_prints
    CodeImpl_class (block graph) >>
  insertInstruction RET 0 0 >>
  (* we deferred the emission of bailout blocks so they appear at the end
     emit them now and patch up the jumps *)
  insertBailoutBlocks.

(** [CodeImpl(graph, function_name, remaining_bailout_depth)] *)
Definition new_CodeImpl (graph : Graph) : option CodeImpl :=
  exec (CodeImpl_run graph) (CodeImpl_init graph).

End Run.

(** ** [CodeImpl::request_bailout] *)

Definition is_guard (o : OpCode) : bool :=
  bool_decide (o = GUARD) || bool_decide (o = FAIL_GUARD).

(** The scan over [instructions_], from the current instruction on, with
    the current value of [count]. *)
Fixpoint request_bailout_scan (count : nat) (instrs : list Instruction)
    : list Instruction :=
  match instrs with
  | [] => []
  | i :: instrs' =>
      if is_guard (op i) then
        match count with
        | O => set_op FAIL_GUARD i :: instrs' (* patching GUARD to FAIL_GUARD *)
        | S count' => i :: request_bailout_scan count' instrs'
        end
      else i :: request_bailout_scan count instrs'
  end.

Definition request_bailout (index : nat) (st : CodeImpl) : CodeImpl :=
  set_instructions_ (request_bailout_scan index (instructions_ st)) st.

(** ** [MobileCodeImpl] *)

(** Modelled from the spec: [DepthFirstGraphNodeIterator]
    ([graph_iterator.h] is absent) yields every call site of the graph in a
    single forward scan: the nodes of a block in order, each node before
    the nodes of its nested blocks. *)
Fixpoint DepthFirst_node (node : Node) : list Node :=
  match node with
  | mkNode _ _ blocks => node :: DepthFirst_blocks blocks
  end
with DepthFirst_blocks (blocks : Blocks) : list Node :=
  match blocks with
  | bnil => []
  | bcons b blocks' => DepthFirst_block b ++ DepthFirst_blocks blocks'
  end
with DepthFirst_block (b : Block) : list Node :=
  match b with
  | mkBlock _ nodes _ => DepthFirst_nodes nodes
  end
with DepthFirst_nodes (nodes : Nodes) : list Node :=
  match nodes with
  | nnil => []
  | ncons n nodes' => DepthFirst_node n ++ DepthFirst_nodes nodes'
  end.

Definition DepthFirstGraphNodeIterator (graph : Graph) : list Node :=
  DepthFirst_block (block graph).

(** [op_schema.overload_name() != "" ? name + "." + overload_name : name] *)
Definition unique_name (op_schema : FunctionSchema) : string :=
  if bool_decide (overload_name op_schema ≠ "")
  then name op_schema +:+ "." +:+ overload_name op_schema
  else name op_schema.

Section Mobile.

Variable can_emit_inline : NodeId → bool.
Variable FLAGS_torch_jit_disable_warning_prints : bool.

(** [CalculateNecessaryArgs(op_schema.arguments(), node->inputs())]
    ([calculate_necessary_args.h]). *)
Variable CalculateNecessaryArgs : list nat → Values → nat.

(** The body of the [while (node)] loop, on the lookup table. *)
Definition process_op (table : gmap string nat) (node : Node)
    : gmap string nat :=
  match maybeOperator (info_of node) with
  | Some op =>
      let op_schema := schema op in
      (* skip if schema has vararg *)
      if negb (is_vararg op_schema) then
        let numInclude :=
          CalculateNecessaryArgs (arguments op_schema) (inputs_of node) in
        (* [insert] leaves an entry that is already there *)
        let table1 :=
          match table !! unique_name op_schema with
          | Some _ => table
          | None => <[unique_name op_schema := 0%nat]> table
          end in
        let prev_value :=
          default 0%nat (table1 !! unique_name op_schema) in
        <[unique_name op_schema := Nat.max numInclude prev_value]> table1
      else table
  | None => table
  end.

Definition process_ops_for_mobile (graph : Graph) (st : CodeImpl)
    : CodeImpl :=
  set_op_to_num_specified_args_
    (foldl process_op (op_to_num_specified_args_ st)
       (DepthFirstGraphNodeIterator graph)) st.

Definition MobileCodeImpl_run (graph : Graph) : M unit :=
  modify (process_ops_for_mobile graph) >>
  emitCodeForBlock can_emit_inline FLAGS_torch_jit_disable_warning_prints
    MobileCodeImpl_class (block graph) >>
  insertInstruction RET 0 0 >>
  (* we deferred the emission of bailout blocks so they appear at the end
     emit them now and patch up the jumps *)
  insertBailoutBlocks.

(** [MobileCodeImpl(graph, function_name, remaining_bailout_depth)] *)
Definition new_MobileCodeImpl (graph : Graph) : option CodeImpl :=
  exec (MobileCodeImpl_run graph) (CodeImpl_init graph).

End Mobile.

(** ** Properties of programs *)

(** The instructions that carry a jump offset in [X]. *)
Definition is_jump (o : OpCode) : bool :=
  bool_decide (o = JF) || bool_decide (o = JMP) || bool_decide (o = LOOP).

(** Every jump of [prog] addresses an instruction of [prog]: the
    instruction at index [i] with operand [X] goes to [i + X]. *)
Definition valid_jumps (prog : list Instruction) : Prop :=
  ∀ (i : nat) ins,
    prog !! i = Some ins → is_jump (op ins) = true →
    0 ≤ Z.of_nat i + X ins < Z.of_nat (length prog).

(** Every jump of [code] is the [int32_t] image of an offset to a target
    between [lo] and [hi], positions being relative to the start of [code]. *)
Definition jumps_within (lo hi : Z) (code : list Instruction) : Prop :=
  ∀ (i : nat) ins,
    code !! i = Some ins → is_jump (op ins) = true →
    ∃ t : Z, lo ≤ t ≤ hi ∧ X ins = Int.to_int32 (t - Z.of_nat i).

(** A run of code whose jumps stay inside it or go just past its end, and
    that holds no [FAIL_GUARD]. *)
Definition code_ok (code : list Instruction) : Prop :=
  jumps_within 0 (Z.of_nat (length code)) code
  ∧ Forall (λ ins, op ins ≠ FAIL_GUARD) code.

(** A deferred block: code in the above sense, ended by a [TAIL_CALL]. *)
Definition block_ok (b : BailoutBlock) : Prop :=
  ∃ body tail_call,
    instructions b = body ++ [tail_call]
    ∧ op tail_call = TAIL_CALL ∧ code_ok body.

(** The deferred blocks [new] were recorded at distinct positions from [lo]
    up to, but not at, [hi]. *)
Definition blocks_within (lo hi : nat) (new : list BailoutBlock) : Prop :=
  Forall (λ b, (lo ≤ jf_instruction_index b < hi)%nat) new
  ∧ NoDup (jf_instruction_index <$> new).

(** What an emitter may do to the state: append code to [instructions_],
    append blocks to [bailout_blocks_], and raise [register_size_].  With
    [strict], the new blocks were moreover recorded at distinct positions
    of the new code. *)
Record extends (strict : bool) (st st' : CodeImpl) : Prop := mk_extends {
  ext_instructions :
    ∃ new, instructions_ st' = instructions_ st ++ new ∧ code_ok new;
  ext_bailout_blocks :
    ∃ new, bailout_blocks_ st' = bailout_blocks_ st ++ new
           ∧ Forall block_ok new
           ∧ (strict = true →
              blocks_within (length (instructions_ st))
                (length (instructions_ st')) new);
  ext_register_size : register_size_ st ≤ register_size_ st'
}.

Definition Ext (strict : bool) {A} (m : M A) : Prop :=
  ∀ st a st', m st = Some (a, st') → extends strict st st'.

(** [m] neither reads nor writes [op_to_num_specified_args_]. *)
Definition Indep {A} (m : M A) : Prop :=
  ∀ st table,
    m (set_op_to_num_specified_args_ table st)
    = prod_map id (set_op_to_num_specified_args_ table) <$> m st.

Definition Good (strict : bool) {A} (m : M A) : Prop :=
  Ext strict m ∧ Indep m.

(** [m] adds no deferred block. *)
Definition NoBlocks {A} (m : M A) : Prop :=
  ∀ st a st', m st = Some (a, st') → bailout_blocks_ st' = bailout_blocks_ st.

(** [post m st Q]: when [m] returns from [st], the result and the final
    state satisfy [Q]. *)
Definition post {A} (m : M A) (st : CodeImpl) (Q : A → CodeImpl → Prop)
    : Prop :=
  ∀ a st', m st = Some (a, st') → Q a st'.

Section GoodParts.

Variable strict : bool.
Variable can_emit_inline : NodeId → bool.
Variable FLAGS_torch_jit_disable_warning_prints : bool.
Variable this : Impl.

(** [Good] of the emitters of a list of inputs and of each of them. *)
Fixpoint values_Good (vs : Values) : Prop :=
  Good strict
    (emitLoadInputs can_emit_inline FLAGS_torch_jit_disable_warning_prints
       this vs)
  ∧ Good strict
      (emitDrop can_emit_inline FLAGS_torch_jit_disable_warning_prints
         this vs)
  ∧ match vs with
    | vnil => True
    | vcons v vs' =>
        (∀ drop,
           Good strict
             (emitUse can_emit_inline
                FLAGS_torch_jit_disable_warning_prints this v drop))
        ∧ values_Good vs'
    end.

(** [Good] of the emitter of each block of a list. *)
Fixpoint blocks_Good (bs : Blocks) : Prop :=
  match bs with
  | bnil => True
  | bcons b bs' =>
      Good strict
        (emitCodeForBlock can_emit_inline
           FLAGS_torch_jit_disable_warning_prints this b)
      ∧ blocks_Good bs'
  end.

(** The inputs are all registered: none is lowered inline. *)
Fixpoint all_registered (vs : Values) : bool :=
  match vs with
  | vnil => true
  | vcons v vs' =>
      negb (can_emit_inline (node_id (info_of (value_node v))))
      && all_registered vs'
  end.

(** The inputs a BailOut node loads into its deferred block (those after
    the unoptimized graph and the guarded value) are registered. *)
Definition bailout_inputs_registered (k : NodeKind) (inputs : Values)
    : bool :=
  match k, inputs with
  | prim_BailOut, vcons _ (vcons _ rest) => all_registered rest
  | _, _ => true
  end.

(** Every BailOut node of the unfolded graph satisfies
    [bailout_inputs_registered]. *)
Fixpoint bailouts_registered_node (n : Node) : bool :=
  match n with
  | mkNode info inputs blocks =>
      bailout_inputs_registered (kind info) inputs
      && bailouts_registered_values inputs
      && bailouts_registered_blocks blocks
  end
with bailouts_registered_value (v : Value) : bool :=
  match v with
  | mkValue _ _ _ n => bailouts_registered_node n
  end
with bailouts_registered_values (vs : Values) : bool :=
  match vs with
  | vnil => true
  | vcons v vs' =>
      bailouts_registered_value v && bailouts_registered_values vs'
  end
with bailouts_registered_block (b : Block) : bool :=
  match b with
  | mkBlock p ns r =>
      bailouts_registered_node p && bailouts_registered_nodes ns
      && bailouts_registered_node r
  end
with bailouts_registered_blocks (bs : Blocks) : bool :=
  match bs with
  | bnil => true
  | bcons b bs' =>
      bailouts_registered_block b && bailouts_registered_blocks bs'
  end
with bailouts_registered_nodes (ns : Nodes) : bool :=
  match ns with
  | nnil => true
  | ncons n ns' =>
      bailouts_registered_node n && bailouts_registered_nodes ns'
  end.

End GoodParts.

(** The positions, from [i] on, of the instructions whose opcode
    satisfies [P]. *)
Fixpoint positions_from (P : OpCode → bool) (i : nat)
    (prog : list Instruction) : list nat :=
  match prog with
  | [] => []
  | ins :: prog' =>
      if P (op ins) then i :: positions_from P (S i) prog'
      else positions_from P (S i) prog'
  end.

Definition is_GUARD (o : OpCode) : bool := bool_decide (o = GUARD).

(** The positions of the GUARD instructions, in instruction order. *)
Definition GUARD_positions (prog : list Instruction) : list nat :=
  positions_from is_GUARD 0 prog.

(** The positions of the guards, patched to FAIL_GUARD or not. *)
Definition guard_positions (prog : list Instruction) : list nat :=
  positions_from is_guard 0 prog.

(** ** Statements about single lowering rules *)

(** [value_to_reg_] maps no two values to the same index. *)
Definition value_to_reg_injective (st : CodeImpl) : Prop :=
  ∀ (v1 v2 : ValueId) r,
    value_to_reg_ st !! v1 = Some r → value_to_reg_ st !! v2 = Some r →
    v1 = v2.

(** The values of [A] hold distinct registers between 1 and
    [register_size_]. *)
Definition registers_distinct (A : gset ValueId) (st : CodeImpl) : Prop :=
  (∀ v, v ∈ A →
        ∃ r, value_to_reg_ st !! v = Some r ∧ 1 ≤ r ≤ register_size_ st)
  ∧ (∀ v1 v2 r,
       v1 ∈ A → v2 ∈ A →
       value_to_reg_ st !! v1 = Some r → value_to_reg_ st !! v2 = Some r →
       v1 = v2).

(** Lowering a constant from [st] to [st']: no instruction, the value
    appended to the constant table, the output bound to its slot. *)
Definition Constant_lowered (o : Output) (st st' : CodeImpl) : Prop :=
  instructions_ st' = instructions_ st
  ∧ (∃ value, constant_table_ st' = constant_table_ st ++ [value])
  ∧ value_to_reg_ st' !! out_unique o
    = Some (Z.of_nat (length (constant_table_ st))).

(** The code an [If] node appends to [prog], with the offsets of the JF and
    of the JMP given as functions of the lengths of the branches. *)
Definition If_code (jf_offset jmp_offset : nat → Z)
    (L T F : list Instruction) : list Instruction :=
  L ++ [mkInstruction JF (jf_offset (length T)) 0] ++ T
    ++ [mkInstruction JMP (jmp_offset (length F)) 0] ++ F.

(** The code a [Loop] node appends: the initial trip count, the loads of
    the inputs, LOOP with its offset (a function of the length of the body)
    and arity, the body, and the backward JMP. *)
Definition Loop_code (loop_offset : nat → Z) (arity : Z) (c : Z)
    (L Body : list Instruction) : list Instruction :=
  [mkInstruction LOADC c 0] ++ L
    ++ [mkInstruction LOOP (loop_offset (length Body)) arity] ++ Body
    ++ [mkInstruction JMP (- (Z.of_nat (length Body) + 1)) 0].

(** ** Call sites of the mobile pre-pass *)

(** A call site: a visited node that has an operator whose schema is not
    vararg; given by the schema and the inputs of the node. *)
Definition call_site (node : Node) : option (FunctionSchema * Values) :=
  match maybeOperator (info_of node) with
  | Some op =>
      if is_vararg (schema op) then None
      else Some (schema op, inputs_of node)
  | None => None
  end.

Definition call_sites (graph : Graph) : list (FunctionSchema * Values) :=
  omap call_site (DepthFirstGraphNodeIterator graph).

(** The number of necessary arguments at a call site. *)
Definition necessary_args (CalculateNecessaryArgs : list nat → Values → nat)
    (site : FunctionSchema * Values) : nat :=
  CalculateNecessaryArgs (arguments site.1) site.2.

(** The string holds the separator ['.'] of name and overload name. *)
Fixpoint has_dot (s : string) : bool :=
  match s with
  | EmptyString => false
  | String c s' => if Ascii.eqb c (Ascii.ascii_of_nat 46) then true else has_dot s'
  end.

(** The call sites of the (name, overload) pair of [site]. *)
Definition same_overload (site : FunctionSchema * Values)
    (sites : list (FunctionSchema * Values))
    : list (FunctionSchema * Values) :=
  filter
    (λ s, name s.1 = name site.1 ∧ overload_name s.1 = overload_name site.1)
    sites.

(** The call sites whose unique name is that of [site]: the call sites
    that share its entry of [op_to_num_specified_args_]. *)
Definition same_unique_name (site : FunctionSchema * Values)
    (sites : list (FunctionSchema * Values))
    : list (FunctionSchema * Values) :=
  filter (λ s, unique_name s.1 = unique_name site.1) sites.

(** ** Example graphs *)

Module Example.

Local Open Scope nat_scope.

Definition ty : TypeT := OtherType 0.

Definition can_emit_inline : NodeId → bool := λ _, false.

(** A node without operator. *)
Definition node_info (id : NodeId) (k : NodeKind) (outs : list ValueId)
    (blk : BlockId) (topo : nat) : NodeInfo :=
  mkNodeInfo id k ((λ o, mkOutput o ty) <$> outs) no_attrs None blk (Z.of_nat topo).

(** A call of the operator [nm] with schema [nm.ov(arg0, arg1)]. *)
Definition op_info (id : NodeId) (nm ov : string) (outs : list ValueId)
    (blk : BlockId) (topo : nat) : NodeInfo :=
  mkNodeInfo id (other_kind nm) ((λ o, mkOutput o ty) <$> outs) no_attrs
    (Some (mkOperator (mkSchema nm ov [0; 1] false) true))
    blk (Z.of_nat topo).

(** A constant node. *)
Definition const_info (id : NodeId) (out : ValueId) (t : TypeT)
    (value : IValue) (blk : BlockId) (topo : nat) : NodeInfo :=
  mkNodeInfo id prim_Constant [mkOutput out t]
    (mkAttrs None None None None None None None (Some value)) None blk
    (Z.of_nat topo).

(** *** [z = if (cond) a+b else a-b; return z] *)

Definition If_params : Node :=
  mkNode (node_info 0 prim_Param [1; 2; 3] 0 0) vnil bnil.
Definition cond : Value := mkValue 1 1 ty If_params.
Definition a : Value := mkValue 2 2 ty If_params.
Definition b : Value := mkValue 3 2 ty If_params.
Definition add : Node :=
  mkNode (op_info 11 "aten::add" "Tensor" [4] 1 1)
    (vcons a (vcons b vnil)) bnil.
Definition sub : Node :=
  mkNode (op_info 21 "aten::sub" "Tensor" [5] 2 1)
    (vcons a (vcons b vnil)) bnil.
Definition block_true : Block :=
  mkBlock (mkNode (node_info 10 prim_Param [] 1 0) vnil bnil)
    (ncons add nnil)
    (mkNode (node_info 12 prim_Return [] 1 2)
       (vcons (mkValue 4 1 ty add) vnil) bnil).
Definition block_false : Block :=
  mkBlock (mkNode (node_info 20 prim_Param [] 2 0) vnil bnil)
    (ncons sub nnil)
    (mkNode (node_info 22 prim_Return [] 2 2)
       (vcons (mkValue 5 1 ty sub) vnil) bnil).
Definition If_info : NodeInfo := node_info 30 prim_If [6] 0 1.
Definition If_node : Node :=
  mkNode If_info (vcons cond vnil)
    (bcons block_true (bcons block_false bnil)).
Definition If_graph : Graph :=
  mkGraph
    (mkBlock If_params (ncons If_node nnil)
       (mkNode (node_info 31 prim_Return [] 0 2)
          (vcons (mkValue 6 1 ty If_node) vnil) bnil)).

(** The state in which [If_node] is lowered: the three inputs of the
    graph are in registers 1 to 3. *)
Definition If_state : CodeImpl :=
  set_instructions_source_ [0]
    (set_instructions_ [mkInstruction STOREN 1%Z 3%Z]
       (set_register_size_ 3%Z
          (set_value_to_reg_ {[ 1 := 1%Z; 2 := 2%Z; 3 := 3%Z ]}
             (CodeImpl_init If_graph)))).

(** *** A loop without loop-carried values

    [prim::Loop(max_trip_count, cond)] whose body returns the constant
    continuation flag [c]. *)

Definition Loop_params : Node :=
  mkNode (node_info 0 prim_Param [1; 2] 0 0) vnil bnil.
Definition Loop_flag : Node :=
  mkNode (const_info 1 3 ty (IV_Int 1%Z) 0 1) vnil bnil.
Definition Loop_inputs : Values :=
  vcons (mkValue 1 1 ty Loop_params)
    (vcons (mkValue 2 1 ty Loop_params) vnil).
Definition Loop_body : Block :=
  mkBlock (mkNode (node_info 10 prim_Param [10] 1 0) vnil bnil) nnil
    (mkNode (node_info 11 prim_Return [] 1 1)
       (vcons (mkValue 3 1 ty Loop_flag) vnil) bnil).
Definition Loop_info : NodeInfo := node_info 2 prim_Loop [] 0 2.
Definition Loop_node : Node :=
  mkNode Loop_info Loop_inputs (bcons Loop_body bnil).
Definition Loop_graph : Graph :=
  mkGraph
    (mkBlock Loop_params (ncons Loop_flag (ncons Loop_node nnil))
       (mkNode (node_info 3 prim_Return [] 0 3) vnil bnil)).

(** The state in which [Loop_node] is lowered. *)
Definition Loop_state : CodeImpl :=
  set_instructions_source_ [0]
    (set_instructions_ [mkInstruction STOREN 1%Z 2%Z]
       (set_constant_table_ [IV_Int 1%Z]
          (set_register_size_ 2%Z
             (set_value_to_reg_ {[ 1 := 1%Z; 2 := 2%Z; 3 := 0%Z ]}
                (CodeImpl_init Loop_graph))))).

(** *** One guard with its bailout

    The graph guards its input [x] and returns a constant. *)

Definition BailOut_params : Node :=
  mkNode (node_info 0 prim_Param [1] 0 0) vnil bnil.
Definition BailOut_template : Node :=
  mkNode
    (mkNodeInfo 1 (other_kind "prim::BailoutTemplate") [mkOutput 2 ty]
       (mkAttrs (Some 7) None None None None None None None)
       (Some (mkOperator (mkSchema "prim::BailoutTemplate" "" [] false)
                true))
       0 1%Z)
    vnil bnil.
Definition BailOut_node : Node :=
  mkNode
    (mkNodeInfo 2 prim_BailOut [mkOutput 3 ty]
       (mkAttrs None None None (Some 0%Z) None None None None) None 0 2%Z)
    (vcons (mkValue 2 1 ty BailOut_template)
       (vcons (mkValue 1 1 ty BailOut_params) vnil))
    bnil.
Definition BailOut_result : Node :=
  mkNode (const_info 3 4 ty (IV_Int 42%Z) 0 3) vnil bnil.
Definition BailOut_graph : Graph :=
  mkGraph
    (mkBlock BailOut_params
       (ncons BailOut_template (ncons BailOut_node (ncons BailOut_result nnil)))
       (mkNode (node_info 4 prim_Return [] 0 4)
          (vcons (mkValue 4 1 ty BailOut_result) vnil) bnil)).

(** *** A guard whose block loads an inlined value

    The graph guards its input [x]; the BailOut node takes [a + b],
    lowered inline, into its block. *)

Definition Inlined_inline : NodeId → bool := λ id, bool_decide (id = 2).
Definition Inlined_params : Node :=
  mkNode (node_info 0 prim_Param [1; 2; 3] 0 0) vnil bnil.
Definition Inlined_template : Node :=
  mkNode
    (mkNodeInfo 1 (other_kind "prim::BailoutTemplate") [mkOutput 4 ty]
       (mkAttrs (Some 7) None None None None None None None)
       (Some (mkOperator (mkSchema "prim::BailoutTemplate" "" [] false)
                true))
       0 1%Z)
    vnil bnil.
Definition Inlined_add : Node :=
  mkNode (op_info 2 "aten::add" "Tensor" [5] 0 2)
    (vcons (mkValue 2 1 ty Inlined_params)
       (vcons (mkValue 3 1 ty Inlined_params) vnil))
    bnil.
Definition Inlined_BailOut : Node :=
  mkNode
    (mkNodeInfo 3 prim_BailOut [mkOutput 6 ty]
       (mkAttrs None None None (Some 0%Z) None None None None) None 0 3%Z)
    (vcons (mkValue 4 1 ty Inlined_template)
       (vcons (mkValue 1 1 ty Inlined_params)
          (vcons (mkValue 5 1 ty Inlined_add) vnil)))
    bnil.
Definition Inlined_graph : Graph :=
  mkGraph
    (mkBlock Inlined_params
       (ncons Inlined_template
          (ncons Inlined_add (ncons Inlined_BailOut nnil)))
       (mkNode (node_info 4 prim_Return [] 0 4)
          (vcons (mkValue 6 1 ty Inlined_BailOut) vnil) bnil)).

(** *** A BailOut lowered while another loads its block

    The second BailOut node takes, besides [z], the result of an If node
    into its block; the If node is lowered inline, and its first block
    holds a BailOut node of its own.  A third BailOut node follows. *)

Definition Nested_inline : NodeId → bool := λ id, bool_decide (id = 2).
Definition Nested_params : Node :=
  mkNode (node_info 0 prim_Param [1; 2; 3; 4] 0 0) vnil bnil.
Definition Nested_cond : Value := mkValue 1 1 ty Nested_params.
Definition Nested_x : Value := mkValue 2 1 ty Nested_params.
Definition Nested_y : Value := mkValue 3 2 ty Nested_params.
Definition Nested_z : Value := mkValue 4 2 ty Nested_params.
Definition Nested_template : Node :=
  mkNode
    (mkNodeInfo 1 (other_kind "prim::BailoutTemplate") [mkOutput 5 ty]
       (mkAttrs (Some 7) None None None None None None None)
       (Some (mkOperator (mkSchema "prim::BailoutTemplate" "" [] false)
                true))
       0 1%Z)
    vnil bnil.
Definition Nested_unoptimized : Value := mkValue 5 3 ty Nested_template.
Definition Nested_inner : Node :=
  mkNode
    (mkNodeInfo 21 prim_BailOut [mkOutput 7 ty]
       (mkAttrs None None None (Some 0%Z) None None None None) None 1 1%Z)
    (vcons Nested_unoptimized (vcons Nested_y vnil)) bnil.
Definition Nested_true : Block :=
  mkBlock (mkNode (node_info 20 prim_Param [] 1 0) vnil bnil)
    (ncons Nested_inner nnil)
    (mkNode (node_info 22 prim_Return [] 1 2)
       (vcons (mkValue 7 1 ty Nested_inner) vnil) bnil).
Definition Nested_false : Block :=
  mkBlock (mkNode (node_info 30 prim_Param [] 2 0) vnil bnil) nnil
    (mkNode (node_info 31 prim_Return [] 2 1) (vcons Nested_y vnil) bnil).
Definition Nested_If : Node :=
  mkNode (node_info 2 prim_If [6] 0 2) (vcons Nested_cond vnil)
    (bcons Nested_true (bcons Nested_false bnil)).
Definition Nested_outer : Node :=
  mkNode
    (mkNodeInfo 3 prim_BailOut [mkOutput 8 ty]
       (mkAttrs None None None (Some 1%Z) None None None None) None 0 3%Z)
    (vcons Nested_unoptimized
       (vcons Nested_x
          (vcons Nested_z (vcons (mkValue 6 1 ty Nested_If) vnil))))
    bnil.
Definition Nested_ones : Node :=
  mkNode
    (mkNodeInfo 4 (other_kind "aten::ones") [mkOutput 9 ty] no_attrs
       (Some (mkOperator (mkSchema "aten::ones" "" [] false) true)) 0 4%Z)
    vnil bnil.
Definition Nested_later : Node :=
  mkNode
    (mkNodeInfo 5 prim_BailOut [mkOutput 10 ty]
       (mkAttrs None None None (Some 2%Z) None None None None) None 0 5%Z)
    (vcons Nested_unoptimized (vcons Nested_z vnil)) bnil.
Definition Nested_graph : Graph :=
  mkGraph
    (mkBlock Nested_params
       (ncons Nested_template
          (ncons Nested_If
             (ncons Nested_outer
                (ncons Nested_ones (ncons Nested_later nnil)))))
       (mkNode (node_info 6 prim_Return [] 0 6)
          (vcons (mkValue 10 1 ty Nested_later) vnil) bnil)).

(** *** Two constants and an operator *)

Definition Const_params : Node :=
  mkNode (node_info 0 prim_Param [] 0 0) vnil bnil.
Definition Const0 : Node :=
  mkNode (const_info 1 10 ty (IV_Int 7%Z) 0 1) vnil bnil.
Definition Const1 : Node :=
  mkNode (const_info 2 11 ty (IV_Int 8%Z) 0 2) vnil bnil.
Definition Const_sum : Node :=
  mkNode (op_info 3 "aten::add" "int" [12] 0 3)
    (vcons (mkValue 10 1 ty Const0) (vcons (mkValue 11 1 ty Const1) vnil))
    bnil.
Definition Const_graph : Graph :=
  mkGraph
    (mkBlock Const_params
       (ncons Const0 (ncons Const1 (ncons Const_sum nnil)))
       (mkNode (node_info 4 prim_Return [] 0 4)
          (vcons (mkValue 12 1 ty Const_sum) vnil) bnil)).

(** *** Call sites of the mobile pre-pass

    Two calls of [aten::add.Tensor], the second with one argument more,
    and one of [aten::sub.Tensor]. *)

Definition Calls_params : Node :=
  mkNode (node_info 0 prim_Param [1; 2; 3] 0 0) vnil bnil.
Definition Calls_a : Value := mkValue 1 3 ty Calls_params.
Definition Calls_b : Value := mkValue 2 3 ty Calls_params.
Definition Calls_c : Value := mkValue 3 1 ty Calls_params.
Definition Calls_add2 : Node :=
  mkNode (op_info 1 "aten::add" "Tensor" [4] 0 1)
    (vcons Calls_a (vcons Calls_b vnil)) bnil.
Definition Calls_add3 : Node :=
  mkNode (op_info 2 "aten::add" "Tensor" [5] 0 2)
    (vcons Calls_a (vcons Calls_b (vcons Calls_c vnil))) bnil.
Definition Calls_sub : Node :=
  mkNode (op_info 3 "aten::sub" "Tensor" [6] 0 3)
    (vcons Calls_a (vcons Calls_b vnil)) bnil.
Definition Calls_graph : Graph :=
  mkGraph
    (mkBlock Calls_params
       (ncons Calls_add2 (ncons Calls_add3 (ncons Calls_sub nnil)))
       (mkNode (node_info 4 prim_Return [] 0 4)
          (vcons (mkValue 6 1 ty Calls_sub) vnil) bnil)).

(** *** Two schemas with one unique name

    The schema named [ns::op.out] without overload name, called with
    three arguments, and the overload [out] of the schema named
    [ns::op], called with one: both have the unique name
    [ns::op.out]. *)

Definition Shared_params : Node :=
  mkNode (node_info 0 prim_Param [1; 2; 3] 0 0) vnil bnil.
Definition Shared_plain : Node :=
  mkNode (op_info 1 "ns::op.out" "" [4] 0 1)
    (vcons (mkValue 1 2 ty Shared_params)
       (vcons (mkValue 2 1 ty Shared_params)
          (vcons (mkValue 3 1 ty Shared_params) vnil)))
    bnil.
Definition Shared_overload : Node :=
  mkNode (op_info 2 "ns::op" "out" [5] 0 2)
    (vcons (mkValue 1 2 ty Shared_params) vnil) bnil.
Definition Shared_graph : Graph :=
  mkGraph
    (mkBlock Shared_params
       (ncons Shared_plain (ncons Shared_overload nnil))
       (mkNode (node_info 3 prim_Return [] 0 3)
          (vcons (mkValue 5 1 ty Shared_overload) vnil) bnil)).

(** A constant of function type. *)
Definition Function_constant : NodeInfo :=
  const_info 1 10 (FunctionType 5) (IV_Other 0) 0 1.

Definition Function_constant_output : Output :=
  mkOutput 10 (FunctionType 5).

(** The programs and states the examples compile to. *)

Definition If_program : CodeImpl :=
  Eval vm_compute in
    default (CodeImpl_init If_graph)
      (new_CodeImpl can_emit_inline false If_graph).

Definition If_lowered : CodeImpl :=
  Eval vm_compute in
    default If_state
      (exec (emitNode can_emit_inline false CodeImpl_class If_node)
         If_state).

Definition Loop_program : CodeImpl :=
  Eval vm_compute in
    default (CodeImpl_init Loop_graph)
      (new_CodeImpl can_emit_inline false Loop_graph).

Definition Loop_lowered : CodeImpl :=
  Eval vm_compute in
    default Loop_state
      (exec (emitNode can_emit_inline false CodeImpl_class Loop_node)
         Loop_state).

(** The main program of [BailOut_graph], before the deferred block is
    inserted, and the final program. *)
Definition BailOut_main : CodeImpl :=
  Eval vm_compute in
    default (CodeImpl_init BailOut_graph)
      (exec
         (emitCodeForBlock can_emit_inline false CodeImpl_class
            (block BailOut_graph) >>
          insertInstruction RET 0 0)
         (CodeImpl_init BailOut_graph)).

Definition BailOut_program : CodeImpl :=
  Eval vm_compute in
    default (CodeImpl_init BailOut_graph)
      (new_CodeImpl can_emit_inline false BailOut_graph).

Definition Inlined_main : CodeImpl :=
  Eval vm_compute in
    default (CodeImpl_init Inlined_graph)
      (exec
         (emitCodeForBlock Inlined_inline false CodeImpl_class
            (block Inlined_graph) >>
          insertInstruction RET 0 0)
         (CodeImpl_init Inlined_graph)).

Definition Inlined_program : CodeImpl :=
  Eval vm_compute in
    default (CodeImpl_init Inlined_graph)
      (new_CodeImpl Inlined_inline false Inlined_graph).

Definition Nested_main : CodeImpl :=
  Eval vm_compute in
    default (CodeImpl_init Nested_graph)
      (exec
         (emitCodeForBlock Nested_inline false CodeImpl_class
            (block Nested_graph) >>
          insertInstruction RET 0 0)
         (CodeImpl_init Nested_graph)).

Definition Nested_program : CodeImpl :=
  Eval vm_compute in
    default (CodeImpl_init Nested_graph)
      (new_CodeImpl Nested_inline false Nested_graph).

Definition Const_program : CodeImpl :=
  Eval vm_compute in
    default (CodeImpl_init Const_graph)
      (new_CodeImpl can_emit_inline false Const_graph).

Definition allocated : CodeImpl :=
  Eval vm_compute in
    default (CodeImpl_init If_graph)
      (exec (allocRegs [1; 2; 3]) (CodeImpl_init If_graph)).

(** The number of necessary arguments of a call taken to be the number of
    its inputs. *)
Definition CalculateNecessaryArgs (arguments : list nat) (inputs : Values)
    : nat :=
  values_size inputs.

End Example.


(** ** The second overload of [emitLoadInputs] *)

(** The first [n] elements of an [ArrayRef<Value*>]. *)
Fixpoint values_take (n : nat) (vs : Values) : Values :=
  match n, vs with
  | S n', vcons v vs' => vcons v (values_take n' vs')
  | _, _ => vnil
  end.

Section LoadInputsUpTo.

Variable can_emit_inline : NodeId → bool.
Variable FLAGS_torch_jit_disable_warning_prints : bool.
Variable this : Impl.

(** The loop of [emitLoadInputs(inputs, num_include)], with the current
    value of [count]. *)
Fixpoint emitLoadInputs_upto_loop (inputs : Values) (num_include : Z)
    (count : Z) : M unit :=
  match inputs with
  | vnil => ret tt
  | vcons input inputs' =>
      if bool_decide (count < num_include) then
        emitUse can_emit_inline FLAGS_torch_jit_disable_warning_prints this
          input false >>
        emitLoadInputs_upto_loop inputs' num_include (count + 1)
      else emitLoadInputs_upto_loop inputs' num_include count
  end.

(** [emitLoadInputs(inputs, num_include)] *)
Definition emitLoadInputs_upto (inputs : Values) (num_include : Z)
    : M unit :=
  emitLoadInputs_upto_loop inputs num_include 0.

End LoadInputsUpTo.

(** ** What the emitters keep

    The operands that index a table, the guards and the deferred blocks,
    and the members that only grow. *)

(** [x] is the [int32_t] image of an index below [size]. *)
Definition indexes (x : Z) (size : nat) : Prop :=
  ∃ k : nat, (k < size)%nat ∧ x = Int.to_int32 (Z.of_nat k).

(** [x] is the image of an index from which [n] entries lie below [size]. *)
Definition indexes_run (x n : Z) (size : nat) : Prop :=
  ∃ k : nat,
    0 ≤ n ∧ Z.of_nat k + n ≤ Z.of_nat size ∧ x = Int.to_int32 (Z.of_nat k).

(** [x] is the image of a register from which [n] registers lie between 1
    and [size]. *)
Definition registers_run (x n : Z) (size : Z) : Prop :=
  ∃ r : Z, 1 ≤ r ≤ size ∧ r + n - 1 ≤ size ∧ x = Int.to_int32 r.

(** The operand of [ins] addresses the table its opcode reads, as the
    table is in [st]: [operator_table_] for OP and OPN, [function_table_]
    for CALL, TAIL_CALL and FORK, [type_table_] for GUARD, FAIL_GUARD,
    CREATE_OBJECT and the container constructors, a run of [N] types for
    TYPECHECK and ISINSTANCE, [constant_table_] for INTERFACE_CALL,
    [profile_function_table_] for PROFILE_OP, and the registers for STORE
    and STOREN. *)
Definition operand_ok (st : CodeImpl) (ins : Instruction) : Prop :=
  match op ins with
  | OP | OPN => indexes (X ins) (length (operator_table_ st))
  | CALL | TAIL_CALL | FORK => indexes (X ins) (length (function_table_ st))
  | GUARD | FAIL_GUARD | CREATE_OBJECT | NAMED_TUPLE_CONSTRUCT
  | LIST_CONSTRUCT | DICT_CONSTRUCT =>
      indexes (X ins) (length (type_table_ st))
  | TYPECHECK | ISINSTANCE =>
      indexes_run (X ins) (N ins) (length (type_table_ st))
  | INTERFACE_CALL => indexes (X ins) (length (constant_table_ st))
  | PROFILE_OP => indexes (X ins) (length (profile_function_table_ st))
  | STORE => registers_run (X ins) 1 (register_size_ st)
  | STOREN => registers_run (X ins) (N ins) (register_size_ st)
  | _ => True
  end.

(** The same, with the operand read as the number it is. *)
Definition operand_in_range (st : CodeImpl) (ins : Instruction) : Prop :=
  match op ins with
  | OP | OPN => 0 ≤ X ins < Z.of_nat (length (operator_table_ st))
  | CALL | TAIL_CALL | FORK =>
      0 ≤ X ins < Z.of_nat (length (function_table_ st))
  | GUARD | FAIL_GUARD | CREATE_OBJECT | NAMED_TUPLE_CONSTRUCT
  | LIST_CONSTRUCT | DICT_CONSTRUCT =>
      0 ≤ X ins < Z.of_nat (length (type_table_ st))
  | TYPECHECK | ISINSTANCE =>
      0 ≤ X ins ∧ 0 ≤ N ins
      ∧ X ins + N ins ≤ Z.of_nat (length (type_table_ st))
  | INTERFACE_CALL => 0 ≤ X ins < Z.of_nat (length (constant_table_ st))
  | PROFILE_OP =>
      0 ≤ X ins < Z.of_nat (length (profile_function_table_ st))
  | STORE => 1 ≤ X ins ≤ register_size_ st
  | STOREN =>
      1 ≤ X ins ≤ register_size_ st
      ∧ X ins + N ins - 1 ≤ register_size_ st
  | _ => True
  end.

(** The opcodes whose operand [operand_ok] leaves free. *)
Definition free_operand (o : OpCode) : bool :=
  match o with
  | OP | OPN | CALL | TAIL_CALL | FORK | GUARD | FAIL_GUARD | CREATE_OBJECT
  | NAMED_TUPLE_CONSTRUCT | LIST_CONSTRUCT | DICT_CONSTRUCT | TYPECHECK
  | ISINSTANCE | INTERFACE_CALL | PROFILE_OP | STORE | STOREN => false
  | _ => true
  end.

(** Every GUARD of [code] is immediately followed by a JF. *)
Definition guards_followed (code : list Instruction) : Prop :=
  ∀ (i : nat) guard,
    code !! i = Some guard → op guard = GUARD →
    ∃ jf, code !! S i = Some jf ∧ op jf = JF.

(** A deferred block as the emitters leave it: operands as above, guards
    followed; with [strict], no GUARD at all. *)
Definition block_kept (strict : bool) (st : CodeImpl) (b : BailoutBlock)
    : Prop :=
  Forall (operand_ok st) (instructions b)
  ∧ guards_followed (instructions b)
  ∧ (strict = true → Forall (λ ins, op ins ≠ GUARD) (instructions b)).

(** From [st] to [st'] the instructions [code] and the deferred blocks
    [blocks] were added, and nothing was taken away: the tables of [st]
    are prefixes of those of [st'].  With [strict], the blocks are those
    of the GUARDs of [code], in order, each recorded at the JF after its
    GUARD. *)
Record Emitted (strict : bool) (st st' : CodeImpl)
    (code : list Instruction) (blocks : list BailoutBlock) : Prop :=
  mk_Emitted {
    em_instructions : instructions_ st' = instructions_ st ++ code;
    em_sources :
      length (instructions_source_ st')
      = (length (instructions_source_ st) + length code)%nat;
    em_operands : Forall (operand_ok st') code;
    em_guards : guards_followed code;
    em_blocks : bailout_blocks_ st' = bailout_blocks_ st ++ blocks;
    em_blocks_kept : Forall (block_kept strict st') blocks;
    em_bailout_functions :
      length (bailout_functions_ st')
      = (length (bailout_functions_ st) + length blocks)%nat;
    em_recorded :
      strict = true →
      jf_instruction_index <$> blocks
      = S <$> positions_from is_GUARD (length (instructions_ st)) code;
    em_constants : constant_table_ st `prefix_of` constant_table_ st';
    em_operators : operator_table_ st `prefix_of` operator_table_ st';
    em_functions : function_table_ st `prefix_of` function_table_ st';
    em_forked : forked_functions_ st `prefix_of` forked_functions_ st';
    em_types : type_table_ st `prefix_of` type_table_ st';
    em_profiles :
      profile_function_table_ st `prefix_of` profile_function_table_ st';
    em_registers : register_size_ st ≤ register_size_ st';
    em_bound :
      ∀ v, is_Some (value_to_reg_ st !! v) → is_Some (value_to_reg_ st' !! v);
    em_use_count :
      ∀ v,
        (default 0 (use_count_ st !! v) ≤ default 0 (use_count_ st' !! v))%nat;
    em_current_node : current_node_ st' = current_node_ st
  }.

(** Whenever [m] returns, from a state whose register counter is not
    negative, it has only emitted, in the above sense. *)
Definition Sound (strict : bool) {A} (m : M A) : Prop :=
  ∀ st a st',
    0 ≤ register_size_ st →
    m st = Some (a, st') → ∃ code blocks, Emitted strict st st' code blocks.

Section SoundParts.

Variable strict : bool.
Variable can_emit_inline : NodeId → bool.
Variable FLAGS_torch_jit_disable_warning_prints : bool.
Variable this : Impl.

(** [Sound] of the emitters of a list of inputs and of each of them. *)
Fixpoint values_Sound (vs : Values) : Prop :=
  Sound strict
    (emitLoadInputs can_emit_inline FLAGS_torch_jit_disable_warning_prints
       this vs)
  ∧ Sound strict
      (emitDrop can_emit_inline FLAGS_torch_jit_disable_warning_prints
         this vs)
  ∧ match vs with
    | vnil => True
    | vcons v vs' =>
        (∀ drop,
           Sound strict
             (emitUse can_emit_inline
                FLAGS_torch_jit_disable_warning_prints this v drop))
        ∧ values_Sound vs'
    end.

(** [Sound] of the emitter of each block of a list. *)
Fixpoint blocks_Sound (bs : Blocks) : Prop :=
  match bs with
  | bnil => True
  | bcons b bs' =>
      Sound strict
        (emitCodeForBlock can_emit_inline
           FLAGS_torch_jit_disable_warning_prints this b)
      ∧ blocks_Sound bs'
  end.

End SoundParts.

(** The tables and the register counter of [st] fit [int32_t]. *)
Definition tables_fit (st : CodeImpl) : Prop :=
  Z.of_nat (length (operator_table_ st)) < 2 ^ 31
  ∧ Z.of_nat (length (function_table_ st)) < 2 ^ 31
  ∧ Z.of_nat (length (type_table_ st)) < 2 ^ 31
  ∧ Z.of_nat (length (constant_table_ st)) < 2 ^ 31
  ∧ Z.of_nat (length (profile_function_table_ st)) < 2 ^ 31
  ∧ register_size_ st < 2 ^ 31.

(** The tables of [st'] are at least as long as those of [st]. *)
Definition tables_le (st st' : CodeImpl) : Prop :=
  (length (operator_table_ st) ≤ length (operator_table_ st'))%nat
  ∧ (length (function_table_ st) ≤ length (function_table_ st'))%nat
  ∧ (length (type_table_ st) ≤ length (type_table_ st'))%nat
  ∧ (length (constant_table_ st) ≤ length (constant_table_ st'))%nat
  ∧ (length (profile_function_table_ st)
     ≤ length (profile_function_table_ st'))%nat
  ∧ register_size_ st ≤ register_size_ st'.

(** ** Nodes the emitter rejects *)

(** The node lacks a part its lowering rule reads: a block of an If or a
    Loop ([blocks().at(i)]), the callee of a call or its function type,
    the inputs a BailOut slices, the single output or input that
    [output()] and [input()] assert, an attribute, or the operator of an
    operator node; or a TypeCheck fails the assertion on its arity. *)
Definition malformed (node : Node) : bool :=
  match node with
  | mkNode info inputs blocks =>
      let one_output := bool_decide (length (outputs info) = 1%nat) in
      match kind info with
      | prim_If =>
          match blocks with bcons _ (bcons _ _) => false | _ => true end
      | prim_Loop => match blocks with bnil => true | _ => false end
      | prim_CallFunction =>
          match inputs with
          | vcons callee _ =>
              match value_type callee with
              | FunctionType _ => false
              | _ => true
              end
          | vnil => true
          end
      | prim_CallMethod =>
          match inputs with
          | vcons _ _ => bool_decide (attr_name (attrs info) = None)
          | vnil => true
          end
      | prim_BailOut =>
          match inputs with
          | vcons unoptimized (vcons _ _) =>
              bool_decide (outputs info = [])
              || bool_decide
                   (attr_Subgraph (attrs (info_of (value_node unoptimized)))
                    = None)
              || match attr_index (attrs info) with
                 | Some index => bool_decide (index < 0)
                 | None => true
                 end
          | _ => true
          end
      | prim_TypeCheck =>
          bool_decide (values_size inputs = 0%nat)
          || negb (bool_decide
                     ((values_size inputs + 1)%nat = length (outputs info)))
          || bool_decide (attr_types (attrs info) = None)
      | prim_GetAttr =>
          match inputs with
          | vcons _ vnil => bool_decide (attr_name (attrs info) = None)
          | _ => true
          end
      | prim_SetAttr =>
          match inputs with
          | vcons _ _ => bool_decide (attr_name (attrs info) = None)
          | vnil => true
          end
      | prim_Constant | prim_CreateObject | prim_TupleConstruct
      | prim_ListConstruct | prim_DictConstruct => negb one_output
      | prim_isinstance => bool_decide (attr_types (attrs info) = None)
      | prim_TupleSlice =>
          bool_decide (attr_beg (attrs info) = None)
          || bool_decide (attr_end (attrs info) = None)
      | prim_fork => bool_decide (attr_Subgraph (attrs info) = None)
      | prim_profile | prim_profile_ivalue => false
      | prim_Return | other_kind _ =>
          bool_decide (maybeOperator info = None)
      | _ => false
      end
  end.

(** ** Nodes without code *)

(** The nodes [emitNode] lowers to nothing: a Param, a Drop without
    inputs, a warning when warning prints are disabled, and a constant of
    function type. *)
Definition without_code (FLAGS_torch_jit_disable_warning_prints : bool)
    (node : Node) : bool :=
  match node with
  | mkNode info inputs _ =>
      match kind info with
      | prim_Param => true
      | prim_Drop => match inputs with vnil => true | _ => false end
      | aten_warn => FLAGS_torch_jit_disable_warning_prints
      | prim_Constant =>
          match outputs info with
          | [o] => is_FunctionType (out_type o)
          | _ => false
          end
      | _ => false
      end
  end.

(** ** More examples *)

Module MoreExamples.

(** The program [MobileCodeImpl] compiles [Example.Const_graph] to. *)
Definition Const_mobile_program : CodeImpl :=
  Eval vm_compute in
    default (CodeImpl_init Example.Const_graph)
      (new_MobileCodeImpl Example.can_emit_inline false
         Example.CalculateNecessaryArgs Example.Const_graph).

(** An If node that has lost its blocks. *)
Definition If_without_blocks : Node :=
  mkNode Example.If_info (vcons Example.cond vnil) bnil.

(** The state after the root block of [Example.If_graph] is lowered. *)
Definition If_block_lowered : CodeImpl :=
  Eval vm_compute in
    default (CodeImpl_init Example.If_graph)
      (exec
         (emitCodeForBlock Example.can_emit_inline false CodeImpl_class
            (block Example.If_graph))
         (CodeImpl_init Example.If_graph)).

End MoreExamples.


(** * Proofs *)

(** ** Fixed-width conversions *)

Module IntFacts.
Import Int.

Lemma to_int32_small z : - 2 ^ 31 ≤ z < 2 ^ 31 → to_int32 z = z.
Proof.
  intros Hz. unfold to_int32, to_signed.
  rewrite Z.mod_small; lia.
Qed.

Lemma to_int32_0 : to_int32 0 = 0.
Proof. reflexivity. Qed.

Lemma to_int32_add_mul z k : to_int32 (z + k * 2 ^ 32) = to_int32 z.
Proof.
  unfold to_int32, to_signed. f_equal.
  replace (z + k * 2 ^ 32 + 2 ^ (32 - 1))
    with (z + 2 ^ (32 - 1) + k * 2 ^ 32) by lia.
  apply Z.mod_add. lia.
Qed.

Lemma to_int32_to_size_t z : to_int32 (to_size_t z) = to_int32 z.
Proof.
  unfold to_size_t, to_unsigned.
  rewrite Z.mod_eq by lia.
  replace (z - 2 ^ 64 * (z / 2 ^ 64))
    with (z + (- (2 ^ 32 * (z / 2 ^ 64))) * 2 ^ 32) by lia.
  apply to_int32_add_mul.
Qed.

Lemma to_int32_to_int64 z : to_int32 (to_int64 z) = to_int32 z.
Proof.
  unfold to_int64, to_signed.
  rewrite Z.mod_eq by lia.
  replace (z + 2 ^ (64 - 1) - 2 ^ 64 * ((z + 2 ^ (64 - 1)) / 2 ^ 64)
           - 2 ^ (64 - 1))
    with (z + (- (2 ^ 32 * ((z + 2 ^ (64 - 1)) / 2 ^ 64))) * 2 ^ 32) by lia.
  apply to_int32_add_mul.
Qed.

Lemma to_int32_size_sub a b :
  to_int32 (size_sub a b) = to_int32 (Z.of_nat a - Z.of_nat b).
Proof. apply to_int32_to_size_t. Qed.

Lemma to_int32_int64_size_sub a b :
  to_int32 (to_int64 (size_sub a b)) = to_int32 (Z.of_nat a - Z.of_nat b).
Proof. rewrite to_int32_to_int64. apply to_int32_size_sub. Qed.

End IntFacts.

(** ** Inversion of computations that return *)

Lemma bind_Some {A B} (m : M A) (f : A → M B) st b st' :
  bind m f st = Some (b, st') ↔
  ∃ a st1, m st = Some (a, st1) ∧ f a st1 = Some (b, st').
Proof.
  unfold bind. split.
  - destruct (m st) as [[a st1]|]; [eauto | discriminate].
  - intros (a & st1 & -> & H). exact H.
Qed.

Lemma gets_Some {A} (f : CodeImpl → A) st a st' :
  gets f st = Some (a, st') ↔ a = f st ∧ st' = st.
Proof. unfold gets. split; [intros [= <- <-] | intros [-> ->]]; done. Qed.

Lemma size_of_Some {A} (f : CodeImpl → list A) st n st' :
  size_of f st = Some (n, st') ↔ n = length (f st) ∧ st' = st.
Proof. exact (gets_Some (λ st, length (f st)) st n st'). Qed.

Lemma modify_Some (f : CodeImpl → CodeImpl) st u st' :
  modify f st = Some (u, st') ↔ st' = f st.
Proof.
  unfold modify. destruct u. split; [intros [= <-] | intros ->]; done.
Qed.

Lemma ret_Some {A} (a : A) st b st' :
  ret a st = Some (b, st') ↔ b = a ∧ st' = st.
Proof. unfold ret. split; [intros [= <- <-] | intros [-> ->]]; done. Qed.

Lemma expect_Some {A} (o : option A) st a st' :
  expect o st = Some (a, st') ↔ o = Some a ∧ st' = st.
Proof.
  destruct o; simpl; unfold ret, throw;
    split; [intros [= <- <-] | intros [[= ->] ->] | | intros [? _]]; done.
Qed.

Lemma assert_Some (b : bool) st u st' :
  assert b st = Some (u, st') ↔ b = true ∧ st' = st.
Proof.
  destruct b, u; simpl; unfold ret, throw;
    split; [intros [= <-] | intros [_ ->] | | intros [? _]]; done.
Qed.

Lemma at_Some (part : option (M unit)) st u st' :
  at_ part st = Some (u, st') ↔ ∃ m, part = Some m ∧ m st = Some (u, st').
Proof.
  destruct part; simpl; split.
  - eauto.
  - by intros (? & [= <-] & ?).
  - discriminate.
  - by intros (? & ? & _).
Qed.

(** Splits a hypothesis [m st = Some _] along the structure of [m]. *)
Ltac inv_M_step :=
  match goal with
  | H : bind _ _ _ = Some _ |- _ =>
      apply bind_Some in H; destruct H as (? & ? & ? & H)
  | H : gets _ _ = Some _ |- _ =>
      apply gets_Some in H; destruct H as [? ?]; subst
  | H : size_of _ _ = Some _ |- _ =>
      apply size_of_Some in H; destruct H as [? ?]; subst
  | H : modify _ _ = Some _ |- _ => apply modify_Some in H; subst
  | H : ret _ _ = Some _ |- _ =>
      apply ret_Some in H; destruct H as [? ?]; subst
  | H : expect _ _ = Some _ |- _ =>
      apply expect_Some in H; destruct H as [? ?]; subst
  | H : assert _ _ = Some _ |- _ =>
      apply assert_Some in H; destruct H as [? ?]; subst
  | H : at_ _ _ = Some _ |- _ =>
      apply at_Some in H; destruct H as (? & ? & H); simplify_eq
  | H : throw _ = Some _ |- _ => discriminate H
  end.

Ltac inv_M := repeat inv_M_step.

(** ** Runs of code *)

Section Extension.

Variable strict : bool.

Lemma is_jump_FAIL_GUARD o : is_jump o = true → o ≠ FAIL_GUARD.
Proof. by intros H ->. Qed.

Lemma jumps_within_mono lo hi lo' hi' code :
lo' ≤ lo → hi ≤ hi' → jumps_within lo hi code → jumps_within lo' hi' code.
Proof.
intros Hlo Hhi H i ins Hi Hj. destruct (H i ins Hi Hj) as (t & Ht & HX).
exists t. split; [lia | done].
Qed.

Lemma jumps_within_nil lo hi : jumps_within lo hi [].
Proof. intros i ins Hi. by rewrite lookup_nil in Hi. Qed.

Lemma jumps_within_app lo hi c1 c2 :
jumps_within lo hi c1 →
jumps_within (lo - Z.of_nat (length c1)) (hi - Z.of_nat (length c1)) c2 →
jumps_within lo hi (c1 ++ c2).
Proof.
intros H1 H2 i ins Hi Hj.
apply lookup_app_Some in Hi as [Hi | [Hle Hi]].
- by apply (H1 i ins).
- destruct (H2 _ ins Hi Hj) as (t & Ht & HX).
  exists (t + Z.of_nat (length c1)). split; [lia |].
  rewrite HX. f_equal. lia.
Qed.

Lemma jumps_within_cons lo hi ins c :
(is_jump (op ins) = true →
 ∃ t, lo ≤ t ≤ hi ∧ X ins = Int.to_int32 t) →
jumps_within (lo - 1) (hi - 1) c →
jumps_within lo hi (ins :: c).
Proof.
intros H1 H2. apply (jumps_within_app lo hi [ins] c); [| done].
intros i ins' Hi Hj. apply list_lookup_singleton_Some in Hi as [-> <-].
destruct (H1 Hj) as (t & Ht & HX). exists t. split; [done |].
rewrite HX. f_equal. lia.
Qed.

Lemma code_ok_nil : code_ok [].
Proof. split; [apply jumps_within_nil | constructor]. Qed.

Lemma code_ok_app c1 c2 : code_ok c1 → code_ok c2 → code_ok (c1 ++ c2).
Proof.
intros [H1 F1] [H2 F2]. split; [| by apply Forall_app].
rewrite length_app, Nat2Z.inj_add. apply jumps_within_app.
- eapply jumps_within_mono; [| | exact H1]; lia.
- eapply jumps_within_mono; [| | exact H2]; lia.
Qed.

Lemma code_ok_singleton ins :
(is_jump (op ins) = true → X ins = 0) → op ins ≠ FAIL_GUARD →
code_ok [ins].
Proof.
intros HX Hop. split; [| by repeat constructor].
apply jumps_within_cons; [| apply jumps_within_nil].
intros Hj. exists 0. split; [simpl; lia |]. by rewrite HX.
Qed.

Lemma blocks_within_nil lo hi : blocks_within lo hi [].
Proof. split; constructor. Qed.

Lemma blocks_within_mono lo hi lo' hi' new :
(lo' ≤ lo)%nat → (hi ≤ hi')%nat →
blocks_within lo hi new → blocks_within lo' hi' new.
Proof.
intros Hlo Hhi [Hin Hnd]. split; [| done].
eapply Forall_impl; [exact Hin |]. simpl. lia.
Qed.

Lemma blocks_within_app lo hi lo1 hi1 lo2 hi2 new1 new2 :
blocks_within lo1 hi1 new1 → blocks_within lo2 hi2 new2 →
(lo ≤ lo1)%nat → (hi1 ≤ lo2)%nat → (lo ≤ lo2)%nat →
(hi1 ≤ hi)%nat → (hi2 ≤ hi)%nat →
blocks_within lo hi (new1 ++ new2).
Proof.
intros [Hin1 Hnd1] [Hin2 Hnd2] ? ? ? ? ?. split.
- apply Forall_app. split.
  + eapply Forall_impl; [exact Hin1 |]. simpl. lia.
  + eapply Forall_impl; [exact Hin2 |]. simpl. lia.
- rewrite fmap_app. apply NoDup_app. split_and!; [done | | done].
  intros j (b1 & -> & Hb1)%list_elem_of_fmap (b2 & Hj & Hb2)%list_elem_of_fmap.
  rewrite Forall_forall in Hin1, Hin2.
  specialize (Hin1 _ Hb1). specialize (Hin2 _ Hb2). simpl in *. lia.
Qed.

Lemma blocks_within_singleton lo hi b :
(lo ≤ jf_instruction_index b < hi)%nat → blocks_within lo hi [b].
Proof.
intros Hb. split; [by apply Forall_singleton | apply NoDup_singleton].
Qed.

Lemma extends_refl st : extends strict st st.
Proof.
split; [exists [] | exists [] | lia]; rewrite app_nil_r.
- split; auto using code_ok_nil.
- split_and!; auto using blocks_within_nil.
Qed.

Lemma extends_trans st1 st2 st3 :
extends strict st1 st2 → extends strict st2 st3 → extends strict st1 st3.
Proof.
intros [(c1 & E1 & O1) (b1 & B1 & K1 & W1) R1]
  [(c2 & E2 & O2) (b2 & B2 & K2 & W2) R2].
split.
- exists (c1 ++ c2). rewrite E2, E1, app_assoc.
  split; [done | by apply code_ok_app].
- exists (b1 ++ b2). rewrite B2, B1, app_assoc.
  split_and!; [done | by apply Forall_app |].
  intros Hs. specialize (W1 Hs). specialize (W2 Hs).
  rewrite E2 in W2 |- *. rewrite E1 in W1, W2 |- *.
  rewrite !length_app in *.
  eapply blocks_within_app; [exact W1 | exact W2 | lia ..].
- lia.
Qed.

(** A step that leaves the three observed members alone. *)
Lemma extends_same st st' :
instructions_ st' = instructions_ st →
bailout_blocks_ st' = bailout_blocks_ st →
register_size_ st' = register_size_ st →
extends strict st st'.
Proof.
intros HI HB HR. split; [exists [] | exists [] | lia];
  rewrite ?HI, ?HB, app_nil_r.
- split; auto using code_ok_nil.
- split_and!; auto using blocks_within_nil.
Qed.

(** A step that appends code and nothing else. *)
Lemma extends_code st st' new :
instructions_ st' = instructions_ st ++ new → code_ok new →
bailout_blocks_ st' = bailout_blocks_ st →
register_size_ st' = register_size_ st →
extends strict st st'.
Proof.
intros HI Hok HB HR. split; [exists new | exists [] | lia]; [done |].
rewrite HB, app_nil_r. split_and!; auto using blocks_within_nil.
Qed.

(** ** Emitters that only extend the state, independently of the lookup
  table of the mobile pre-pass *)

Lemma Ext_ret {A} (a : A) : Ext strict (ret a).
Proof. intros st b st' H. inv_M. apply extends_refl. Qed.

Lemma Ext_throw {A} : Ext strict (@throw A).
Proof. intros st b st' H. inv_M. Qed.

Lemma Ext_gets {A} (f : CodeImpl → A) : Ext strict (gets f).
Proof. intros st b st' H. inv_M. apply extends_refl. Qed.

Lemma Ext_size_of {A} (f : CodeImpl → list A) : Ext strict (size_of f).
Proof. intros st b st' H. inv_M. apply extends_refl. Qed.

Lemma Ext_expect {A} (o : option A) : Ext strict (expect o).
Proof. intros st b st' H. inv_M. apply extends_refl. Qed.

Lemma Ext_assert b : Ext strict (assert b).
Proof. intros st u st' H. inv_M. apply extends_refl. Qed.

Lemma Ext_bind {A B} (m : M A) (f : A → M B) :
Ext strict m → (∀ a, Ext strict (f a)) → Ext strict (bind m f).
Proof.
intros Hm Hf st b st' H. inv_M.
eapply extends_trans; [eapply Hm | eapply Hf]; eauto.
Qed.

Lemma Ext_at part : (∀ m, part = Some m → Ext strict m) → Ext strict (at_ part).
Proof. intros Hp st u st' H. inv_M. eapply Hp; eauto. Qed.

Lemma Ext_modify (f : CodeImpl → CodeImpl) :
(∀ st, extends strict st (f st)) → Ext strict (modify f).
Proof. intros Hf st u st' H. inv_M. apply Hf. Qed.

Lemma Ext_WithCurrentNode {A} n (body : M A) :
Ext strict body → Ext strict (WithCurrentNode n body).
Proof.
intros Hb st a st' H. unfold WithCurrentNode in H.
destruct (body _) as [[a1 st1]|] eqn:E; [| discriminate].
injection H as <- <-. apply Hb in E.
destruct E as [(c & E1 & O1) (b & B1 & K1 & W1) R1].
split; [exists c | exists b |]; simpl in *; auto.
Qed.

Lemma insertInstruction_Some o x n st u st' :
insertInstruction o x n st = Some (u, st') →
instructions_ st' =
  instructions_ st ++
    [mkInstruction o (Int.safe_narrow_cast_int32 x)
       (Int.safe_narrow_cast_uint16 n)]
∧ bailout_blocks_ st' = bailout_blocks_ st
∧ register_size_ st' = register_size_ st
∧ current_node_ st' = current_node_ st
∧ constant_table_ st' = constant_table_ st
∧ value_to_reg_ st' = value_to_reg_ st
∧ use_count_ st' = use_count_ st.
Proof.
unfold insertInstruction. intros H.
destruct (decide (o = OP)).
- cbv zeta in H.
  destruct (match last_inserted_op_ _ with Some _ => _ | None => _ end);
    [| discriminate].
  simplify_eq. repeat split.
- simplify_eq. repeat split.
Qed.

Lemma Ext_insertInstruction o x n :
(is_jump o = true → Int.to_int32 x = 0) → o ≠ FAIL_GUARD →
Ext strict (insertInstruction o x n).
Proof.
intros HX Ho st u st' H.
apply insertInstruction_Some in H as (HI & HB & HR & _).
eapply extends_code; eauto.
apply code_ok_singleton; simpl; auto.
Qed.

Lemma Indep_ret {A} (a : A) : Indep (ret a).
Proof. done. Qed.

Lemma Indep_throw {A} : Indep (@throw A).
Proof. done. Qed.

Lemma Indep_gets {A} (f : CodeImpl → A) :
(∀ st table, f (set_op_to_num_specified_args_ table st) = f st) →
Indep (gets f).
Proof. intros Hf st table. unfold gets. simpl. by rewrite Hf. Qed.

Lemma Indep_size_of {A} (f : CodeImpl → list A) :
(∀ st table, f (set_op_to_num_specified_args_ table st) = f st) →
Indep (size_of f).
Proof. intros Hf. apply Indep_gets. intros. by rewrite Hf. Qed.

Lemma Indep_expect {A} (o : option A) : Indep (expect o).
Proof. by destruct o. Qed.

Lemma Indep_assert b : Indep (assert b).
Proof. by destruct b. Qed.

Lemma Indep_bind {A B} (m : M A) (f : A → M B) :
Indep m → (∀ a, Indep (f a)) → Indep (bind m f).
Proof.
intros Hm Hf st table. unfold bind. rewrite Hm.
destruct (m st) as [[a st1]|]; simpl; [apply Hf | done].
Qed.

Lemma Indep_at part : (∀ m, part = Some m → Indep m) → Indep (at_ part).
Proof. intros Hp. destruct part; simpl; [by apply Hp | done]. Qed.

Lemma Indep_modify (f : CodeImpl → CodeImpl) :
(∀ st table,
   f (set_op_to_num_specified_args_ table st)
   = set_op_to_num_specified_args_ table (f st)) →
Indep (modify f).
Proof. intros Hf st table. unfold modify. simpl. by rewrite Hf. Qed.

Lemma Indep_WithCurrentNode {A} n (body : M A) :
Indep body → Indep (WithCurrentNode n body).
Proof.
intros Hb st table. unfold WithCurrentNode.
change (set_current_node_ n (set_op_to_num_specified_args_ table st))
  with (set_op_to_num_specified_args_ table (set_current_node_ n st)).
rewrite Hb. by destruct (body _) as [[a1 st1]|].
Qed.

Lemma Indep_insertInstruction o x n : Indep (insertInstruction o x n).
Proof.
intros st table. unfold insertInstruction. simpl.
destruct (decide (o = OP)); [| done].
by destruct (match last_inserted_op_ st with Some _ => _ | None => _ end).
Qed.

Lemma Good_Ext {A} (m : M A) : Good strict m → Ext strict m.
Proof. by intros [? _]. Qed.

Lemma Good_Indep {A} (m : M A) : Good strict m → Indep m.
Proof. by intros [_ ?]. Qed.

End Extension.

Lemma Indep_patch_X i x : Indep (patch_X i x).
Proof.
  unfold patch_X. apply Indep_bind; [by apply Indep_gets |].
  intros o. apply Indep_bind; [apply Indep_expect |].
  intros ins. by apply Indep_modify.
Qed.

(** Decomposes a goal [Ext m] or [Indep m] along the structure of [m]. *)
Ltac compo_step :=
  first
    [ assumption
    | match goal with
      | H : ∀ _, Ext _ _ |- Ext _ _ => apply H
      | H : ∀ _, Indep _ |- Indep _ => apply H
      end
    | apply Good_Ext; solve [auto] | eapply Good_Indep; solve [eauto]
    | apply Ext_ret | apply Indep_ret
    | apply Ext_throw | apply Indep_throw
    | apply Ext_expect | apply Indep_expect
    | apply Ext_assert | apply Indep_assert
    | apply Ext_gets | apply Ext_size_of
    | apply Indep_gets; intros; reflexivity
    | apply Indep_size_of; intros; reflexivity
    | apply Indep_modify; intros; reflexivity
    | apply Ext_modify; intros; apply extends_same; reflexivity
    | apply Indep_insertInstruction
    | apply Indep_patch_X
    | apply Ext_insertInstruction; [done | done]
    | apply Ext_WithCurrentNode | apply Indep_WithCurrentNode
    | apply Ext_bind; [| intros ?] | apply Indep_bind; [| intros ?]
    | apply Ext_at; intros ? [= <-] | apply Indep_at; intros ? [= <-]
    | progress cbv zeta
    | match goal with
      | |- Ext _ (if ?b then _ else _) => destruct b
      | |- Indep (if ?b then _ else _) => destruct b
      | |- Ext _ (match ?x with _ => _ end) => destruct x
      | |- Indep (match ?x with _ => _ end) => destruct x
      | |- Ext _ (insertInstruction (if ?b then _ else _) _ _) => destruct b
      end ].

Ltac compo := repeat compo_step.

(** Proves [Good] of a compositional rule: its definition is unfolded
    before the tactic is called. *)
Ltac good := split; compo.

Ltac len_norm :=
  repeat (progress (rewrite ?length_app; cbn [length])).

(** Brings concatenations into right-nested form. *)
Ltac list_norm :=
  repeat (progress (rewrite <- ?app_assoc; cbn [app])).

Section Lowering.

Variable strict : bool.

Lemma Good_ret {A} (a : A) : Good strict (ret a).
Proof. good. Qed.

Lemma Good_bind {A B} (m : M A) (f : A → M B) :
Good strict m → (∀ a, Good strict (f a)) → Good strict (bind m f).
Proof. intros Hm Hf. good. Qed.

Lemma Good_WithCurrentNode {A} n (body : M A) :
Good strict body → Good strict (WithCurrentNode n body).
Proof. intros Hb. good. Qed.

(** *** Primitives *)

Lemma Good_allocRegs_loop vs : Good strict (allocRegs_loop vs).
Proof.
induction vs as [| v vs IH]; simpl; [apply Good_ret |].
destruct IH as [IHe IHi]. split; compo.
apply Ext_modify. intros st. split; simpl.
- exists []. rewrite app_nil_r. split; [done | apply code_ok_nil].
- exists []. rewrite app_nil_r.
  split_and!; [done | constructor | intros _; apply blocks_within_nil].
- lia.
Qed.

Lemma Good_allocRegs vs : Good strict (allocRegs vs).
Proof. unfold allocRegs. pose proof (Good_allocRegs_loop vs). good. Qed.

Lemma Good_registerFor v : Good strict (registerFor v).
Proof. unfold registerFor. good. Qed.

Lemma Good_emitStoreOutputs node : Good strict (emitStoreOutputs node).
Proof.
unfold emitStoreOutputs.
pose proof (Good_allocRegs (out_unique <$> outputs node)). good.
Qed.

Lemma Good_insertConstant v : Good strict (insertConstant v).
Proof. unfold insertConstant. good. Qed.

Lemma Good_output node : Good strict (output node).
Proof. unfold output. good. Qed.

Lemma Good_emitConstant node : Good strict (emitConstant node).
Proof.
unfold emitConstant.
pose proof (Good_output node). pose proof Good_insertConstant. good.
Qed.

Lemma Good_emitType t : Good strict (emitType t).
Proof. unfold emitType. good. Qed.

Lemma Good_emitTypes_upto types num : ∀ i, Good strict (emitTypes_upto types i num).
Proof.
induction num as [| num IH]; intros i; simpl; [apply Good_ret |].
pose proof Good_emitType. specialize (IH (S i)). good.
Qed.

Lemma Good_emitTypes types : Good strict (emitTypes types).
Proof.
induction types as [| t types IH]; simpl; [apply Good_ret |].
pose proof Good_emitType. good.
Qed.

Lemma Good_getAttributeSlot t field : Good strict (getAttributeSlot t field).
Proof. unfold getAttributeSlot. good. Qed.

Lemma Good_getMethod methods method : Good strict (getMethod methods method).
Proof. unfold getMethod. good. Qed.

(** *** Lowering rules that are compositions of the primitives *)

Section Rules.

Variable can_emit_inline : NodeId → bool.
Variable FLAGS_torch_jit_disable_warning_prints : bool.

Lemma Good_emitUse_body emitNode_input input drop :
  Good strict emitNode_input →
  Good strict (emitUse_body can_emit_inline emitNode_input input drop).
Proof.
  intros Hn. unfold emitUse_body. pose proof Good_registerFor. good.
Qed.

Lemma Good_CodeImpl_emitOperator loads num_inputs node :
  Good strict loads → Good strict (CodeImpl_emitOperator loads num_inputs node).
Proof. intros Hl. unfold CodeImpl_emitOperator. good. Qed.

Lemma Good_emitOperator this loads num_inputs node :
  Good strict loads → Good strict (emitOperator this loads num_inputs node).
Proof.
  intros Hl. destruct this; simpl; [| unfold MobileCodeImpl_emitOperator];
    by apply Good_CodeImpl_emitOperator.
Qed.

Lemma Good_emitWait loads : Good strict loads → Good strict (emitWait loads).
Proof. intros Hl. unfold emitWait. good. Qed.

Lemma Good_emitCall func loads : Good strict loads → Good strict (emitCall func loads).
Proof. intros Hl. unfold emitCall. good. Qed.

Lemma Good_emitNodeAtBlockLevel node loads emitNode_node :
  Good strict loads → Good strict emitNode_node →
  Good strict (emitNodeAtBlockLevel can_emit_inline node loads emitNode_node).
Proof.
  intros Hl Hn. unfold emitNodeAtBlockLevel.
  pose proof (Good_emitConstant node).
  pose proof (Good_emitStoreOutputs node). good.
Qed.

Lemma Good_emitTypeCheck loads num_inputs node :
  Good strict loads → Good strict (emitTypeCheck loads num_inputs node).
Proof.
  intros Hl. unfold emitTypeCheck.
  pose proof Good_emitTypes_upto. good.
Qed.

Lemma Good_emitGuard load_guarded node :
  (∀ m, load_guarded = Some m → Good strict m) →
  Good strict (emitGuard load_guarded node).
Proof.
  intros Hl. unfold emitGuard. pose proof Good_emitType.
  destruct load_guarded as [m|]; [specialize (Hl m eq_refl) |]; good.
Qed.

Lemma Good_emitProfile loads node : Good strict loads → Good strict (emitProfile loads node).
Proof. intros Hl. unfold emitProfile. good. Qed.

Lemma Good_emitGetAttr loads input_type node :
  Good strict loads → Good strict (emitGetAttr loads input_type node).
Proof.
  intros Hl. unfold emitGetAttr. pose proof Good_getAttributeSlot. good.
Qed.

Lemma Good_emitSetAttr loads input_type node :
  Good strict loads → Good strict (emitSetAttr loads input_type node).
Proof.
  intros Hl. unfold emitSetAttr. pose proof Good_getAttributeSlot. good.
Qed.

Lemma Good_emitInterfaceCall name loads num_inputs :
  Good strict loads → Good strict (emitInterfaceCall name loads num_inputs).
Proof.
  intros Hl. unfold emitInterfaceCall. pose proof Good_insertConstant. good.
Qed.

Lemma Good_emitListUnpack loads node :
  Good strict loads → Good strict (emitListUnpack loads node).
Proof. intros Hl. unfold emitListUnpack. good. Qed.

Lemma Good_emitContainerConstruct op loads num_inputs node :
  is_jump op = false → op ≠ FAIL_GUARD →
  Good strict loads → Good strict (emitContainerConstruct op loads num_inputs node).
Proof.
  intros Hj Hf Hl. unfold emitContainerConstruct.
  pose proof (Good_output node). pose proof Good_emitType. good.
  apply Ext_insertInstruction; [by rewrite Hj | done].
Qed.

Lemma Good_emitTupleConstruct loads num_inputs node :
  Good strict loads → Good strict (emitTupleConstruct loads num_inputs node).
Proof.
  intros Hl. unfold emitTupleConstruct.
  pose proof (Good_output node).
  pose proof (Good_emitContainerConstruct NAMED_TUPLE_CONSTRUCT loads
                num_inputs node eq_refl ltac:(done) Hl).
  good.
Qed.

Lemma Good_emitCreateObject node : Good strict (emitCreateObject node).
Proof.
  unfold emitCreateObject.
  pose proof (Good_output node). pose proof Good_emitType. good.
Qed.

Lemma Good_emitIsinstance loads node :
  Good strict loads → Good strict (emitIsinstance loads node).
Proof.
  intros Hl. unfold emitIsinstance. pose proof Good_emitTypes. good.
Qed.

Lemma Good_emitTupleSlice loads node :
  Good strict loads → Good strict (emitTupleSlice loads node).
Proof. intros Hl. unfold emitTupleSlice. good. Qed.

Lemma Good_emitFork loads num_inputs node :
  Good strict loads → Good strict (emitFork loads num_inputs node).
Proof. intros Hl. unfold emitFork. good. Qed.

Lemma Good_emitWarn loads node :
  Good strict loads →
  Good strict (emitWarn FLAGS_torch_jit_disable_warning_prints loads node).
Proof. intros Hl. unfold emitWarn. good. Qed.

Lemma Good_emitEnter loads : Good strict loads → Good strict (emitEnter loads).
Proof. intros Hl. unfold emitEnter. good. Qed.

Lemma Good_emitExit : Good strict emitExit.
Proof. unfold emitExit. good. Qed.

End Rules.

(** *** Backpatching *)


Lemma insert_middle {A} (l1 l2 : list A) x y :
<[length l1 := y]> (l1 ++ x :: l2) = l1 ++ y :: l2.
Proof.
rewrite insert_app_r_alt by lia. by rewrite Nat.sub_diag.
Qed.

Lemma lookup_middle {A} (l1 l2 : list A) x :
(l1 ++ x :: l2) !! length l1 = Some x.
Proof. by apply list_lookup_middle. Qed.

Lemma patch_X_Some i x st u st' :
patch_X i x st = Some (u, st') →
∃ ins,
  instructions_ st !! i = Some ins
  ∧ st' = set_instructions_
            (<[i := set_X (Int.to_int32 x) ins]> (instructions_ st)) st.
Proof. unfold patch_X. intros H. inv_M. eauto. Qed.

(** Patching the instruction that follows [l1]. *)
Lemma patch_X_middle l1 ins l2 x st u st' :
instructions_ st = l1 ++ ins :: l2 →
patch_X (length l1) x st = Some (u, st') →
instructions_ st' = l1 ++ set_X (Int.to_int32 x) ins :: l2
∧ bailout_blocks_ st' = bailout_blocks_ st
∧ register_size_ st' = register_size_ st.
Proof.
intros HI H. apply patch_X_Some in H as (ins' & Hl & ->). simpl.
rewrite HI in Hl |- *. rewrite lookup_middle in Hl.
injection Hl as <-. by rewrite insert_middle.
Qed.

Lemma Ext_code st st' :
extends strict st st' →
∃ new, instructions_ st' = instructions_ st ++ new ∧ code_ok new.
Proof. by intros [? _ _]. Qed.

(** *** Stepping through a computation *)

Lemma post_bind {A B} (m : M A) (f : A → M B) st Q :
post m st (λ a s, post (f a) s Q) → post (bind m f) st Q.
Proof. intros H b st' Hb. inv_M. eapply H; eauto. Qed.

Lemma post_run {A} (m : M A) st (Q : A → CodeImpl → Prop) :
(∀ a st', m st = Some (a, st') → Q a st') → post m st Q.
Proof. done. Qed.

Lemma post_ret {A} (a : A) st (Q : A → CodeImpl → Prop) :
Q a st → post (ret a) st Q.
Proof. intros H b st' Hb. by inv_M. Qed.

Lemma post_gets {A} (f : CodeImpl → A) st (Q : A → CodeImpl → Prop) :
Q (f st) st → post (gets f) st Q.
Proof. intros H b st' Hb. by inv_M. Qed.

Lemma post_size_of {A} (f : CodeImpl → list A) st
  (Q : nat → CodeImpl → Prop) :
Q (length (f st)) st → post (size_of f) st Q.
Proof. intros H b st' Hb. by inv_M. Qed.

Lemma post_modify f st (Q : unit → CodeImpl → Prop) :
Q tt (f st) → post (modify f) st Q.
Proof. intros H [] st' Hb. by inv_M. Qed.

Lemma post_expect {A} (o : option A) st (Q : A → CodeImpl → Prop) :
(∀ a, o = Some a → Q a st) → post (expect o) st Q.
Proof. intros H b st' Hb. inv_M. by apply H. Qed.

Lemma post_assert b st (Q : unit → CodeImpl → Prop) :
(b = true → Q tt st) → post (assert b) st Q.
Proof. intros H [] st' Hb. inv_M. by apply H. Qed.

Lemma post_at m st (Q : unit → CodeImpl → Prop) :
post m st Q → post (at_ (Some m)) st Q.
Proof. done. Qed.

Lemma post_insertInstruction o x n st (Q : unit → CodeImpl → Prop) :
(∀ st',
   insertInstruction o x n st = Some (tt, st') →
   instructions_ st' =
     instructions_ st ++
       [mkInstruction o (Int.to_int32 x) (Int.to_uint16 n)] →
   bailout_blocks_ st' = bailout_blocks_ st →
   register_size_ st' = register_size_ st →
   Q tt st') →
post (insertInstruction o x n) st Q.
Proof.
intros H [] st' Hb.
pose proof (insertInstruction_Some _ _ _ _ _ _ Hb) as (? & ? & ? & _).
by apply H.
Qed.

Lemma post_patch_X l1 ins l2 i x st (Q : unit → CodeImpl → Prop) :
instructions_ st = l1 ++ ins :: l2 → i = length l1 →
(∀ st',
   instructions_ st' = l1 ++ set_X (Int.to_int32 x) ins :: l2 →
   bailout_blocks_ st' = bailout_blocks_ st →
   register_size_ st' = register_size_ st →
   Q tt st') →
post (patch_X i x) st Q.
Proof.
intros HI -> H [] st' Hb.
destruct (patch_X_middle _ _ _ _ _ _ _ HI Hb) as (? & ? & ?). by apply H.
Qed.

(** *** [emitIf] *)

Lemma emitIf_post loads m0 m1 st :
Ext strict loads → Ext strict m0 → Ext strict m1 →
post (emitIf loads (Some m0) (Some m1)) st (λ _ st',
  ∃ s1 s2 s3 s5 s6 L T F,
    loads st = Some (tt, s1)
    ∧ instructions_ s1 = instructions_ st ++ L
    ∧ instructions_ s2 = instructions_ s1 ++ [mkInstruction JF 0 0]
    ∧ m0 s2 = Some (tt, s3)
    ∧ instructions_ s3 = instructions_ s2 ++ T
    ∧ instructions_ s5 =
        instructions_ st ++ L
          ++ [mkInstruction JF (Int.to_int32 (Z.of_nat (length T) + 2)) 0]
          ++ T ++ [mkInstruction JMP 0 0]
    ∧ m1 s5 = Some (tt, s6)
    ∧ instructions_ s6 = instructions_ s5 ++ F
    ∧ instructions_ st' =
        instructions_ st ++ L
          ++ [mkInstruction JF (Int.to_int32 (Z.of_nat (length T) + 2)) 0]
          ++ T
          ++ [mkInstruction JMP (Int.to_int32 (Z.of_nat (length F) + 1)) 0]
          ++ F
    ∧ code_ok L ∧ code_ok T ∧ code_ok F
    ∧ (∃ new, bailout_blocks_ st' = bailout_blocks_ st ++ new
              ∧ Forall block_ok new
              ∧ (strict = true →
                 blocks_within (length (instructions_ st))
                   (length (instructions_ st')) new))
    ∧ register_size_ st ≤ register_size_ st').
Proof.
intros Hl H0 H1. unfold emitIf.
apply post_bind, post_run. intros [] s1 R1.
destruct (Hl _ _ _ R1) as [(L & EL & OL) (bL & BL & KL & WL) RL].
apply post_bind, post_size_of.
apply post_bind, post_insertInstruction. intros s2 _ I2 B2 G2.
apply post_bind, post_at, post_run. intros [] s3 R3.
destruct (H0 _ _ _ R3) as [(T & ET & OT) (bT & BT & KT & WT) RT].
apply post_bind, post_insertInstruction. intros s4 _ I4 B4 G4.
apply post_bind, post_size_of.
assert (E4 : instructions_ s4 =
             (instructions_ st ++ L)
               ++ mkInstruction JF 0 0 :: (T ++ [mkInstruction JMP 0 0])).
{ rewrite I4, ET, I2, EL. by list_norm. }
apply post_bind, (post_patch_X _ _ _ _ _ _ _ E4); [by rewrite EL |].
intros s5 I5 B5 G5.
apply post_bind, post_at, post_run. intros [] s6 R6.
destruct (H1 _ _ _ R6) as [(F & EF & OF) (bF & BF & KF & WF) RF].
apply post_bind, post_size_of.
assert (XJF : Int.to_int32 (Int.size_sub (length (instructions_ s4))
                              (length (instructions_ s1)))
              = Int.to_int32 (Z.of_nat (length T) + 2)).
{ rewrite IntFacts.to_int32_size_sub. f_equal.
  rewrite E4, EL, !length_app. simpl. rewrite length_app. simpl. lia. }
rewrite XJF in I5. unfold set_X in I5. simpl in I5.
assert (E6 : instructions_ s6 =
             (instructions_ st ++ L
                ++ mkInstruction JF
                     (Int.to_int32 (Z.of_nat (length T) + 2)) 0 :: T)
               ++ mkInstruction JMP 0 0 :: F).
{ rewrite EF, I5. by list_norm. }
apply (post_patch_X _ _ _ _ _ _ _ E6).
{ rewrite E4, !length_app. simpl. rewrite !length_app. simpl. lia. }
intros st' I7 B7 G7.
assert (XJMP : Int.to_int32 (Int.size_sub (length (instructions_ s6))
                               (length (instructions_ s4) - 1))
               = Int.to_int32 (Z.of_nat (length F) + 1)).
{ rewrite IntFacts.to_int32_size_sub. f_equal.
  rewrite E6, E4, !length_app. simpl. rewrite !length_app. simpl. lia. }
rewrite XJMP in I7. unfold set_X in I7. simpl in I7.
exists s1, s2, s3, s5, s6, L, T, F.
split_and!; try done.
- rewrite I5. by list_norm.
- rewrite I7. by list_norm.
- exists (bL ++ bT ++ bF). split_and!; [| by rewrite !Forall_app |].
  + rewrite B7, BF, B5, B4, BT, B2, BL. by rewrite <- !app_assoc.
  + intros Hs. specialize (WL Hs). specialize (WT Hs). specialize (WF Hs).
    rewrite I7. rewrite EF, I5 in WF. rewrite ET, I2, EL in WT.
    rewrite EL in WL. revert WL WT WF. len_norm. intros WL WT WF.
    assert (WTF : blocks_within
                    (length (instructions_ st) + length L + 1)
                    (length (instructions_ st) + length L + length T
                     + length F + 2)
                    (bT ++ bF))
      by (eapply blocks_within_app; [exact WT | exact WF | lia ..]).
    eapply blocks_within_app; [exact WL | exact WTF | lia ..].
- lia.
Qed.

Lemma emitIf_throws loads block0 block1 st :
block0 = None ∨ block1 = None → emitIf loads block0 block1 st = None.
Proof.
intros Hb. destruct (emitIf _ _ _ st) as [[u st']|] eqn:H; [| done].
unfold emitIf in H. inv_M. by destruct Hb.
Qed.

Lemma Good_emitIf loads block0 block1 :
Good strict loads →
(∀ m, block0 = Some m → Good strict m) → (∀ m, block1 = Some m → Good strict m) →
Good strict (emitIf loads block0 block1).
Proof.
intros Hl H0 H1. split.
- intros st u st' H.
  destruct block0 as [m0|]; [| by rewrite emitIf_throws in H; auto].
  destruct block1 as [m1|]; [| by rewrite emitIf_throws in H; auto].
  destruct (H0 _ eq_refl) as [E0 _], (H1 _ eq_refl) as [E1 _].
  destruct Hl as [El _].
  destruct (emitIf_post loads m0 m1 st El E0 E1 _ _ H)
    as (s1 & s2 & s3 & s5 & s6 & L & T & F & _ & _ & _ & _ & _ & _ & _ & _
        & HI & [JL FL] & [JT FT] & [JF_ FF] & HB & HR).
  split; [| done | done].
  eexists. split; [exact HI |]. split.
  + len_norm.
    apply jumps_within_app; [eapply jumps_within_mono; [| | exact JL]; lia |].
    apply jumps_within_cons.
    { intros _. exists (Z.of_nat (length T) + 2). split; [lia | done]. }
    apply jumps_within_app; [eapply jumps_within_mono; [| | exact JT]; lia |].
    apply jumps_within_cons.
    { intros _. exists (Z.of_nat (length F) + 1). split; [lia | done]. }
    eapply jumps_within_mono; [| | exact JF_]; lia.
  + rewrite !Forall_app, !Forall_singleton. by split_and!.
- destruct Hl as [_ Il]. unfold emitIf.
  destruct block0 as [m0|]; [destruct (H0 _ eq_refl) |];
    (destruct block1 as [m1|]; [destruct (H1 _ eq_refl) |]); compo.
Qed.

(** *** [emitLoop] *)

Lemma post_insertConstant v st (Q : Z → CodeImpl → Prop) :
(∀ st',
   instructions_ st' = instructions_ st →
   bailout_blocks_ st' = bailout_blocks_ st →
   register_size_ st' = register_size_ st →
   constant_table_ st' = constant_table_ st ++ [v] →
   value_to_reg_ st' = value_to_reg_ st →
   Q (Int.to_int32 (Z.of_nat (length (constant_table_ st)))) st') →
post (insertConstant v) st Q.
Proof.
intros H. unfold insertConstant.
apply post_bind, post_size_of. apply post_bind, post_modify, post_ret.
by apply H.
Qed.

Lemma emitLoop_post loads num_inputs m0 st :
Ext strict loads → Ext strict m0 →
post (emitLoop loads num_inputs (Some m0)) st (λ _ st',
  ∃ s0 s1 s2 s3 c L Body,
    c = Int.to_int32
          (Int.to_int32 (Z.of_nat (length (constant_table_ st))))
    ∧ constant_table_ s0 = constant_table_ st ++ [IV_Int 0]
    ∧ instructions_ s0 = instructions_ st ++ [mkInstruction LOADC c 0]
    ∧ loads s0 = Some (tt, s1)
    ∧ instructions_ s1 = instructions_ s0 ++ L
    ∧ instructions_ s2 =
        instructions_ s1
          ++ [mkInstruction LOOP 0 (Int.to_uint16 (N_of_size num_inputs))]
    ∧ m0 s2 = Some (tt, s3)
    ∧ instructions_ s3 = instructions_ s2 ++ Body
    ∧ instructions_ st' =
        instructions_ st ++ [mkInstruction LOADC c 0] ++ L
          ++ [mkInstruction LOOP
                (Int.to_int32 (Z.of_nat (length Body) + 2))
                (Int.to_uint16 (N_of_size num_inputs))]
          ++ Body
          ++ [mkInstruction JMP
                (Int.to_int32 (- (Z.of_nat (length Body) + 1))) 0]
    ∧ code_ok L ∧ code_ok Body
    ∧ (∃ new, bailout_blocks_ st' = bailout_blocks_ st ++ new
              ∧ Forall block_ok new
              ∧ (strict = true →
                 blocks_within (length (instructions_ st))
                   (length (instructions_ st')) new))
    ∧ register_size_ st ≤ register_size_ st').
Proof.
intros Hl H0. unfold emitLoop.
apply post_bind, post_insertConstant. intros sc Ic Bc Gc Cc _.
apply post_bind, post_insertInstruction. intros s0 R0 I0 B0 G0.
apply insertInstruction_Some in R0 as (_ & _ & _ & _ & C0 & _).
apply post_bind, post_run. intros [] s1 R1.
destruct (Hl _ _ _ R1) as [(L & EL & OL) (bL & BL & KL & WL) RL].
apply post_bind, post_size_of.
apply post_bind, post_insertInstruction. intros s2 _ I2 B2 G2.
apply post_bind, post_at, post_run. intros [] s3 R3.
destruct (H0 _ _ _ R3) as [(Body & EB & OB) (bB & BB & KB & WB) RB].
apply post_bind, post_size_of.
apply post_bind, post_insertInstruction. intros s4 _ I4 B4 G4.
apply post_bind, post_size_of.
set (c := Int.to_int32
            (Int.to_int32 (Z.of_nat (length (constant_table_ st))))) in *.
set (n := Int.to_uint16 (N_of_size num_inputs)) in *.
assert (XJMP : Int.to_int32
                 (Int.to_int64
                    (Int.size_sub (length (instructions_ s1))
                       (length (instructions_ s3))))
               = Int.to_int32 (- (Z.of_nat (length Body) + 1))).
{ rewrite IntFacts.to_int32_int64_size_sub. f_equal.
  rewrite EB, I2, !length_app. simpl. lia. }
rewrite XJMP in I4.
assert (E4 : instructions_ s4 =
             (instructions_ st ++ mkInstruction LOADC c 0 :: L)
               ++ mkInstruction LOOP (Int.to_int32 0) n
               :: (Body ++ [mkInstruction JMP
                              (Int.to_int32
                                 (- (Z.of_nat (length Body) + 1)))
                              (Int.to_uint16 0)])).
{ rewrite I4, EB, I2, EL, I0, Ic. by list_norm. }
apply (post_patch_X _ _ _ _ _ _ _ E4).
{ rewrite EL, I0, Ic, !length_app. simpl. lia. }
intros st' I7 B7 G7.
assert (XLOOP : Int.to_int32 (Int.size_sub (length (instructions_ s4))
                                (length (instructions_ s1)))
                = Int.to_int32 (Z.of_nat (length Body) + 2)).
{ rewrite IntFacts.to_int32_size_sub. f_equal.
  rewrite I4, EB, I2, !length_app. simpl. lia. }
rewrite XLOOP in I7. unfold set_X in I7. simpl in I7.
exists s0, s1, s2, s3, c, L, Body.
split_and!; try done.
- by rewrite C0, Cc.
- by rewrite I0, Ic.
- rewrite I7. by list_norm.
- exists (bL ++ bB). split_and!; [| by rewrite !Forall_app |].
  + rewrite B7, B4, BB, B2, BL, B0, Bc. by list_norm.
  + intros Hs. specialize (WL Hs). specialize (WB Hs).
    rewrite I7. rewrite EB, I2, EL, I0, Ic in WB. rewrite EL, I0, Ic in WL.
    revert WL WB. len_norm. intros WL WB.
    eapply blocks_within_app; [exact WL | exact WB | lia ..].
- lia.
Qed.

Lemma emitLoop_throws loads num_inputs st :
emitLoop loads num_inputs None st = None.
Proof.
destruct (emitLoop _ _ _ st) as [[u st']|] eqn:H; [| done].
unfold emitLoop in H. inv_M.
Qed.

Lemma Good_emitLoop loads num_inputs block0 :
Good strict loads → (∀ m, block0 = Some m → Good strict m) →
Good strict (emitLoop loads num_inputs block0).
Proof.
intros Hl H0. split.
- intros st u st' H.
  destruct block0 as [m0|]; [| by rewrite emitLoop_throws in H].
  destruct (H0 _ eq_refl) as [E0 _]. destruct Hl as [El _].
  destruct (emitLoop_post loads num_inputs m0 st El E0 _ _ H)
    as (s0 & s1 & s2 & s3 & c & L & Body & _ & _ & _ & _ & _ & _ & _ & _
        & HI & [JL FL] & [JB FB] & HB & HR).
  split; [| done | done].
  eexists. split; [exact HI |]. split.
  + len_norm.
    apply jumps_within_cons; [done |].
    apply jumps_within_app; [eapply jumps_within_mono; [| | exact JL]; lia |].
    apply jumps_within_cons.
    { intros _. exists (Z.of_nat (length Body) + 2). split; [lia | done]. }
    apply jumps_within_app; [eapply jumps_within_mono; [| | exact JB]; lia |].
    apply jumps_within_cons; [| apply jumps_within_nil].
    intros _. exists (- (Z.of_nat (length Body) + 1)). split; [lia | done].
  + rewrite !Forall_app, !Forall_singleton. by split_and!.
- destruct Hl as [_ Il]. unfold emitLoop. pose proof Good_insertConstant.
  destruct block0 as [m0|]; [destruct (H0 _ eq_refl) |]; compo.
Qed.

(** *** [emitBailOut] *)

Lemma post_createBailoutBlock l1 l2 jf_index st
  (Q : unit → CodeImpl → Prop) :
instructions_ st = l1 ++ l2 → (jf_index + 1)%nat = length l1 →
(∀ st',
   instructions_ st' = l1 →
   bailout_blocks_ st' =
     bailout_blocks_ st ++ [mkBailoutBlock jf_index l2] →
   register_size_ st' = register_size_ st →
   Q tt st') →
post (createBailoutBlock jf_index) st Q.
Proof.
intros HI Hjf H. unfold createBailoutBlock, truncateInstructions.
apply post_bind, post_size_of. apply post_bind, post_assert. intros _.
apply post_bind, post_modify. apply post_modify. apply H; simpl.
- rewrite HI, Hjf, length_app.
  replace (length l1 + length l2 - (length l1 + length l2 - length l1))%nat
    with (length l1) by lia.
  by rewrite take_app_length.
- by rewrite HI, Hjf, drop_app_length.
- done.
Qed.

Lemma Indep_createBailoutBlock jf_index : Indep (createBailoutBlock jf_index).
Proof. unfold createBailoutBlock, truncateInstructions. compo. Qed.

Lemma post_emitType t st (Q : nat → CodeImpl → Prop) :
(∀ st',
   instructions_ st' = instructions_ st →
   bailout_blocks_ st' = bailout_blocks_ st →
   register_size_ st' = register_size_ st →
   Q (length (type_table_ st)) st') →
post (emitType t) st Q.
Proof.
intros H. unfold emitType.
apply post_bind, post_size_of. apply post_bind, post_modify, post_ret.
by apply H.
Qed.

Lemma emitBailOut_post mg subgraph mr node st :
Ext strict mg → Ext strict mr → (strict = true → NoBlocks mr) →
post (emitBailOut (Some mg) subgraph (Some mr) node) st (λ _ st',
  ∃ s1 s2 s3 Lg R guard tail_call bg br,
    mg st = Some (tt, s1)
    ∧ instructions_ s1 = instructions_ st ++ Lg
    ∧ instructions_ s2 =
        instructions_ s1 ++ [guard; mkInstruction JF 0 0]
    ∧ op guard = GUARD
    ∧ mr s2 = Some (tt, s3)
    ∧ instructions_ s3 = instructions_ s2 ++ R
    ∧ op tail_call = TAIL_CALL
    ∧ instructions_ st' =
        instructions_ st ++ Lg ++ [guard; mkInstruction JF 0 0]
    ∧ bailout_blocks_ s1 = bailout_blocks_ st ++ bg
    ∧ bailout_blocks_ s3 = bailout_blocks_ s1 ++ br
    ∧ bailout_blocks_ st' =
        bailout_blocks_ st ++ bg ++ br
          ++ [mkBailoutBlock
                (length (instructions_ st) + length Lg + 1)
                (R ++ [tail_call])]
    ∧ code_ok Lg ∧ code_ok R
    ∧ Forall block_ok bg ∧ Forall block_ok br
    ∧ (strict = true →
       br = []
       ∧ blocks_within (length (instructions_ st))
           (length (instructions_ st) + length Lg)%nat bg)
    ∧ register_size_ st ≤ register_size_ st').
Proof.
intros Hg Hr Hnb. unfold emitBailOut, emitGuard.
apply post_bind, post_bind, post_at, post_run. intros [] s1 R1.
destruct (Hg _ _ _ R1) as [(Lg & EL & OL) (bg & BL & KL & WL) RL].
apply post_bind, post_expect. intros o _.
apply post_bind, post_emitType. intros st1 It Bt Gt.
apply post_bind, post_insertInstruction. intros st2 _ Ig Bg Gg.
apply post_bind, post_insertInstruction. intros s2 _ I2 B2 G2.
apply post_bind, post_size_of. apply post_ret.
apply post_bind, post_expect. intros unoptimized_graph _.
apply post_bind, post_at, post_run. intros [] s3 R3.
destruct (Hr _ _ _ R3) as [(R & ER & OR) (br & BR & KR & WR) RR].
apply post_bind, post_size_of.
apply post_bind, post_insertInstruction. intros s4 _ I4 B4 G4.
apply post_bind, post_assert. intros _.
apply post_bind, post_expect. intros bailout_index _.
apply post_bind, post_assert. intros _.
apply post_bind, post_modify. apply post_bind, post_modify.
set (guard := mkInstruction GUARD _ _) in *.
set (tail_call := mkInstruction TAIL_CALL _ _) in *.
assert (E2 : instructions_ s2 =
             instructions_ st ++ Lg ++ [guard; mkInstruction JF 0 0]).
{ rewrite I2, Ig, It, EL. by list_norm. }
eapply (post_createBailoutBlock
          (instructions_ st ++ Lg ++ [guard; mkInstruction JF 0 0])
          (R ++ [tail_call])).
{ simpl. rewrite I4, ER, E2. by list_norm. }
{ rewrite E2. len_norm. lia. }
simpl. intros st' I' B' G'.
exists s1, s2, s3, Lg, R, guard, tail_call, bg, br.
split_and!; try done.
- rewrite I2, Ig, It. by list_norm.
- by rewrite BR, B2, Bg, Bt.
- rewrite B', B4, BR, B2, Bg, Bt, BL. list_norm. repeat f_equal.
  rewrite I2, Ig, It, EL. len_norm. lia.
- intros Hs. split.
  + specialize (Hnb Hs _ _ _ R3). rewrite BR in Hnb.
    by apply (app_inv_head (bailout_blocks_ s2)); rewrite app_nil_r.
  + specialize (WL Hs). rewrite EL, length_app in WL. exact WL.
- lia.
Qed.

Lemma emitBailOut_throws load_guarded subgraph load_rest node st :
load_guarded = None ∨ load_rest = None →
emitBailOut load_guarded subgraph load_rest node st = None.
Proof.
intros Hb. destruct (emitBailOut _ _ _ _ st) as [[u st']|] eqn:H; [| done].
unfold emitBailOut, emitGuard in H. inv_M. by destruct Hb.
Qed.

Lemma Good_emitBailOut load_guarded subgraph load_rest node :
(∀ m, load_guarded = Some m → Good strict m) →
(∀ m, load_rest = Some m → Good strict m) →
(∀ m, load_rest = Some m → strict = true → NoBlocks m) →
Good strict (emitBailOut load_guarded subgraph load_rest node).
Proof.
intros Hg Hr Hnb. split.
- intros st u st' H.
  destruct load_guarded as [mg|]; [| by rewrite emitBailOut_throws in H; auto].
  destruct load_rest as [mr|]; [| by rewrite emitBailOut_throws in H; auto].
  destruct (Hg _ eq_refl) as [Eg _], (Hr _ eq_refl) as [Er _].
  destruct (emitBailOut_post mg subgraph mr node st Eg Er (Hnb _ eq_refl)
              _ _ H)
    as (s1 & s2 & s3 & Lg & R & guard & tail_call & bg & br
        & _ & _ & _ & Hop & _ & _ & Htc & HI & _ & _ & HB
        & OL & OR & Kg & Kr & HW & HR).
  split; [| | done].
  + eexists. split; [exact HI |].
    apply code_ok_app; [done |].
    apply (code_ok_app [guard] [mkInstruction JF 0 0]);
      apply code_ok_singleton; simpl; rewrite ?Hop; done.
  + eexists. split_and!; [exact HB | |].
    * rewrite !Forall_app, Forall_singleton. split_and!; try done.
      by exists R, tail_call.
    * intros Hs. destruct (HW Hs) as [-> Wg]. rewrite HI. simpl.
      revert Wg. len_norm. intros Wg.
      eapply (blocks_within_app _ _ _ _
                (length (instructions_ st) + length Lg + 1)
                (length (instructions_ st) + length Lg + 2));
        [exact Wg | apply blocks_within_singleton; simpl; lia | lia ..].
- unfold emitBailOut.
  pose proof (Good_emitGuard load_guarded node Hg).
  destruct load_rest as [mr|]; [destruct (Hr _ eq_refl) |]; compo.
  all: apply Indep_createBailoutBlock.
Qed.

(** ** Every emitter extends strict the state *)

Section Emitters.

Variable can_emit_inline : NodeId → bool.
Variable FLAGS_torch_jit_disable_warning_prints : bool.
Variable this : Impl.

Abbreviation emitNode' :=
  (emitNode can_emit_inline FLAGS_torch_jit_disable_warning_prints this).
Abbreviation emitUse' :=
  (emitUse can_emit_inline FLAGS_torch_jit_disable_warning_prints this).
Abbreviation emitLoadInputs' :=
  (emitLoadInputs can_emit_inline FLAGS_torch_jit_disable_warning_prints
     this).
Abbreviation emitDrop' :=
  (emitDrop can_emit_inline FLAGS_torch_jit_disable_warning_prints this).
Abbreviation emitCodeForBlock' :=
  (emitCodeForBlock can_emit_inline FLAGS_torch_jit_disable_warning_prints
     this).
Abbreviation emitNodes' :=
  (emitNodes can_emit_inline FLAGS_torch_jit_disable_warning_prints this).

Abbreviation Good_values :=
  (values_Good strict can_emit_inline FLAGS_torch_jit_disable_warning_prints this).
Abbreviation Good_blocks :=
  (blocks_Good strict can_emit_inline FLAGS_torch_jit_disable_warning_prints this).

Lemma Good_values_loads vs : Good_values vs → Good strict (emitLoadInputs' vs).
Proof. destruct vs; simpl; tauto. Qed.

Lemma Good_block0 blocks m :
  Good_blocks blocks →
  match blocks with
  | bcons b _ => Some (emitCodeForBlock' b)
  | bnil => None
  end = Some m →
  Good strict m.
Proof. destruct blocks; simpl; [done |]. by intros [? _] [= <-]. Qed.

Lemma Good_block1 blocks m :
  Good_blocks blocks →
  match blocks with
  | bcons _ (bcons b _) => Some (emitCodeForBlock' b)
  | _ => None
  end = Some m →
  Good strict m.
Proof.
  destruct blocks as [| b0 [| b1 bs]]; simpl; [done | by intros _ ? |].
  by intros (_ & ? & _) [= <-].
Qed.

Lemma NoBlocks_registered rest :
  all_registered can_emit_inline rest = true →
  NoBlocks (emitLoadInputs' rest).
Proof.
  induction rest as [| [unique uses type node] rest IH];
    intros Hreg st u st'; cbn [emitLoadInputs emitUse].
  { intros H. by inv_M. }
  simpl in Hreg. apply andb_true_iff in Hreg as [Hv Hrest].
  apply negb_true_iff in Hv. unfold emitUse_body. simpl. rewrite Hv.
  revert u st'. apply post_bind, post_bind. unfold registerFor.
  apply post_bind, post_gets, post_expect. intros reg _.
  apply post_bind, post_gets. apply post_bind, post_modify.
  apply post_insertInstruction. intros s1 _ _ B1 _ u st' H.
  apply (IH Hrest) in H. by rewrite H, B1.
Qed.

Lemma Good_emitNode_of_parts info inputs blocks :
  (strict = true →
   bailout_inputs_registered can_emit_inline (kind info) inputs = true) →
  Good_values inputs → Good_blocks blocks →
  Good strict (emitNode' (mkNode info inputs blocks)).
Proof.
  intros Hreg Hv Hb. pose proof (Good_values_loads _ Hv) as Hl.
  pose proof (Good_block0 blocks) as Hb0.
  pose proof (Good_block1 blocks) as Hb1.
  cbn [emitNode]. apply Good_WithCurrentNode.
  revert Hreg. destruct (kind info); intros Hreg.
  - (* prim::Drop *) destruct inputs; simpl in Hv; tauto.
  - apply Good_emitConstant.
  - apply Good_emitIf; eauto.
  - apply Good_emitLoop; eauto.
  - by apply Good_emitWait.
  - apply Good_ret.
  - by apply Good_emitOperator.
  - (* prim::CallFunction *)
    destruct inputs as [| callee args]; [good |].
    destruct Hv as (_ & _ & _ & Hargs).
    apply Good_values_loads in Hargs.
    pose proof (Good_emitCall) as Hc. good.
  - (* prim::CallMethod *)
    destruct inputs as [| self args]; [good |].
    pose proof Good_getMethod. pose proof Good_emitCall.
    pose proof Good_emitInterfaceCall. good.
  - by apply Good_emitTypeCheck.
  - (* prim::BailOut *)
    destruct inputs as [| unoptimized [| guarded rest]];
      try (apply Good_emitBailOut; by intros ? [=]).
    destruct Hv as (_ & _ & _ & _ & _ & Hguarded & Hrest).
    apply Good_values_loads in Hrest.
    apply Good_emitBailOut; intros ? [= <-]; [| done |].
    + specialize (Hguarded false). good.
    + intros Hs. apply NoBlocks_registered. by apply Hreg.
  - by apply Good_emitProfile.
  - by apply Good_emitProfile.
  - by apply Good_emitGetAttr.
  - by apply Good_emitSetAttr.
  - by apply Good_emitListUnpack.
  - by apply Good_emitTupleConstruct.
  - by apply Good_emitContainerConstruct.
  - by apply Good_emitContainerConstruct.
  - apply Good_emitCreateObject.
  - by apply Good_emitIsinstance.
  - by apply Good_emitTupleSlice.
  - by apply Good_emitFork.
  - by apply Good_emitWarn.
  - by apply Good_emitEnter.
  - apply Good_emitExit.
  - by apply Good_emitOperator.
Qed.

Lemma Good_emitNodeAtBlockLevel_of info inputs blocks :
  Good strict (emitNode' (mkNode info inputs blocks)) →
  Good strict (emitLoadInputs' inputs) →
  Good strict
    (emitNodeAtBlockLevel can_emit_inline info (emitLoadInputs' inputs)
       (emitNode' (mkNode info inputs blocks))).
Proof. intros. by apply Good_emitNodeAtBlockLevel. Qed.

(** Under [strict], the BailOut nodes are taken to load registered
    inputs into their blocks. *)
Theorem emit_Good :
  (∀ node,
     (strict = true → bailouts_registered_node can_emit_inline node = true) →
     Good strict (emitNode' node)
     ∧ Good strict (emitLoadInputs' (inputs_of node)))
  ∧ (∀ input,
       (strict = true →
        bailouts_registered_value can_emit_inline input = true) →
       ∀ drop, Good strict (emitUse' input drop))
  ∧ (∀ inputs,
       (strict = true →
        bailouts_registered_values can_emit_inline inputs = true) →
       Good_values inputs)
  ∧ (∀ block,
       (strict = true →
        bailouts_registered_block can_emit_inline block = true) →
       Good strict (emitCodeForBlock' block))
  ∧ (∀ blocks,
       (strict = true →
        bailouts_registered_blocks can_emit_inline blocks = true) →
       Good_blocks blocks)
  ∧ (∀ nodes,
       (strict = true →
        bailouts_registered_nodes can_emit_inline nodes = true) →
       Good strict (emitNodes' nodes)).
Proof.
  apply ir_mutind.
  - intros info inputs Hv blocks Hb Hwf.
    assert (Hwf' : strict = true →
              bailout_inputs_registered can_emit_inline (kind info) inputs
              = true
              ∧ bailouts_registered_values can_emit_inline inputs = true
              ∧ bailouts_registered_blocks can_emit_inline blocks = true).
    { intros Hs. specialize (Hwf Hs). simpl in Hwf.
      by apply andb_true_iff in Hwf as [[? ?]%andb_true_iff ?]. }
    assert (Good_values inputs) by (apply Hv; intros; by apply Hwf').
    assert (Good_blocks blocks) by (apply Hb; intros; by apply Hwf').
    split.
    + apply Good_emitNode_of_parts; [intros; by apply Hwf' | done | done].
    + by apply Good_values_loads.
  - intros unique uses_size type node Hn Hwf drop.
    destruct (Hn Hwf) as [Hnode _].
    cbn [emitUse]. by apply Good_emitUse_body.
  - intros _. simpl. split_and!; [apply Good_ret | apply Good_ret | done].
  - intros v Hv vs Hvs Hwf.
    assert (Hwf' : strict = true →
              bailouts_registered_value can_emit_inline v = true
              ∧ bailouts_registered_values can_emit_inline vs = true).
    { intros Hs. specialize (Hwf Hs). simpl in Hwf.
      by apply andb_true_iff in Hwf. }
    assert (Hv' : ∀ drop, Good strict (emitUse' v drop))
      by (apply Hv; intros; by apply Hwf').
    assert (Hvs' : Good_values vs) by (apply Hvs; intros; by apply Hwf').
    simpl.
    destruct (Good_values_loads _ Hvs').
    assert (Good strict (emitDrop' vs)) as [? ?]
      by (destruct vs; simpl in Hvs'; tauto).
    split_and!; try done.
    + pose proof (Hv' false). good.
    + pose proof (Hv' true). good.
  - intros [pi pin pb] Hp nodes Hns [ri rin rb] Hr Hwf.
    assert (Hwf' : strict = true →
              bailouts_registered_node can_emit_inline (mkNode pi pin pb)
              = true
              ∧ bailouts_registered_nodes can_emit_inline nodes = true
              ∧ bailouts_registered_node can_emit_inline (mkNode ri rin rb)
                = true).
    { intros Hs. specialize (Hwf Hs). cbn [bailouts_registered_block] in Hwf.
      by apply andb_true_iff in Hwf as [[? ?]%andb_true_iff ?]. }
    destruct Hp as [Hp Hpl]; [intros; by apply Hwf' |].
    destruct Hr as [Hr Hrl]; [intros; by apply Hwf' |].
    assert (Good strict (emitNodes' nodes))
      by (apply Hns; intros; by apply Hwf').
    cbn [emitCodeForBlock]. simpl in Hpl, Hrl.
    pose proof (Good_emitNodeAtBlockLevel_of _ _ _ Hp Hpl).
    pose proof (Good_emitNodeAtBlockLevel_of _ _ _ Hr Hrl).
    good.
  - done.
  - intros b Hb bs Hbs Hwf.
    assert (Hwf' : strict = true →
              bailouts_registered_block can_emit_inline b = true
              ∧ bailouts_registered_blocks can_emit_inline bs = true).
    { intros Hs. specialize (Hwf Hs). simpl in Hwf.
      by apply andb_true_iff in Hwf. }
    split; [apply Hb | apply Hbs]; intros; by apply Hwf'.
  - intros _. simpl. apply Good_ret.
  - intros [ni nin nb] Hn ns Hns Hwf.
    assert (Hwf' : strict = true →
              bailouts_registered_node can_emit_inline (mkNode ni nin nb)
              = true
              ∧ bailouts_registered_nodes can_emit_inline ns = true).
    { intros Hs. specialize (Hwf Hs). cbn [bailouts_registered_nodes] in Hwf.
      by apply andb_true_iff in Hwf. }
    destruct Hn as [Hn Hnl]; [intros; by apply Hwf' |].
    assert (Good strict (emitNodes' ns))
      by (apply Hns; intros; by apply Hwf').
    cbn [emitNodes]. simpl in Hnl.
    pose proof (Good_emitNodeAtBlockLevel_of _ _ _ Hn Hnl).
    good.
Qed.

Lemma Good_emitCodeForBlock_registered block :
  (strict = true → bailouts_registered_block can_emit_inline block = true) →
  Good strict (emitCodeForBlock' block).
Proof. apply emit_Good. Qed.

End Emitters.

End Lowering.

(** Without [strict] the emitters are [Good] on every graph. *)

Section Loose.

Variable can_emit_inline : NodeId → bool.
Variable FLAGS_torch_jit_disable_warning_prints : bool.
Variable this : Impl.

Lemma Good_emitCodeForBlock block :
  Good false
    (emitCodeForBlock can_emit_inline FLAGS_torch_jit_disable_warning_prints
       this block).
Proof. by apply emit_Good. Qed.

Lemma Good_emitNode node :
  Good false
    (emitNode can_emit_inline FLAGS_torch_jit_disable_warning_prints this
       node).
Proof. by apply emit_Good. Qed.

Lemma Good_emitLoadInputs inputs :
  Good false
    (emitLoadInputs can_emit_inline FLAGS_torch_jit_disable_warning_prints
       this inputs).
Proof. by apply Good_values_loads, emit_Good. Qed.

End Loose.

(** ** [insertBailoutBlocks] keeps every jump inside the program *)

Lemma jumps_within_insert lo hi code (i : nat) y :
  jumps_within lo hi code →
  (is_jump (op y) = true →
   ∃ t, lo ≤ t ≤ hi ∧ X y = Int.to_int32 (t - Z.of_nat i)) →
  jumps_within lo hi (<[i := y]> code).
Proof.
  intros Hc Hy j ins Hj Hjump.
  destruct (decide (i = j)) as [<- | Hne].
  - destruct (decide (i < length code)%nat) as [Hlt | Hge].
    + rewrite list_lookup_insert_eq in Hj by done. injection Hj as <-. auto.
    + rewrite list_insert_ge in Hj by lia. by apply (Hc i ins).
  - rewrite list_lookup_insert_ne in Hj by done. by apply (Hc j ins).
Qed.

Lemma insertBailoutBlocks_loop_jumps blocks :
  Forall block_ok blocks →
  ∀ st,
    jumps_within 0 (Z.of_nat (length (instructions_ st)) - 1)
      (instructions_ st) →
    post (insertBailoutBlocks_loop blocks) st (λ _ st',
      jumps_within 0 (Z.of_nat (length (instructions_ st')) - 1)
        (instructions_ st')).
Proof.
  induction 1 as [| b blocks (body & tc & Hb & Htc & [Jb _]) _ IH];
    intros st Hst; simpl.
  { by apply post_ret. }
  apply post_bind, post_gets. apply post_bind, post_expect. intros jf Hjf.
  apply post_bind, post_assert. intros Hop%bool_decide_eq_true.
  apply post_bind, post_size_of.
  apply post_bind, post_run. intros [] s1 (jf' & Hjf' & ->)%patch_X_Some.
  apply post_bind, post_modify.
  apply post_bind, post_gets. apply post_bind, post_expect. intros src _.
  apply post_bind, post_modify. apply IH. simpl.
  rewrite Hb. len_norm. rewrite length_insert.
  apply jumps_within_app.
  - apply jumps_within_insert.
    + eapply jumps_within_mono; [| | exact Hst]; lia.
    + intros _. exists (Z.of_nat (length (instructions_ st))).
      split; [lia |]. simpl. apply IntFacts.to_int32_size_sub.
  - rewrite length_insert. apply jumps_within_app.
    + eapply jumps_within_mono; [| | exact Jb]; lia.
    + apply jumps_within_cons; [| apply jumps_within_nil].
      by rewrite Htc.
Qed.

(** ** Jump validity of compiled programs *)

Lemma jumps_within_valid prog :
  Z.of_nat (length prog) < 2 ^ 31 →
  jumps_within 0 (Z.of_nat (length prog) - 1) prog → valid_jumps prog.
Proof.
  intros Hlen H i ins Hi Hj. destruct (H i ins Hi Hj) as (t & Ht & HX).
  apply lookup_lt_Some in Hi.
  rewrite HX, IntFacts.to_int32_small by lia. lia.
Qed.

Section Compiled.

Variable can_emit_inline : NodeId → bool.
Variable FLAGS_torch_jit_disable_warning_prints : bool.

Lemma run_jumps_within this graph st :
  post
    (emitCodeForBlock can_emit_inline
       FLAGS_torch_jit_disable_warning_prints this (block graph) >>
     insertInstruction RET 0 0 >>
     insertBailoutBlocks)
    st (λ _ st',
      instructions_ st = [] → bailout_blocks_ st = [] →
      jumps_within 0 (Z.of_nat (length (instructions_ st')) - 1)
        (instructions_ st')).
Proof.
  apply post_bind, post_run. intros [] s1 R1.
  destruct (Good_emitCodeForBlock can_emit_inline
              FLAGS_torch_jit_disable_warning_prints this (block graph))
    as [E _].
  destruct (E _ _ _ R1) as [(new & EI & [Jn _]) (nb & EB & Kb & _) _].
  apply post_bind, post_insertInstruction. intros s2 _ I2 B2 _.
  unfold insertBailoutBlocks. apply post_bind, post_gets.
  intros [] st' R HI HB. revert R.
  rewrite HI in EI. rewrite HB in EB. simpl in EI, EB.
  apply insertBailoutBlocks_loop_jumps.
  - by rewrite B2, EB.
  - rewrite I2, EI. len_norm.
    apply jumps_within_app.
    + eapply jumps_within_mono; [| | exact Jn]; lia.
    + apply jumps_within_cons; [done | apply jumps_within_nil].
Qed.

(** C1: after compilation completes, every JF, JMP and LOOP instruction of
    a program shorter than 2^31 instructions (the range of the [int32_t]
    operand [X]) at index [i] has its target [i + X] inside the program. *)
Theorem compiled_jumps_valid graph st' :
  new_CodeImpl can_emit_inline FLAGS_torch_jit_disable_warning_prints graph
  = Some st' →
  Z.of_nat (length (instructions_ st')) < 2 ^ 31 →
  valid_jumps (instructions_ st').
Proof.
  unfold new_CodeImpl, exec, CodeImpl_run. intros H Hlen.
  apply fmap_Some in H as ([[] st''] & H & ->). simpl in *.
  apply jumps_within_valid; [done |].
  by eapply (run_jumps_within CodeImpl_class graph _ _ _ H).
Qed.

End Compiled.

(** ** Where [insertBailoutBlocks] puts the deferred blocks *)

Lemma insertBailoutBlocks_loop_patches blocks :
  ∀ st,
    post (insertBailoutBlocks_loop blocks) st (λ _ st',
      length (instructions_ st')
      = (length (instructions_ st)
         + length (concat (instructions <$> blocks)))%nat
      ∧ (∀ i : nat,
           i ∉ jf_instruction_index <$> blocks →
           instructions_ st' !! i
           = (instructions_ st ++ concat (instructions <$> blocks)) !! i)
      ∧ (∀ (i : nat) ins,
           (instructions_ st ++ concat (instructions <$> blocks)) !! i
           = Some ins →
           ∃ ins',
             instructions_ st' !! i = Some ins'
             ∧ op ins' = op ins ∧ N ins' = N ins)
      ∧ (∀ (k : nat) b,
           blocks !! k = Some b →
           (jf_instruction_index b
            < length (instructions_ st)
              + length (concat (instructions <$> take k blocks)))%nat
           ∧ ∃ jf,
               instructions_ st' !! jf_instruction_index b = Some jf
               ∧ op jf = JF
               ∧ ((∀ (k' : nat) b',
                     (k < k')%nat → blocks !! k' = Some b' →
                     jf_instruction_index b' ≠ jf_instruction_index b) →
                  X jf
                  = Int.to_int32
                      (Z.of_nat
                         (length (instructions_ st)
                          + length
                              (concat (instructions <$> take k blocks)))
                       - Z.of_nat (jf_instruction_index b))))).
Proof.
  induction blocks as [| b blocks IH]; intros st;
    cbn [insertBailoutBlocks_loop].
  { apply post_ret. cbn [fmap list_fmap concat]. rewrite app_nil_r.
    split_and!; [simpl; lia | done | eauto |].
    intros k b Hk. by rewrite lookup_nil in Hk. }
  apply post_bind, post_gets. apply post_bind, post_expect. intros jf Hjf.
  apply post_bind, post_assert. intros Hop%bool_decide_eq_true.
  apply post_bind, post_size_of.
  apply post_bind, post_run. intros [] s1 (jf' & Hjf' & ->)%patch_X_Some.
  rewrite Hjf in Hjf'. injection Hjf' as <-.
  apply post_bind, post_modify.
  apply post_bind, post_gets. apply post_bind, post_expect. intros src _.
  apply post_bind, post_modify.
  set (I := instructions_ st) in *.
  set (j := jf_instruction_index b) in *.
  set (x := Int.to_int32 (Int.size_sub (length I) j)).
  set (I1 := <[j := set_X x jf]> I ++ instructions b).
  set (C := concat (instructions <$> blocks)).
  intros [] st' R.
  apply IH in R. simpl in R. fold I1 C in R.
  destruct R as (L1 & Same1 & Kept1 & Patched1).
  change (concat (instructions <$> b :: blocks)) with (instructions b ++ C).
  change (jf_instruction_index <$> b :: blocks)
    with (j :: (jf_instruction_index <$> blocks)).
  assert (Hj : (j < length I)%nat) by (by eapply lookup_lt_Some).
  assert (LI1 : length I1 = (length I + length (instructions b))%nat).
  { unfold I1. by rewrite length_app, length_insert. }
  assert (HE : I1 ++ C = <[j := set_X x jf]> (I ++ instructions b ++ C)).
  { unfold I1. rewrite insert_app_l by done. by rewrite <- app_assoc. }
  assert (HEj : (I ++ instructions b ++ C) !! j = Some jf)
    by (by rewrite lookup_app_l).
  assert (HI1j : (I1 ++ C) !! j = Some (set_X x jf)).
  { rewrite HE. apply list_lookup_insert_eq. rewrite length_app. lia. }
  split_and!.
  - rewrite L1, LI1, length_app. lia.
  - intros i Hi. apply not_elem_of_cons in Hi as [Hij Hi].
    rewrite Same1 by done. rewrite HE. by rewrite list_lookup_insert_ne.
  - intros i ins Hi. destruct (decide (i = j)) as [-> | Hij].
    + rewrite HEj in Hi. injection Hi as <-.
      destruct (Kept1 _ _ HI1j) as (ins' & ? & ? & ?). by exists ins'.
    + apply Kept1. rewrite HE. by rewrite list_lookup_insert_ne.
  - intros [| k] b' Hk; simpl in Hk.
    + injection Hk as <-. fold j. simpl. split; [lia |].
      destruct (Kept1 _ _ HI1j) as (ins' & Hins' & Hop' & _).
      exists ins'. split_and!; [done | by rewrite Hop' |].
      intros Hlater.
      assert (Hnot : j ∉ jf_instruction_index <$> blocks).
      { intros (b' & Hb' & [k' Hk']%list_elem_of_lookup)%list_elem_of_fmap.
        by apply (Hlater (S k') b'); [lia | |]. }
      rewrite Same1, HI1j in Hins' by done. injection Hins' as <-. simpl.
      unfold x. rewrite IntFacts.to_int32_size_sub. do 2 f_equal. lia.
    + destruct (Patched1 k b' Hk) as (Hlt & jf' & Hjf' & Hop' & HX).
      cbn [take fmap list_fmap concat]. rewrite length_app.
      rewrite LI1 in Hlt, HX. fold C.
      split; [lia |]. exists jf'. split_and!; [done | done |].
      intros Hlater. rewrite HX.
      * do 2 f_equal. lia.
      * intros k' b'' Hlt' Hk'. apply (Hlater (S k') b''); [lia | done].
Qed.

(** When the recorded indices are positions of the main program, the
    blocks follow the patched main program unchanged. *)
Lemma appended_after_main (main final : list Instruction)
    (blocks : list BailoutBlock) :
  length final
  = (length main + length (concat (instructions <$> blocks)))%nat →
  (∀ i : nat,
     i ∉ jf_instruction_index <$> blocks →
     final !! i = (main ++ concat (instructions <$> blocks)) !! i) →
  Forall (λ b, (jf_instruction_index b < length main)%nat) blocks →
  final = take (length main) final ++ concat (instructions <$> blocks)
  ∧ length (take (length main) final) = length main.
Proof.
  intros Hlen Hsame Hlt. split; [| rewrite length_take; lia].
  rewrite <- (take_drop (length main) final) at 1. f_equal.
  apply list_eq. intros i. rewrite lookup_drop, Hsame.
  - rewrite lookup_app_r by lia. f_equal. lia.
  - intros (b & Hi & Hb)%list_elem_of_fmap.
    rewrite Forall_forall in Hlt. specialize (Hlt _ Hb). simpl in Hlt. lia.
Qed.

Section Bailout.

Variable can_emit_inline : NodeId → bool.
Variable FLAGS_torch_jit_disable_warning_prints : bool.

(** X24: what [insertBailoutBlocks] does for every graph.  It appends
    the deferred blocks after the main, RET-terminated program in the
    order of [bailout_blocks_] (the order of creation); each block ends
    in a TAIL_CALL; only the [X] operands at the recorded indices differ
    from the main program followed by the blocks; each recorded index
    holds a JF, and after the patches its target is the first instruction
    of the block, for every block whose index no later block records as
    well.  With a single block the target of its JF is the length of the
    main program, and the block follows the main program unchanged.  When
    the BailOut nodes of the graph load registered values into their
    blocks, the recorded indices are distinct positions of the main
    program.  The final program is taken to be shorter than 2^31. *)
Theorem bailout_blocks_appended graph st' :
  new_CodeImpl can_emit_inline FLAGS_torch_jit_disable_warning_prints graph
  = Some st' →
  Z.of_nat (length (instructions_ st')) < 2 ^ 31 →
  ∃ s_main,
    (emitCodeForBlock can_emit_inline FLAGS_torch_jit_disable_warning_prints
       CodeImpl_class (block graph) >>
     insertInstruction RET 0 0) (CodeImpl_init graph) = Some (tt, s_main)
    ∧ insertBailoutBlocks s_main = Some (tt, st')
    ∧ last (instructions_ s_main) = Some (mkInstruction RET 0 0)
    ∧ Forall
        (λ b, ∃ tail_call,
           last (instructions b) = Some tail_call
           ∧ op tail_call = TAIL_CALL)
        (bailout_blocks_ s_main)
    ∧ length (instructions_ st')
      = (length (instructions_ s_main)
         + length (concat (instructions <$> bailout_blocks_ s_main)))%nat
    ∧ (∀ (i : nat) ins,
         (instructions_ s_main
            ++ concat (instructions <$> bailout_blocks_ s_main)) !! i
         = Some ins →
         ∃ ins',
           instructions_ st' !! i = Some ins'
           ∧ op ins' = op ins ∧ N ins' = N ins
           ∧ (i ∉ jf_instruction_index <$> bailout_blocks_ s_main →
              ins' = ins))
    ∧ (∀ (k : nat) b,
         bailout_blocks_ s_main !! k = Some b →
         ∃ jf,
           instructions_ st' !! jf_instruction_index b = Some jf
           ∧ op jf = JF
           ∧ ((∀ (k' : nat) b',
                 (k < k')%nat → bailout_blocks_ s_main !! k' = Some b' →
                 jf_instruction_index b' ≠ jf_instruction_index b) →
              Z.of_nat (jf_instruction_index b) + X jf =
                Z.of_nat
                  (length (instructions_ s_main)
                   + length
                       (concat
                          (instructions <$>
                             take k (bailout_blocks_ s_main))))))
    ∧ (∀ b,
         bailout_blocks_ s_main = [b] →
         ∃ main' jf,
           instructions_ st' = main' ++ instructions b
           ∧ length main' = length (instructions_ s_main)
           ∧ main' !! jf_instruction_index b = Some jf
           ∧ op jf = JF
           ∧ Z.of_nat (jf_instruction_index b) + X jf
             = Z.of_nat (length (instructions_ s_main)))
    ∧ (bailouts_registered_block can_emit_inline (block graph) = true →
       NoDup (jf_instruction_index <$> bailout_blocks_ s_main)
       ∧ Forall
           (λ b,
              (jf_instruction_index b < length (instructions_ s_main))%nat)
           (bailout_blocks_ s_main)
       ∧ ∃ main',
           instructions_ st' =
             main' ++ concat (instructions <$> bailout_blocks_ s_main)
           ∧ length main' = length (instructions_ s_main)).
Proof.
  intros Hrun Hlen.
  unfold new_CodeImpl, exec, CodeImpl_run in Hrun.
  apply fmap_Some in Hrun as ([[] st''] & Hrun & ->). simpl in Hlen |- *.
  apply bind_Some in Hrun as ([] & s1 & R1 & Hrun).
  apply bind_Some in Hrun as ([] & s_main & RRET & Hins).
  exists s_main.
  assert (Hmain : (emitCodeForBlock can_emit_inline
                     FLAGS_torch_jit_disable_warning_prints CodeImpl_class
                     (block graph) >>
                   insertInstruction RET 0 0) (CodeImpl_init graph)
                  = Some (tt, s_main)).
  { apply bind_Some. by exists tt, s1. }
  destruct (Good_emitCodeForBlock can_emit_inline
              FLAGS_torch_jit_disable_warning_prints CodeImpl_class
              (block graph)) as [E _].
  destruct (E _ _ _ R1) as [_ (nb & EB & Kb & _) _]. simpl in EB.
  apply insertInstruction_Some in RRET as (IRET & BRET & _).
  pose proof Hins as Hins'.
  unfold insertBailoutBlocks in Hins'. apply bind_Some in Hins'.
  destruct Hins' as (blocks & s & Hg & Hloop).
  apply gets_Some in Hg as [-> ->].
  destruct (insertBailoutBlocks_loop_patches _ _ _ _ Hloop)
    as (L' & Same & Kept & Patched).
  set (blocks := bailout_blocks_ s_main) in *.
  set (main := instructions_ s_main) in *.
  assert (Hpatched :
    ∀ (k : nat) b,
      blocks !! k = Some b →
      ∃ jf,
        instructions_ st'' !! jf_instruction_index b = Some jf
        ∧ op jf = JF
        ∧ ((∀ (k' : nat) b',
              (k < k')%nat → blocks !! k' = Some b' →
              jf_instruction_index b' ≠ jf_instruction_index b) →
           Z.of_nat (jf_instruction_index b) + X jf =
             Z.of_nat
               (length main
                + length (concat (instructions <$> take k blocks))))).
  { intros k b Hk.
    destruct (Patched k b Hk) as (Hlt & jf & Hjf & Hop & HX).
    exists jf. split_and!; [done | done |]. intros Hlater.
    rewrite (HX Hlater).
    assert (length (concat (instructions <$> take k blocks))
            ≤ length (concat (instructions <$> blocks)))%nat.
    { rewrite <- (take_drop k blocks) at 2.
      rewrite fmap_app, concat_app, length_app. lia. }
    rewrite IntFacts.to_int32_small by lia. lia. }
  split_and!; [done | done | | | done | | done | |].
  - rewrite IRET. by rewrite last_snoc.
  - rewrite BRET, EB. eapply Forall_impl; [exact Kb |].
    intros b (body & tc & -> & Htc & _). exists tc.
    by rewrite last_snoc.
  - intros i ins Hi. destruct (Kept _ _ Hi) as (ins' & Hins' & ? & ?).
    exists ins'. split_and!; try done.
    intros Hnot. rewrite Same, Hi in Hins' by done. by injection Hins'.
  - intros b Hb.
    destruct (Patched 0%nat b) as (Hlt & _); [by rewrite Hb |].
    simpl in Hlt. rewrite Nat.add_0_r in Hlt.
    destruct (appended_after_main main (instructions_ st'') blocks)
      as [Happ Htake]; [done | done | by rewrite Hb; repeat constructor |].
    destruct (Hpatched 0%nat b) as (jf & Hjf & Hop & HX);
      [by rewrite Hb |].
    exists (take (length main) (instructions_ st'')), jf.
    split_and!; [| done | by rewrite lookup_take_lt | done |].
    + rewrite Happ at 1. rewrite Hb. simpl. by rewrite app_nil_r.
    + rewrite HX; [simpl; lia |].
      intros k' b' Hk' Hb'. rewrite Hb in Hb'.
      destruct k' as [| k']; [lia | by destruct k'].
  - intros Hwf.
    destruct (Good_emitCodeForBlock_registered true can_emit_inline
                FLAGS_torch_jit_disable_warning_prints CodeImpl_class
                (block graph) (λ _, Hwf)) as [E' _].
    destruct (E' _ _ _ R1) as [_ (nb' & EB' & _ & Wb) _]. simpl in EB', Wb.
    destruct (Wb eq_refl) as [Hlt1 Hnd1].
    assert (Hlt : Forall
              (λ b, (jf_instruction_index b < length main)%nat) blocks).
    { rewrite BRET, EB', IRET.
      eapply Forall_impl; [exact Hlt1 |].
      intros b Hb. simpl in Hb. rewrite length_app. lia. }
    split_and!; [by rewrite BRET, EB' | done |].
    destruct (appended_after_main main (instructions_ st'') blocks)
      as [Happ Htake]; [done | done | done |].
    by eexists.
Qed.

End Bailout.

(** ** [request_bailout] *)

Lemma request_bailout_scan_positions prog :
  ∀ (k i j : nat),
    positions_from is_guard i prog !! k = Some j →
    (i ≤ j)%nat
    ∧ request_bailout_scan k prog = alter (set_op FAIL_GUARD) (j - i)%nat prog.
Proof.
  induction prog as [| ins prog IH]; intros k i j Hk; simpl in *.
  { by rewrite lookup_nil in Hk. }
  destruct (is_guard (op ins)).
  - destruct k as [| k]; simpl in Hk.
    + injection Hk as <-. split; [done |]. by rewrite Nat.sub_diag.
    + destruct (IH _ _ _ Hk) as [Hle ->]. split; [lia |].
      replace (j - i)%nat with (S (j - S i)) by lia. done.
  - destruct (IH _ _ _ Hk) as [Hle ->]. split; [lia |].
    replace (j - i)%nat with (S (j - S i)) by lia. done.
Qed.

Lemma request_bailout_scan_idempotent prog :
  ∀ k, request_bailout_scan k (request_bailout_scan k prog)
       = request_bailout_scan k prog.
Proof.
  induction prog as [| ins prog IH]; intros k; simpl; [done |].
  destruct (is_guard (op ins)) eqn:Hg.
  - destruct k as [| k]; simpl.
    + done.
    + by rewrite Hg, IH.
  - simpl. by rewrite Hg, IH.
Qed.

Lemma positions_from_ext P Q prog :
  Forall (λ ins, P (op ins) = Q (op ins)) prog →
  ∀ i, positions_from P i prog = positions_from Q i prog.
Proof.
  induction 1 as [| ins prog Hins _ IH]; intros i; simpl; [done |].
  by rewrite Hins, !IH.
Qed.

Lemma GUARD_positions_guard prog :
  Forall (λ ins, op ins ≠ FAIL_GUARD) prog →
  GUARD_positions prog = guard_positions prog.
Proof.
  intros H. apply positions_from_ext. eapply Forall_impl; [exact H |].
  intros ins Hins. unfold is_GUARD, is_guard. simpl in Hins.
  rewrite (bool_decide_eq_false_2 (op ins = FAIL_GUARD)) by done.
  by rewrite orb_false_r.
Qed.

Lemma positions_from_lookup P prog :
  ∀ (i k j : nat),
    positions_from P i prog !! k = Some j →
    ∃ ins, prog !! (j - i)%nat = Some ins ∧ P (op ins) = true ∧ (i ≤ j)%nat.
Proof.
  induction prog as [| ins prog IH]; intros i k j Hk; simpl in *.
  { by rewrite lookup_nil in Hk. }
  destruct (P (op ins)) eqn:HP.
  - destruct k as [| k]; simpl in Hk.
    + injection Hk as <-. exists ins. by rewrite Nat.sub_diag.
    + destruct (IH _ _ _ Hk) as (ins' & Hl & HP' & Hle).
      exists ins'. replace (j - i)%nat with (S (j - S i)) by lia.
      split_and!; [done | done | lia].
  - destruct (IH _ _ _ Hk) as (ins' & Hl & HP' & Hle).
    exists ins'. replace (j - i)%nat with (S (j - S i)) by lia.
    split_and!; [done | done | lia].
Qed.

(** Compiled programs hold no FAIL_GUARD. *)

Lemma insertBailoutBlocks_loop_no_FAIL_GUARD blocks :
  Forall block_ok blocks →
  ∀ st,
    Forall (λ ins, op ins ≠ FAIL_GUARD) (instructions_ st) →
    post (insertBailoutBlocks_loop blocks) st (λ _ st',
      Forall (λ ins, op ins ≠ FAIL_GUARD) (instructions_ st')).
Proof.
  induction 1 as [| b blocks (body & tc & Hb & Htc & [_ Fb]) _ IH];
    intros st Hst; simpl.
  { by apply post_ret. }
  apply post_bind, post_gets. apply post_bind, post_expect. intros jf Hjf.
  apply post_bind, post_assert. intros Hop%bool_decide_eq_true.
  apply post_bind, post_size_of.
  apply post_bind, post_run. intros [] s1 (jf' & Hjf' & ->)%patch_X_Some.
  apply post_bind, post_modify.
  apply post_bind, post_gets. apply post_bind, post_expect. intros src _.
  apply post_bind, post_modify. apply IH. simpl.
  rewrite Hb, !Forall_app, Forall_singleton. split_and!; [| done | by rewrite Htc].
  apply Forall_insert; [done |]. simpl.
  rewrite Hjf in Hjf'. injection Hjf' as <-. by rewrite Hop.
Qed.

Section Finalized.

Variable can_emit_inline : NodeId → bool.
Variable FLAGS_torch_jit_disable_warning_prints : bool.

Lemma compiled_no_FAIL_GUARD graph st' :
  new_CodeImpl can_emit_inline FLAGS_torch_jit_disable_warning_prints graph
  = Some st' →
  Forall (λ ins, op ins ≠ FAIL_GUARD) (instructions_ st').
Proof.
  unfold new_CodeImpl, exec, CodeImpl_run. intros H.
  apply fmap_Some in H as ([[] st''] & H & ->). simpl.
  apply bind_Some in H as ([] & s1 & R1 & H).
  apply bind_Some in H as ([] & s2 & R2 & H).
  unfold insertBailoutBlocks in H.
  apply bind_Some in H as (blocks & s & Hg & H).
  apply gets_Some in Hg as [-> ->].
  destruct (Good_emitCodeForBlock can_emit_inline
              FLAGS_torch_jit_disable_warning_prints CodeImpl_class
              (block graph)) as [E _].
  destruct (E _ _ _ R1) as [(new & EI & [_ Fn]) (nb & EB & Kb & _) _].
  simpl in EI, EB.
  apply insertInstruction_Some in R2 as (I2 & B2 & _).
  eapply insertBailoutBlocks_loop_no_FAIL_GUARD; [| | exact H].
  - by rewrite B2, EB.
  - rewrite I2, EI, Forall_app, Forall_singleton. by split.
Qed.

(** C3: on a finalized program with at least [k+1] GUARD instructions,
    [request_bailout(k)] turns the [k]-th GUARD in instruction order (at
    position [j]) into FAIL_GUARD, keeping its [X] and [N], leaves every
    other instruction and every other member unchanged, and a second call
    with the same index changes nothing. *)
Theorem request_bailout_kth_GUARD graph st (k j : nat) :
  new_CodeImpl can_emit_inline FLAGS_torch_jit_disable_warning_prints graph
  = Some st →
  GUARD_positions (instructions_ st) !! k = Some j →
  (∃ guard,
     instructions_ st !! j = Some guard ∧ op guard = GUARD
     ∧ instructions_ (request_bailout k st) !! j
       = Some (mkInstruction FAIL_GUARD (X guard) (N guard)))
  ∧ (∀ i : nat,
       i ≠ j →
       instructions_ (request_bailout k st) !! i = instructions_ st !! i)
  ∧ length (instructions_ (request_bailout k st))
    = length (instructions_ st)
  ∧ request_bailout k st
    = set_instructions_ (instructions_ (request_bailout k st)) st
  ∧ request_bailout k (request_bailout k st) = request_bailout k st.
Proof.
  intros Hc Hk.
  pose proof (compiled_no_FAIL_GUARD _ _ Hc) as Hfg.
  destruct (positions_from_lookup _ _ _ _ _ Hk) as (guard & Hj & HG & _).
  rewrite Nat.sub_0_r in Hj. apply bool_decide_eq_true in HG.
  rewrite (GUARD_positions_guard _ Hfg) in Hk.
  destruct (request_bailout_scan_positions _ _ _ _ Hk) as [_ Hscan].
  rewrite Nat.sub_0_r in Hscan.
  unfold request_bailout at 1 2 3. simpl. rewrite Hscan.
  split_and!.
  - exists guard. split_and!; [done | done |].
    by rewrite list_lookup_alter_eq, Hj.
  - intros i Hi. by rewrite list_lookup_alter_ne.
  - by rewrite length_alter.
  - unfold request_bailout. simpl. by rewrite Hscan.
  - unfold request_bailout. simpl.
    by rewrite request_bailout_scan_idempotent.
Qed.

End Finalized.

(** ** Uses: LOAD or MOVE *)

Section Uses.

Variable can_emit_inline : NodeId → bool.
Variable FLAGS_torch_jit_disable_warning_prints : bool.
Variable this : Impl.

(** C6: a use, with [drop = false], of a registered value that no
    constant node defines emits one instruction on the value's register:
    MOVE when the use counter, incremented by this use, equals the static
    use count of the value, LOAD at every other use; the use changes
    nothing else but the counter. *)
Theorem emitUse_LOAD_or_MOVE input st reg :
  can_emit_inline (node_id (info_of (value_node input))) = false →
  kind (info_of (value_node input)) ≠ prim_Constant →
  value_to_reg_ st !! value_unique input = Some reg →
  - 2 ^ 31 ≤ reg < 2 ^ 31 →
  let count := S (default 0%nat (use_count_ st !! value_unique input)) in
  let opcode :=
    if bool_decide (value_uses_size input = count) then MOVE else LOAD in
  emitUse can_emit_inline FLAGS_torch_jit_disable_warning_prints this
    input false st
  = Some
      (tt,
       set_instructions_source_
         (instructions_source_ st ++ [node_id (current_node_ st)])
         (set_instructions_
            (instructions_ st ++ [mkInstruction opcode reg 0])
            (set_use_count_
               (<[value_unique input := count]> (use_count_ st)) st))).
Proof.
  intros Hinline Hkind Hreg Hrange count opcode.
  destruct input as [unique uses type node]. cbn [emitUse].
  unfold emitUse_body. simpl in *. rewrite Hinline.
  unfold registerFor, bind, gets, expect, modify, ret. simpl.
  rewrite Hreg. simpl.
  rewrite bool_decide_eq_false_2 by done.
  unfold insertInstruction. simpl.
  fold count. fold opcode.
  unfold Int.safe_narrow_cast_int32.
  rewrite IntFacts.to_int32_small by done.
  destruct (decide (opcode = OP)) as [Hop | _]; [| done].
  unfold opcode in Hop. by destruct (bool_decide _).
Qed.

End Uses.

(** ** Register allocation *)

Lemma allocRegs_loop_Some vs :
  ∀ st u st',
    allocRegs_loop vs st = Some (u, st') →
    register_size_ st' = register_size_ st + Z.of_nat (length vs)
    ∧ NoDup vs
    ∧ (∀ v, v ∈ vs → value_to_reg_ st !! v = None)
    ∧ (∀ (i : nat) v,
         vs !! i = Some v →
         value_to_reg_ st' !! v = Some (register_size_ st + 1 + Z.of_nat i))
    ∧ (∀ v, v ∉ vs → value_to_reg_ st' !! v = value_to_reg_ st !! v)
    ∧ instructions_ st' = instructions_ st
    ∧ constant_table_ st' = constant_table_ st.
Proof.
  induction vs as [| v vs IH]; intros st u st'; simpl.
  { intros H. inv_M. split_and!;
      [simpl; lia | constructor | | | done | done | done].
    - intros v Hv. by apply not_elem_of_nil in Hv.
    - intros i v Hi. by rewrite lookup_nil in Hi. }
  revert u st'. apply post_bind, post_gets.
  apply post_bind, post_assert. intros Hnone%bool_decide_eq_true.
  apply post_bind, post_gets.
  apply post_bind, post_assert. intros Hmax%bool_decide_eq_true.
  apply post_bind, post_modify. intros u st' H.
  apply IH in H as (HR & Hnd & Hfresh & Hassigned & Hother & HI & HC).
  simpl in *.
  assert (Hv : v ∉ vs).
  { intros Hin. specialize (Hfresh _ Hin).
    by rewrite lookup_insert_eq in Hfresh. }
  split_and!.
  - rewrite HR. lia.
  - by constructor.
  - intros v' [-> | Hin]%elem_of_cons; [done |].
    specialize (Hfresh _ Hin).
    rewrite lookup_insert_ne in Hfresh; [done |]. by intros ->.
  - intros [| i] v' Hi; simpl in Hi.
    + injection Hi as <-. rewrite Hother by done.
      rewrite lookup_insert_eq. f_equal. lia.
    + rewrite (Hassigned _ _ Hi). f_equal. lia.
  - intros v' Hv'. apply not_elem_of_cons in Hv' as [Hne Hv'].
    rewrite Hother by done. by rewrite lookup_insert_ne.
  - done.
  - done.
Qed.

Section Registers.

Variable can_emit_inline : NodeId → bool.
Variable FLAGS_torch_jit_disable_warning_prints : bool.
Variable this : Impl.

(** C7, as the code has it: [allocRegs(vs)] hands out the consecutive
    indices [register_size_ + 1 .. register_size_ + |vs|], all of them at
    least 1, to values that had no entry, returns the first and binds
    nothing else; the values bound by [allocRegs] so far keep distinct
    registers; and no emitter lowers [register_size_], so no index is
    handed out twice.  ([value_to_reg_] as a whole is not injective:
    constants share it.) *)
Theorem allocRegs_fresh vs st result st' :
  allocRegs vs st = Some (result, st') →
  0 ≤ register_size_ st →
  result = register_size_ st + 1
  ∧ register_size_ st' = register_size_ st + Z.of_nat (length vs)
  ∧ (∀ (i : nat) v,
       vs !! i = Some v →
       value_to_reg_ st' !! v = Some (register_size_ st + 1 + Z.of_nat i)
       ∧ 1 ≤ register_size_ st + 1 + Z.of_nat i
       ∧ value_to_reg_ st !! v = None)
  ∧ (∀ v, v ∉ vs → value_to_reg_ st' !! v = value_to_reg_ st !! v)
  ∧ (∀ A : gset ValueId,
       registers_distinct A st →
       registers_distinct (A ∪ list_to_set vs) st')
  ∧ (∀ block s s',
       emitCodeForBlock can_emit_inline
         FLAGS_torch_jit_disable_warning_prints this block s
       = Some (tt, s') →
       register_size_ s ≤ register_size_ s').
Proof.
  unfold allocRegs. intros H Hpos.
  apply bind_Some in H as (rs & s0 & Hg & H).
  apply gets_Some in Hg as [-> ->].
  apply bind_Some in H as ([] & s0 & Hmax & H).
  apply assert_Some in Hmax as [_ ->].
  apply bind_Some in H as ([] & s1 & Hloop & H).
  apply ret_Some in H as [-> <-].
  apply allocRegs_loop_Some in Hloop
    as (HR & Hnd & Hfresh & Hassigned & Hother & _).
  split_and!; try done.
  - intros i v Hi. split_and!; [by apply Hassigned | lia |].
    apply Hfresh. by eapply list_elem_of_lookup_2.
  - intros A [Hin Hinj]. split.
    + intros v [Hv | Hv%elem_of_list_to_set]%elem_of_union.
      * destruct (decide (v ∈ vs)) as [Hvs | Hvs].
        { destruct (Hin v Hv) as (r & Hr & _).
          by rewrite (Hfresh v Hvs) in Hr. }
        destruct (Hin v Hv) as (r & Hr & Hrange).
        exists r. rewrite Hother by done. split; [done | lia].
      * apply list_elem_of_lookup in Hv as [i Hi].
        eexists. split; [by apply Hassigned |].
        apply lookup_lt_Some in Hi. lia.
    + assert (Hold : ∀ v r, v ∈ A → value_to_reg_ st' !! v = Some r →
                            value_to_reg_ st !! v = Some r
                            ∧ r ≤ register_size_ st).
      { intros v r Hv Hr. destruct (decide (v ∈ vs)) as [Hvs | Hvs].
        - destruct (Hin v Hv) as (r' & Hr' & _).
          by rewrite (Hfresh v Hvs) in Hr'.
        - rewrite Hother in Hr by done. split; [done |].
          destruct (Hin v Hv) as (r' & Hr' & ?). rewrite Hr in Hr'.
          injection Hr' as <-. lia. }
      assert (Hnew : ∀ v r, v ∈ vs → value_to_reg_ st' !! v = Some r →
                            ∃ i : nat, vs !! i = Some v
                              ∧ r = register_size_ st + 1 + Z.of_nat i).
      { intros v r [i Hi]%list_elem_of_lookup Hr. exists i.
        split; [done |]. rewrite (Hassigned _ _ Hi) in Hr. congruence. }
      intros v1 v2 r [H1 | H1%elem_of_list_to_set]%elem_of_union
        [H2 | H2%elem_of_list_to_set]%elem_of_union Hr1 Hr2.
      * destruct (Hold _ _ H1 Hr1), (Hold _ _ H2 Hr2). by eapply Hinj.
      * destruct (Hold _ _ H1 Hr1) as [_ ?].
        destruct (Hnew _ _ H2 Hr2) as (i & _ & ->). lia.
      * destruct (Hold _ _ H2 Hr2) as [_ ?].
        destruct (Hnew _ _ H1 Hr1) as (i & _ & ->). lia.
      * destruct (Hnew _ _ H1 Hr1) as (i1 & Hi1 & ->).
        destruct (Hnew _ _ H2 Hr2) as (i2 & Hi2 & Heq).
        assert (i1 = i2) as -> by lia. congruence.
  - intros block s s' Hs.
    by destruct (Good_Ext _ _ (Good_emitCodeForBlock can_emit_inline
                   FLAGS_torch_jit_disable_warning_prints this block)
                   _ _ _ Hs).
Qed.

End Registers.

(** ** Constants *)

Section Constants.

Variable can_emit_inline : NodeId → bool.

(** C8, as the code has it: lowering a [prim::Constant] node at block
    level appends no instruction; when the type of its output is not a
    function type, its value is appended to the constant table (taken to
    hold fewer than 2^31 entries) and the output is bound to that slot;
    when it is a function type nothing at all changes. *)
Theorem emitConstant_lowering node o loads emitNode_node st :
  kind node = prim_Constant →
  outputs node = [o] →
  (is_FunctionType (out_type o) = true →
   emitNodeAtBlockLevel can_emit_inline node loads emitNode_node st
   = Some (tt, set_current_node_ (current_node_ st) st))
  ∧ (is_FunctionType (out_type o) = false →
     ∀ value,
       attr_value (attrs node) = Some value →
       Z.of_nat (length (constant_table_ st)) < 2 ^ 31 →
       ∃ st',
         emitNodeAtBlockLevel can_emit_inline node loads emitNode_node st
         = Some (tt, st')
         ∧ Constant_lowered o st st'
         ∧ constant_table_ st' = constant_table_ st ++ [value]
         ∧ (∀ v, v ≠ out_unique o →
                 value_to_reg_ st' !! v = value_to_reg_ st !! v)).
Proof.
  intros Hkind Hout.
  unfold emitNodeAtBlockLevel, WithCurrentNode, emitConstant, output.
  rewrite Hkind, Hout. unfold bind, ret. simpl. split.
  - by intros ->.
  - intros -> value Hvalue Hlen. rewrite Hvalue. simpl.
    eexists. split; [reflexivity |]. simpl.
    rewrite IntFacts.to_int32_small by lia.
    split_and!; try done.
    + split_and!; [done | by eexists | simpl; by rewrite lookup_insert_eq].
    + intros v Hv. by rewrite lookup_insert_ne.
Qed.

End Constants.

(** ** Control flow *)

Section ControlFlow.

Variable can_emit_inline : NodeId → bool.
Variable FLAGS_torch_jit_disable_warning_prints : bool.
Variable this : Impl.

Abbreviation emitNode' :=
  (emitNode can_emit_inline FLAGS_torch_jit_disable_warning_prints this).
Abbreviation emitLoadInputs' :=
  (emitLoadInputs can_emit_inline FLAGS_torch_jit_disable_warning_prints
     this).
Abbreviation emitCodeForBlock' :=
  (emitCodeForBlock can_emit_inline FLAGS_torch_jit_disable_warning_prints
     this).

(** C4, as the code has it: an [If] node emits the loads of its inputs
    ([L]), a JF with offset 0, the true block ([T]), a JMP with offset 0
    and the false block ([F]); the JF is patched when the true block and
    the JMP are there, the JMP after the false block.  The final offset of
    the JF is [|T| + 2] (over the JF itself, the true block and the JMP),
    that of the JMP is [|F| + 1]. *)
Theorem emitIf_offsets info inputs block_true block_false blocks st st' :
  kind info = prim_If →
  emitNode' (mkNode info inputs (bcons block_true (bcons block_false blocks)))
    st = Some (tt, st') →
  Z.of_nat (length (instructions_ st')) < 2 ^ 31 →
  ∃ s1 s2 s3 s5 s6 L T F,
    emitLoadInputs' inputs (set_current_node_ info st) = Some (tt, s1)
    ∧ instructions_ s1 = instructions_ st ++ L
    ∧ instructions_ s2 = instructions_ s1 ++ [mkInstruction JF 0 0]
    ∧ emitCodeForBlock' block_true s2 = Some (tt, s3)
    ∧ instructions_ s3 = instructions_ s2 ++ T
    ∧ instructions_ s5 =
        instructions_ st ++ L
          ++ [mkInstruction JF (Z.of_nat (length T) + 2) 0] ++ T
          ++ [mkInstruction JMP 0 0]
    ∧ emitCodeForBlock' block_false s5 = Some (tt, s6)
    ∧ instructions_ s6 = instructions_ s5 ++ F
    ∧ instructions_ st' =
        instructions_ st
          ++ If_code (λ t, Z.of_nat t + 2) (λ f, Z.of_nat f + 1) L T F.
Proof.
  intros Hkind H Hlen. cbn [emitNode] in H. rewrite Hkind in H.
  unfold WithCurrentNode in H.
  destruct (emitIf _ _ _ _) as [[[] st1]|] eqn:HIf; [| done].
  injection H as <-. simpl in Hlen |- *.
  apply (emitIf_post false) in HIf;
    [| apply Good_Ext, Good_emitLoadInputs
     | apply Good_Ext, Good_emitCodeForBlock
     | apply Good_Ext, Good_emitCodeForBlock].
  destruct HIf as (s1 & s2 & s3 & s5 & s6 & L & T & F & R1 & I1 & I2 & R3
                   & I3 & I5 & R6 & I6 & I' & _).
  simpl in I1, I5, I'.
  rewrite I' in Hlen. revert Hlen. len_norm. intros Hlen.
  rewrite IntFacts.to_int32_small in I5, I' by lia.
  rewrite IntFacts.to_int32_small in I' by lia.
  by exists s1, s2, s3, s5, s6, L, T, F.
Qed.

(** C5, as the code has it: a [Loop] node appends the constant 0 to
    [constant_table_] and emits LOADC on the index [c] of that new entry
    (the former size of the table, as an [int]), the loads of its inputs
    ([L]), a LOOP instruction whose [N] is the number of inputs of the
    node (the trip count and the condition included) and whose offset is
    0, the body once ([Body]), and a JMP back to the LOOP instruction;
    the LOOP is then patched to the offset [|Body| + 2], just past the
    JMP. *)
Theorem emitLoop_layout info inputs body blocks st st' :
  kind info = prim_Loop →
  emitNode' (mkNode info inputs (bcons body blocks)) st = Some (tt, st') →
  Z.of_nat (length (instructions_ st')) < 2 ^ 31 →
  Z.of_nat (values_size inputs) < 2 ^ 16 →
  ∃ s0 s1 s2 s3 c L Body,
    c = Int.to_int32 (Z.of_nat (length (constant_table_ st)))
    ∧ constant_table_ s0 = constant_table_ st ++ [IV_Int 0]
    ∧ (Z.of_nat (length (constant_table_ st)) < 2 ^ 31 →
       c = Z.of_nat (length (constant_table_ st))
       ∧ constant_table_ s0 !! Z.to_nat c = Some (IV_Int 0))
    ∧ instructions_ s0 = instructions_ st ++ [mkInstruction LOADC c 0]
    ∧ emitLoadInputs' inputs s0 = Some (tt, s1)
    ∧ instructions_ s1 = instructions_ s0 ++ L
    ∧ instructions_ s2 =
        instructions_ s1
          ++ [mkInstruction LOOP 0 (Z.of_nat (values_size inputs))]
    ∧ emitCodeForBlock' body s2 = Some (tt, s3)
    ∧ instructions_ s3 = instructions_ s2 ++ Body
    ∧ instructions_ st' =
        instructions_ st
          ++ Loop_code (λ b, Z.of_nat b + 2)
               (Z.of_nat (values_size inputs)) c L Body
    ∧ instructions_ st' !! (length (instructions_ st) + 1 + length L)%nat
      = Some (mkInstruction LOOP (Z.of_nat (length Body) + 2)
                (Z.of_nat (values_size inputs))).
Proof.
  intros Hkind H Hlen Hn. cbn [emitNode] in H. rewrite Hkind in H.
  unfold WithCurrentNode in H.
  destruct (emitLoop _ _ _ _) as [[[] st1]|] eqn:HLoop; [| done].
  injection H as <-. simpl in Hlen |- *.
  apply (emitLoop_post false) in HLoop;
    [| apply Good_Ext, Good_emitLoadInputs
     | apply Good_Ext, Good_emitCodeForBlock].
  destruct HLoop as (s0 & s1 & s2 & s3 & c & L & Body & Hc & C0 & I0 & R1
                     & I1 & I2 & R3 & I3 & I' & _).
  simpl in C0, I0, I'.
  assert (Hc' : c = Int.to_int32 (Z.of_nat (length (constant_table_ st)))).
  { rewrite Hc. apply IntFacts.to_int32_small.
    unfold Int.to_int32, Int.to_signed.
    pose proof (Z.mod_pos_bound
                  (Z.of_nat (length (constant_table_ st)) + 2 ^ (32 - 1))
                  (2 ^ 32) ltac:(lia)).
    lia. }
  assert (Hslot : Z.of_nat (length (constant_table_ st)) < 2 ^ 31 →
            c = Z.of_nat (length (constant_table_ st))
            ∧ constant_table_ s0 !! Z.to_nat c = Some (IV_Int 0)).
  { intros Hfit. rewrite Hc', IntFacts.to_int32_small by lia.
    split; [done |]. rewrite C0, Nat2Z.id.
    by rewrite lookup_app_r, Nat.sub_diag by lia. }
  rewrite I' in Hlen. revert Hlen. len_norm. intros Hlen.
  assert (HN : Int.to_uint16 (N_of_size (values_size inputs))
               = Z.of_nat (values_size inputs)).
  { unfold Int.to_uint16, N_of_size, Int.to_uint64, Int.to_unsigned.
    rewrite (Z.mod_small _ (2 ^ 64)) by lia. apply Z.mod_small. lia. }
  rewrite HN in I2, I'.
  rewrite !IntFacts.to_int32_small in I' by lia.
  exists s0, s1, s2, s3, c, L, Body. split_and!; try done.
  rewrite I'. unfold Loop_code.
  replace (length (instructions_ st) + 1 + length L)%nat
    with (length (instructions_ st ++ mkInstruction LOADC c 0 :: L))
    by (len_norm; lia).
  rewrite <- (lookup_middle (instructions_ st ++ mkInstruction LOADC c 0 :: L)
                (Body ++ [mkInstruction JMP
                            (- (Z.of_nat (length Body) + 1)) 0])).
  f_equal. by list_norm.
Qed.

End ControlFlow.

(** ** The mobile pre-pass *)

Lemma has_dot_append_dot n o : has_dot (n +:+ "." +:+ o) = true.
Proof. induction n as [| c n IH]; simpl; [done |]. by destruct (Ascii.eqb _ _). Qed.

Lemma append_dot_inj n1 : ∀ n2 o1 o2,
  has_dot n1 = false → has_dot n2 = false →
  n1 +:+ "." +:+ o1 = n2 +:+ "." +:+ o2 → n1 = n2 ∧ o1 = o2.
Proof.
  induction n1 as [| c1 n1 IH]; intros [| c2 n2] o1 o2 H1 H2 H; simpl in *.
  - by simplify_eq.
  - injection H as <- _. by rewrite Ascii.eqb_refl in H2.
  - injection H as -> _. by rewrite Ascii.eqb_refl in H1.
  - injection H as -> H.
    destruct (Ascii.eqb c2 _) eqn:Hc; [done |].
    destruct (IH _ _ _ H1 H2 H) as [-> ->]. done.
Qed.

Lemma unique_name_inj s1 s2 :
  has_dot (name s1) = false → has_dot (name s2) = false →
  unique_name s1 = unique_name s2 →
  name s1 = name s2 ∧ overload_name s1 = overload_name s2.
Proof.
  intros H1 H2. unfold unique_name.
  destruct (decide (overload_name s1 = "")) as [E1 | E1],
    (decide (overload_name s2 = "")) as [E2 | E2].
  - rewrite !bool_decide_eq_false_2 by (by intros ?). intros ->.
    by rewrite E1, E2.
  - rewrite bool_decide_eq_false_2 by (by intros ?).
    rewrite bool_decide_eq_true_2 by done. intros H.
    rewrite H, has_dot_append_dot in H1. done.
  - rewrite bool_decide_eq_true_2 by done.
    rewrite bool_decide_eq_false_2 by (by intros ?). intros H.
    rewrite <- H, has_dot_append_dot in H2. done.
  - rewrite !bool_decide_eq_true_2 by done. by apply append_dot_inj.
Qed.

Lemma filter_ext_elem_of {A} (P Q : A → Prop)
    `{∀ x, Decision (P x)} `{∀ x, Decision (Q x)} (l : list A) :
  (∀ x, x ∈ l → P x ↔ Q x) → filter P l = filter Q l.
Proof.
  induction l as [| x l IH]; intros HPQ; [done |].
  rewrite !filter_cons.
  rewrite IH by (intros y Hy; apply HPQ; by right).
  destruct (decide (P x)) as [HP | HP], (decide (Q x)) as [HQ | HQ];
    try done; exfalso; apply (HPQ x) in HP || apply (HPQ x) in HQ;
    try done; by left.
Qed.

Lemma filter_none {A} (P : A → Prop) `{∀ x, Decision (P x)} (l : list A) :
  (∀ x, x ∈ l → ¬ P x) → filter P l = [].
Proof.
  induction l as [| x l IH]; intros HP; [done |].
  rewrite filter_cons, IH by (intros y Hy; apply HP; by right).
  destruct (decide (P x)) as [Hx | Hx]; [| done].
  exfalso. apply (HP x); [by left | done].
Qed.

Section MobilePass.

Variable CalculateNecessaryArgs : list nat → Values → nat.

Abbreviation necessary := (necessary_args CalculateNecessaryArgs).

Lemma process_op_lookup table node key :
  process_op CalculateNecessaryArgs table node !! key =
  match call_site node with
  | Some site =>
      if decide (unique_name site.1 = key)
      then Some (Nat.max (necessary site) (default 0%nat (table !! key)))
      else table !! key
  | None => table !! key
  end.
Proof.
  unfold process_op, call_site.
  destruct (maybeOperator (info_of node)) as [op|]; [| done].
  destruct (is_vararg (schema op)); simpl; [done |].
  destruct (decide (unique_name (schema op) = key)) as [<- | Hne].
  - rewrite lookup_insert_eq. unfold necessary_args. simpl.
    destruct (table !! unique_name (schema op)) as [prev|] eqn:E.
    + by rewrite E.
    + by rewrite lookup_insert_eq.
  - rewrite lookup_insert_ne by done.
    destruct (table !! unique_name (schema op)); [done |].
    by rewrite lookup_insert_ne.
Qed.

Lemma foldl_process_op_lookup nodes :
  ∀ table key,
    foldl (process_op CalculateNecessaryArgs) table nodes !! key =
    match
      necessary <$>
        filter (λ s, unique_name s.1 = key) (omap call_site nodes)
    with
    | [] => table !! key
    | ns => Some (Nat.max (max_list ns) (default 0%nat (table !! key)))
    end.
Proof.
  induction nodes as [| node nodes IH]; intros table key; [done |].
  cbn [foldl]. rewrite IH, process_op_lookup.
  change (omap call_site (node :: nodes))
    with (match call_site node with
          | Some s => s :: omap call_site nodes
          | None => omap call_site nodes
          end).
  destruct (call_site node) as [site|]; [| done].
  rewrite filter_cons.
  destruct (decide (unique_name site.1 = key)) as [Hk | Hk]; [| done].
  rewrite fmap_cons.
  destruct (necessary <$> filter _ (omap call_site nodes)) as [| n ns];
    simpl; unfold id; f_equal; lia.
Qed.

(** C9, as the code has it: from an empty table, the pre-pass maps the
    unique name of every call site whose schema is not vararg to the
    maximum of the numbers of necessary arguments over the call sites
    that have this unique name, the string the table is keyed by; when
    no name of a call site holds the separator ['.'], these are the call
    sites of the same (name, overload) pair; a key that is the unique
    name of no such call site stays absent (vararg schemas are skipped);
    and nothing but the table changes. *)
Theorem process_ops_for_mobile_max graph st :
  op_to_num_specified_args_ st = ∅ →
  let st' := process_ops_for_mobile CalculateNecessaryArgs graph st in
  (∀ site,
     site ∈ call_sites graph →
     op_to_num_specified_args_ st' !! unique_name site.1
     = Some
         (max_list (necessary <$> same_unique_name site (call_sites graph))))
  ∧ (Forall (λ site, has_dot (name site.1) = false) (call_sites graph) →
     ∀ site,
       site ∈ call_sites graph →
       same_unique_name site (call_sites graph)
       = same_overload site (call_sites graph)
       ∧ op_to_num_specified_args_ st' !! unique_name site.1
         = Some
             (max_list (necessary <$> same_overload site (call_sites graph))))
  ∧ (∀ key,
       (∀ site, site ∈ call_sites graph → unique_name site.1 ≠ key) →
       op_to_num_specified_args_ st' !! key = None)
  ∧ st' = set_op_to_num_specified_args_ (op_to_num_specified_args_ st') st.
Proof.
  intros Hempty st'. unfold st', process_ops_for_mobile. simpl.
  rewrite Hempty. fold (call_sites graph).
  assert (Hmax : ∀ site,
            site ∈ call_sites graph →
            foldl (process_op CalculateNecessaryArgs) ∅
              (DepthFirstGraphNodeIterator graph) !! unique_name site.1
            = Some
                (max_list
                   (necessary <$> same_unique_name site (call_sites graph)))).
  { intros site Hsite. rewrite foldl_process_op_lookup.
    fold (call_sites graph). rewrite lookup_empty. simpl.
    fold (same_unique_name site (call_sites graph)).
    assert (Hin : site ∈ same_unique_name site (call_sites graph)).
    { unfold same_unique_name. by apply list_elem_of_filter. }
    destruct (same_unique_name site (call_sites graph)) as [| s ss].
    + by apply not_elem_of_nil in Hin.
    + simpl. f_equal. lia. }
  split_and!; [done | | | done].
  - intros Hdot site Hsite.
    assert (Hfilter :
      same_unique_name site (call_sites graph)
      = same_overload site (call_sites graph)).
    { unfold same_unique_name, same_overload. apply filter_ext_elem_of.
      intros s Hs. rewrite Forall_forall in Hdot. split.
      - apply unique_name_inj; by apply Hdot.
      - intros [Hn Ho]. unfold unique_name. by rewrite Hn, Ho. }
    split; [done |]. rewrite <- Hfilter. by apply Hmax.
  - intros key Hkey. rewrite foldl_process_op_lookup.
    fold (call_sites graph).
    assert (Hnil :
      filter (λ s, unique_name s.1 = key) (call_sites graph) = []).
    { apply filter_none. intros s Hs. by apply Hkey. }
    by rewrite Hnil.
Qed.

End MobilePass.

(** ** [MobileCodeImpl] emits what [CodeImpl] emits *)

Lemma Indep_insertBailoutBlocks_loop blocks :
  Indep (insertBailoutBlocks_loop blocks).
Proof. induction blocks as [| b blocks IH]; simpl; compo. Qed.

Lemma Indep_insertBailoutBlocks : Indep insertBailoutBlocks.
Proof.
  unfold insertBailoutBlocks. pose proof Indep_insertBailoutBlocks_loop.
  compo.
Qed.

Section MobileRefinement.

Variable can_emit_inline : NodeId → bool.
Variable FLAGS_torch_jit_disable_warning_prints : bool.
Variable CalculateNecessaryArgs : list nat → Values → nat.

(** With [MobileCodeImpl], the emitter is the one of [CodeImpl]. *)
Lemma MobileCodeImpl_emitCodeForBlock block :
  emitCodeForBlock can_emit_inline FLAGS_torch_jit_disable_warning_prints
    MobileCodeImpl_class block
  = emitCodeForBlock can_emit_inline FLAGS_torch_jit_disable_warning_prints
      CodeImpl_class block.
Proof. reflexivity. Qed.

(** C10: for every graph, [MobileCodeImpl] fails exactly when [CodeImpl]
    does and otherwise ends in the state of [CodeImpl] with the table of
    the pre-pass in [op_to_num_specified_args_]; so the instructions and
    the operator table are the same, whatever the pre-pass computed. *)
Theorem MobileCodeImpl_emits_as_CodeImpl graph :
  new_MobileCodeImpl can_emit_inline FLAGS_torch_jit_disable_warning_prints
    CalculateNecessaryArgs graph
  = set_op_to_num_specified_args_
      (op_to_num_specified_args_
         (process_ops_for_mobile CalculateNecessaryArgs graph
            (CodeImpl_init graph)))
    <$> new_CodeImpl can_emit_inline FLAGS_torch_jit_disable_warning_prints
          graph
  ∧ instructions_
    <$> new_MobileCodeImpl can_emit_inline
          FLAGS_torch_jit_disable_warning_prints CalculateNecessaryArgs graph
    = instructions_
      <$> new_CodeImpl can_emit_inline
            FLAGS_torch_jit_disable_warning_prints graph
  ∧ operator_table_
    <$> new_MobileCodeImpl can_emit_inline
          FLAGS_torch_jit_disable_warning_prints CalculateNecessaryArgs graph
    = operator_table_
      <$> new_CodeImpl can_emit_inline
            FLAGS_torch_jit_disable_warning_prints graph.
Proof.
  assert (H :
    new_MobileCodeImpl can_emit_inline
      FLAGS_torch_jit_disable_warning_prints CalculateNecessaryArgs graph
    = set_op_to_num_specified_args_
        (op_to_num_specified_args_
           (process_ops_for_mobile CalculateNecessaryArgs graph
              (CodeImpl_init graph)))
      <$> new_CodeImpl can_emit_inline
            FLAGS_torch_jit_disable_warning_prints graph).
  { unfold new_MobileCodeImpl, new_CodeImpl, exec, MobileCodeImpl_run.
    unfold bind at 1. unfold modify.
    rewrite MobileCodeImpl_emitCodeForBlock.
    fold (CodeImpl_run can_emit_inline
            FLAGS_torch_jit_disable_warning_prints graph).
    assert (HI : Indep (CodeImpl_run can_emit_inline
                          FLAGS_torch_jit_disable_warning_prints graph)).
    { unfold CodeImpl_run.
      pose proof (Good_Indep _ _ (Good_emitCodeForBlock can_emit_inline
                    FLAGS_torch_jit_disable_warning_prints CodeImpl_class
                    (block graph))).
      pose proof Indep_insertBailoutBlocks. compo. }
    unfold process_ops_for_mobile. rewrite HI.
    by destruct (CodeImpl_run _ _ _ _) as [[[] s]|]. }
  split_and!; [done | |]; rewrite H;
    by destruct (new_CodeImpl _ _ _).
Qed.

End MobileRefinement.

(** ** The theorems at the example graphs *)

Lemma compiled_jumps_valid_witness :
  new_CodeImpl Example.can_emit_inline false Example.Loop_graph
  = Some Example.Loop_program
  ∧ Z.of_nat (length (instructions_ Example.Loop_program)) < 2 ^ 31
  ∧ valid_jumps (instructions_ Example.Loop_program).
Proof.
  split; [vm_compute; reflexivity |].
  split; [vm_compute; reflexivity |].
  apply (compiled_jumps_valid Example.can_emit_inline false
           Example.Loop_graph Example.Loop_program);
    vm_compute; reflexivity.
Defined.

Lemma bailout_blocks_appended_witness :
  bailouts_registered_block Example.Inlined_inline
    (block Example.Inlined_graph) = false
  ∧ ∃ s_main,
      insertBailoutBlocks s_main = Some (tt, Example.Inlined_program)
      ∧ jf_instruction_index <$> bailout_blocks_ s_main = [5%nat]
      ∧ length (instructions_ s_main) = 9%nat
      ∧ ∃ jf,
          instructions_ Example.Inlined_program !! 5%nat = Some jf
          ∧ op jf = JF ∧ 5 + X jf = 9.
Proof.
  split; [vm_compute; reflexivity |].
  destruct (bailout_blocks_appended Example.Inlined_inline false
              Example.Inlined_graph Example.Inlined_program)
    as (s_main & Hmain & Hins & _ & _ & _ & _ & Patched & _).
  - vm_compute; reflexivity.
  - vm_compute; reflexivity.
  - assert (Hs : s_main = Example.Inlined_main).
    { assert (Hm : (emitCodeForBlock Example.Inlined_inline false
                      CodeImpl_class (block Example.Inlined_graph) >>
                    insertInstruction RET 0 0)
                     (CodeImpl_init Example.Inlined_graph)
                   = Some (tt, Example.Inlined_main))
        by (vm_compute; reflexivity).
      rewrite Hm in Hmain. by injection Hmain. }
    subst s_main. exists Example.Inlined_main.
    split; [exact Hins |].
    split; [vm_compute; reflexivity |].
    split; [vm_compute; reflexivity |].
    destruct (Patched 0%nat _ eq_refl) as (jf & Hjf & Hop & HX).
    exists jf. split; [exact Hjf |]. split; [exact Hop |].
    apply HX. intros k' b' Hk' Hb'. vm_compute in Hb'.
    destruct k' as [| k']; [lia | discriminate Hb'].
Defined.

Lemma request_bailout_kth_GUARD_witness :
  new_CodeImpl Example.can_emit_inline false Example.BailOut_graph
  = Some Example.BailOut_program
  ∧ GUARD_positions (instructions_ Example.BailOut_program) !! 0%nat
    = Some 4%nat
  ∧ ∃ guard,
      instructions_ Example.BailOut_program !! 4%nat = Some guard
      ∧ op guard = GUARD
      ∧ instructions_ (request_bailout 0 Example.BailOut_program) !! 4%nat
        = Some (mkInstruction FAIL_GUARD (X guard) (N guard)).
Proof.
  split; [vm_compute; reflexivity |].
  split; [vm_compute; reflexivity |].
  apply (request_bailout_kth_GUARD Example.can_emit_inline false
           Example.BailOut_graph Example.BailOut_program 0 4);
    vm_compute; reflexivity.
Defined.

Lemma emitIf_offsets_witness :
  emitNode Example.can_emit_inline false CodeImpl_class Example.If_node
    Example.If_state
  = Some (tt, Example.If_lowered)
  ∧ ∃ L T F,
      instructions_ Example.If_lowered
      = instructions_ Example.If_state
          ++ If_code (λ t, Z.of_nat t + 2) (λ f, Z.of_nat f + 1) L T F.
Proof.
  split; [vm_compute; reflexivity |].
  destruct (emitIf_offsets Example.can_emit_inline false CodeImpl_class
              Example.If_info (vcons Example.cond vnil) Example.block_true
              Example.block_false bnil Example.If_state Example.If_lowered)
    as (s1 & s2 & s3 & s5 & s6 & L & T & F & H).
  - reflexivity.
  - vm_compute; reflexivity.
  - vm_compute; reflexivity.
  - exists L, T, F. apply H.
Defined.

Lemma emitLoop_layout_witness :
  emitNode Example.can_emit_inline false CodeImpl_class Example.Loop_node
    Example.Loop_state
  = Some (tt, Example.Loop_lowered)
  ∧ constant_table_ Example.Loop_state = [IV_Int 1]
  ∧ ∃ L Body,
      instructions_ Example.Loop_lowered
      = instructions_ Example.Loop_state
          ++ Loop_code (λ b, Z.of_nat b + 2) 2 1 L Body.
Proof.
  split; [vm_compute; reflexivity |].
  split; [reflexivity |].
  destruct (emitLoop_layout Example.can_emit_inline false CodeImpl_class
              Example.Loop_info Example.Loop_inputs Example.Loop_body bnil
              Example.Loop_state Example.Loop_lowered)
    as (s0 & s1 & s2 & s3 & c & L & Body & Hc & _ & _ & _ & _ & _ & _ & _
        & _ & H & _).
  - reflexivity.
  - vm_compute; reflexivity.
  - vm_compute; reflexivity.
  - vm_compute; reflexivity.
  - exists L, Body. rewrite H, Hc. reflexivity.
Defined.

Lemma emitUse_LOAD_or_MOVE_witness :
  instructions_ ∘ snd
  <$> emitUse Example.can_emit_inline false CodeImpl_class Example.a false
        Example.If_state
  = Some (instructions_ Example.If_state ++ [mkInstruction LOAD 2 0]).
Proof.
  rewrite (emitUse_LOAD_or_MOVE Example.can_emit_inline false CodeImpl_class
             Example.a Example.If_state 2).
  - reflexivity.
  - reflexivity.
  - discriminate.
  - vm_compute; reflexivity.
  - lia.
Defined.

Lemma allocRegs_fresh_witness :
  allocRegs [1; 2; 3]%nat (CodeImpl_init Example.If_graph)
  = Some (1, Example.allocated)
  ∧ register_size_ Example.allocated = 3
  ∧ value_to_reg_ Example.allocated !! 2%nat = Some 2.
Proof.
  split; [vm_compute; reflexivity |].
  destruct (allocRegs_fresh Example.can_emit_inline false CodeImpl_class
              [1; 2; 3]%nat (CodeImpl_init Example.If_graph) 1
              Example.allocated)
    as (_ & HR & Hassigned & _).
  - vm_compute; reflexivity.
  - simpl. lia.
  - split; [exact HR |].
    apply (Hassigned 1%nat 2%nat eq_refl).
Defined.

Lemma emitConstant_lowering_witness :
  ∃ st',
    emitNodeAtBlockLevel Example.can_emit_inline
      (info_of Example.Const0) (ret tt) (ret tt)
      (CodeImpl_init Example.Const_graph)
    = Some (tt, st')
    ∧ Constant_lowered (mkOutput 10%nat Example.ty)
        (CodeImpl_init Example.Const_graph) st'.
Proof.
  destruct (emitConstant_lowering Example.can_emit_inline
              (info_of Example.Const0) (mkOutput 10%nat Example.ty)
              (ret tt) (ret tt) (CodeImpl_init Example.Const_graph))
    as [_ H].
  - reflexivity.
  - reflexivity.
  - destruct (H eq_refl (IV_Int 7) eq_refl) as (st' & Hst' & Hlow & _).
    + vm_compute; reflexivity.
    + exists st'. split; [exact Hst' | exact Hlow].
Defined.

Lemma process_ops_for_mobile_max_witness :
  op_to_num_specified_args_
    (process_ops_for_mobile Example.CalculateNecessaryArgs
       Example.Calls_graph (CodeImpl_init Example.Calls_graph))
  !! "aten::add.Tensor"
  = Some 3%nat.
Proof.
  destruct (process_ops_for_mobile_max Example.CalculateNecessaryArgs
              Example.Calls_graph (CodeImpl_init Example.Calls_graph))
    as (Hmax & _ & _).
  - reflexivity.
  - apply (Hmax (mkSchema "aten::add" "Tensor" [0; 1]%nat false,
                 vcons Example.Calls_a (vcons Example.Calls_b vnil))).
    vm_compute. left.
Defined.

(** ** Where the code differs from the specification *)

Lemma If_code_lookup jf_offset jmp_offset P L T F S :
  (P ++ If_code jf_offset jmp_offset L T F ++ S)
  !! (length P + length L)%nat
  = Some (mkInstruction JF (jf_offset (length T)) 0)
  ∧ (P ++ If_code jf_offset jmp_offset L T F ++ S)
    !! (length P + length L + 1 + length T)%nat
    = Some (mkInstruction JMP (jmp_offset (length F)) 0).
Proof.
  unfold If_code. split.
  - rewrite <- length_app. rewrite !app_assoc. rewrite <- !app_assoc.
    rewrite (app_assoc P L). apply lookup_middle.
  - replace (length P + length L + 1 + length T)%nat
      with (length (P ++ L ++ [mkInstruction JF (jf_offset (length T)) 0]
                      ++ T))
      by (len_norm; lia).
    rewrite <- (lookup_middle
                  (P ++ L ++ [mkInstruction JF (jf_offset (length T)) 0] ++ T)
                  (F ++ S)
                  (mkInstruction JMP (jmp_offset (length F)) 0)).
    f_equal. by list_norm.
Qed.

(** C4 at [z = if (cond) a+b else a-b; return z]: the compiled program
    is nowhere an [If] laid out with the JF offset [|T| + 1]. *)
Lemma If_offsets_counterexample :
  new_CodeImpl Example.can_emit_inline false Example.If_graph
  = Some Example.If_program
  ∧ ∀ P L T F S,
      instructions_ Example.If_program
      ≠ P ++ If_code (λ t, Z.of_nat t + 1) (λ f, Z.of_nat f + 1) L T F ++ S.
Proof.
  split; [vm_compute; reflexivity |].
  intros P L T F S H.
  destruct (If_code_lookup (λ t, Z.of_nat t + 1) (λ f, Z.of_nat f + 1)
              P L T F S) as [HJF HJMP].
  rewrite <- H in HJF, HJMP.
  set (i := (length P + length L)%nat) in *. clearbody i. clear H.
  assert (Hi : (i < 17)%nat) by (apply lookup_lt_Some in HJF; exact HJF).
  assert (i = 2%nat) as ->.
  { do 17 (destruct i as [| i];
           [first [reflexivity | vm_compute in HJF; discriminate HJF] |]).
    lia. }
  injection HJF as HT.
  assert (HT6 : length T = 6%nat) by lia.
  rewrite HT6 in HJMP. vm_compute in HJMP. discriminate HJMP.
Qed.

Lemma Loop_code_lookup loop_offset arity c P L Body S :
  (P ++ Loop_code loop_offset arity c L Body ++ S)
  !! (length P + 1 + length L)%nat
  = Some (mkInstruction LOOP (loop_offset (length Body)) arity).
Proof.
  unfold Loop_code.
  replace (length P + 1 + length L)%nat
    with (length (P ++ [mkInstruction LOADC c 0] ++ L)) by (len_norm; lia).
  rewrite <- (lookup_middle (P ++ [mkInstruction LOADC c 0] ++ L)
                (Body ++ [mkInstruction JMP
                            (- (Z.of_nat (length Body) + 1)) 0] ++ S)
                (mkInstruction LOOP (loop_offset (length Body)) arity)).
  f_equal. by list_norm.
Qed.

(** C5 at a loop without loop-carried values: the compiled program holds
    no LOOP instruction with [N = 0] and offset [|Body| + 1]; its LOOP has
    [N = 2] and offset [|Body| + 2]. *)
Lemma Loop_layout_counterexample :
  new_CodeImpl Example.can_emit_inline false Example.Loop_graph
  = Some Example.Loop_program
  ∧ instructions_ Example.Loop_program !! 4%nat
    = Some (mkInstruction LOOP 4 2)
  ∧ ∀ P c L Body S,
      instructions_ Example.Loop_program
      ≠ P ++ Loop_code (λ b, Z.of_nat b + 1) 0 c L Body ++ S.
Proof.
  split; [vm_compute; reflexivity |].
  split; [vm_compute; reflexivity |].
  intros P c L Body S H.
  pose proof (Loop_code_lookup (λ b, Z.of_nat b + 1) 0 c P L Body S) as HL.
  rewrite <- H in HL.
  set (i := (length P + 1 + length L)%nat) in *. clearbody i. clear H.
  assert (Hi : (i < 9)%nat) by (apply lookup_lt_Some in HL; exact HL).
  do 9 (destruct i as [| i]; [vm_compute in HL; discriminate HL |]).
  lia.
Qed.

(** C7 at two constants and an operator: the second constant and the
    result of the operator are both bound to the index 1. *)
Lemma value_to_reg_injective_counterexample :
  new_CodeImpl Example.can_emit_inline false Example.Const_graph
  = Some Example.Const_program
  ∧ ¬ value_to_reg_injective Example.Const_program.
Proof.
  split; [vm_compute; reflexivity |].
  intros Hinj.
  assert (H : 11%nat = 12%nat); [| discriminate H].
  apply (Hinj 11%nat 12%nat 1); vm_compute; reflexivity.
Qed.

(** C8 at a constant of function type: lowering it enters nothing into
    the constant table and binds nothing. *)
Lemma Constant_lowered_counterexample :
  ∃ st',
    emitNodeAtBlockLevel Example.can_emit_inline Example.Function_constant
      (ret tt) (ret tt) (CodeImpl_init Example.Const_graph)
    = Some (tt, st')
    ∧ constant_table_ st' = []
    ∧ value_to_reg_ st' !! 10%nat = None
    ∧ ¬ Constant_lowered Example.Function_constant_output
          (CodeImpl_init Example.Const_graph) st'.
Proof.
  eexists. split; [reflexivity |].
  split; [reflexivity |]. split; [reflexivity |].
  intros (_ & _ & Hbound). vm_compute in Hbound. discriminate Hbound.
Qed.

(** C9 at two schemas with one unique name: the call of [ns::op.out] takes
    three arguments and the only call of the overload [out] of [ns::op]
    takes one, yet the entry of the unique name of the latter is 3. *)
Lemma unique_name_shared_counterexample :
  ∃ site,
    site ∈ call_sites Example.Shared_graph
    ∧ name site.1 = "ns::op" ∧ overload_name site.1 = "out"
    ∧ max_list
        (necessary_args Example.CalculateNecessaryArgs
           <$> same_overload site (call_sites Example.Shared_graph))
      = 1%nat
    ∧ op_to_num_specified_args_
        (process_ops_for_mobile Example.CalculateNecessaryArgs
           Example.Shared_graph (CodeImpl_init Example.Shared_graph))
      !! unique_name site.1
      = Some 3%nat.
Proof.
  exists (mkSchema "ns::op" "out" [0; 1]%nat false,
          vcons (mkValue 1%nat 2%nat Example.ty Example.Shared_params) vnil).
  split_and!; [| reflexivity | reflexivity | vm_compute; reflexivity
               | vm_compute; reflexivity].
  vm_compute. right. left.
Qed.

(** C2 at a BailOut node that is lowered while another BailOut node loads
    its block: the block of the inner node is recorded at index 11, the
    position its JF had before the outer node cut its own block out of the
    main program, and the JF of the third node comes to stand there.  All
    three blocks are inserted; the JF at 11 is patched for the first and
    again for the third, and its target, 27, is the third block: the first
    starts at 15, the length of the main program.  The JF of the inner
    GUARD, which went into the second block, keeps the offset 0 it was
    emitted with. *)
Lemma bailout_jf_patched_twice :
  new_CodeImpl Example.Nested_inline false Example.Nested_graph
  = Some Example.Nested_program
  ∧ (emitCodeForBlock Example.Nested_inline false CodeImpl_class
       (block Example.Nested_graph) >>
     insertInstruction RET 0 0) (CodeImpl_init Example.Nested_graph)
    = Some (tt, Example.Nested_main)
  ∧ insertBailoutBlocks Example.Nested_main
    = Some (tt, Example.Nested_program)
  ∧ length (instructions_ Example.Nested_main) = 15%nat
  ∧ jf_instruction_index <$> bailout_blocks_ Example.Nested_main
    = [11; 5; 11]%nat
  ∧ instructions_ Example.Nested_program !! 11%nat
    = Some (mkInstruction JF 16 0)
  ∧ instructions_ Example.Nested_program !! 20%nat
    = Some (mkInstruction GUARD 1 0)
  ∧ instructions_ Example.Nested_program !! 21%nat
    = Some (mkInstruction JF 0 0)
  ∧ ¬ (∀ (k : nat) b,
         bailout_blocks_ Example.Nested_main !! k = Some b →
         ∃ jf,
           instructions_ Example.Nested_program !! jf_instruction_index b
           = Some jf
           ∧ op jf = JF
           ∧ Z.of_nat (jf_instruction_index b) + X jf =
               Z.of_nat
                 (length (instructions_ Example.Nested_main)
                  + length
                      (concat
                         (instructions <$>
                            take k (bailout_blocks_ Example.Nested_main))))).
Proof.
  split_and!; try (vm_compute; reflexivity).
  intros H. destruct (H 0%nat _ eq_refl) as (jf & Hjf & _ & HX).
  vm_compute in Hjf. injection Hjf as <-. vm_compute in HX. discriminate HX.
Qed.


(** * Further properties of the emitter *)

(** ** [safe_narrow_cast] *)

(** X1: [safe_narrow_cast] never fails and its result is always a value
    of the target type, [int32_t] for the operand [X] and [uint16_t] for
    the operand [N]; the result is the argument exactly when the argument
    fits the target type, and a value that does not fit is wrapped. *)
Theorem safe_narrow_cast_lossless v :
  (- 2 ^ 31 ≤ Int.safe_narrow_cast_int32 v < 2 ^ 31
   ∧ (Int.safe_narrow_cast_int32 v = v ↔ - 2 ^ 31 ≤ v < 2 ^ 31))
  ∧ (0 ≤ Int.safe_narrow_cast_uint16 v < 2 ^ 16
     ∧ (Int.safe_narrow_cast_uint16 v = v ↔ 0 ≤ v < 2 ^ 16)).
Proof.
  unfold Int.safe_narrow_cast_int32, Int.safe_narrow_cast_uint16,
    Int.to_int32, Int.to_uint16, Int.to_signed, Int.to_unsigned.
  pose proof (Z.mod_pos_bound (v + 2 ^ (32 - 1)) (2 ^ 32)).
  pose proof (Z.mod_pos_bound v (2 ^ 16)).
  split; split; [lia | split | lia | split].
  - lia.
  - intros Hv. rewrite Z.mod_small; lia.
  - lia.
  - intros Hv. rewrite Z.mod_small; lia.
Qed.

(** ** [truncateInstructions] and [createBailoutBlock] *)

(** X2: [createBailoutBlock(jf_index)] splits the instruction stream after
    the instruction at [jf_index]: what follows it becomes the
    instructions of a new block, recorded last in [bailout_blocks_] under
    [jf_index], and is cut off the stream, together with its entries of
    [instructions_source_]; no instruction is lost.  An index that is not a
    position of the stream is an error. *)
Theorem createBailoutBlock_splits jf_index st :
  match createBailoutBlock jf_index st with
  | Some (_, st') =>
      (jf_index < length (instructions_ st))%nat
      ∧ length (instructions_ st') = S jf_index
      ∧ (∃ b,
           bailout_blocks_ st' = bailout_blocks_ st ++ [b]
           ∧ jf_instruction_index b = jf_index
           ∧ instructions_ st' ++ instructions b = instructions_ st)
      ∧ (length (instructions_source_ st) = length (instructions_ st) →
         instructions_source_ st' = take (S jf_index) (instructions_source_ st))
  | None => (length (instructions_ st) ≤ jf_index)%nat
  end.
Proof.
  unfold createBailoutBlock, truncateInstructions, bind, size_of, gets,
    assert, modify.
  destruct (bool_decide_reflect (jf_index + 1 ≤ length (instructions_ st))%nat)
    as [Hle | Hgt]; simpl; [| lia].
  replace (length (instructions_ st)
           - (length (instructions_ st) - (jf_index + 1)))%nat
    with (S jf_index) by lia.
  split_and!.
  - lia.
  - rewrite length_take. lia.
  - eexists. split_and!; [reflexivity | done |]. simpl.
    replace (jf_index + 1)%nat with (S jf_index) by lia.
    apply take_drop.
  - intros ->. f_equal. lia.
Qed.

(** ** [allocRegs] *)

Lemma allocRegs_loop_cons v vs st :
  allocRegs_loop (v :: vs) st =
  match value_to_reg_ st !! v with
  | Some _ => None
  | None =>
      if bool_decide (register_size_ st + 1 ≤ Int.INT_MAX) then
        allocRegs_loop vs
          (set_value_to_reg_
             (<[v := register_size_ st + 1]> (value_to_reg_ st))
             (set_register_size_ (register_size_ st + 1) st))
      else None
  end.
Proof.
  cbn [allocRegs_loop]. unfold bind, gets, assert, modify, ret, throw.
  destruct (value_to_reg_ st !! v); simpl; [done |].
  by destruct (bool_decide _).
Qed.

Lemma allocRegs_loop_is_Some vs :
  ∀ st,
    is_Some (allocRegs_loop vs st) ↔
    NoDup vs
    ∧ (∀ v, v ∈ vs → value_to_reg_ st !! v = None)
    ∧ (vs ≠ [] → register_size_ st + Z.of_nat (length vs) ≤ Int.INT_MAX).
Proof.
  induction vs as [| v vs IH]; intros st.
  { simpl. split; [| by eexists]. intros _. split_and!.
    - constructor.
    - intros v Hv. by apply not_elem_of_nil in Hv.
    - done. }
  rewrite allocRegs_loop_cons.
  destruct (value_to_reg_ st !! v) as [r|] eqn:Hv.
  { split; [by intros [? [=]] |].
    intros (_ & Hfresh & _). rewrite Hfresh in Hv; [done | by left]. }
  destruct (bool_decide_reflect (register_size_ st + 1 ≤ Int.INT_MAX))
    as [Hmax | Hmax].
  2:{ split; [by intros [? [=]] |].
      intros (_ & _ & Hlen). specialize (Hlen ltac:(done)).
      simpl in Hlen. lia. }
  rewrite IH. simpl.
  rewrite NoDup_cons. split.
  - intros (Hnd & Hfresh & Hlen).
    assert (Hnin : v ∉ vs).
    { intros Hin. specialize (Hfresh _ Hin).
      by rewrite lookup_insert_eq in Hfresh. }
    split_and!; [done | done | |].
    + intros v' [-> | Hin]%elem_of_cons; [done |].
      specialize (Hfresh _ Hin).
      rewrite lookup_insert_ne in Hfresh; [done | by intros ->].
    + intros _. destruct vs as [| v' vs']; [simpl; lia |].
      specialize (Hlen ltac:(done)). simpl in *. lia.
  - intros ([Hnin Hnd] & Hfresh & Hlen).
    split_and!; [done | |].
    + intros v' Hin. rewrite lookup_insert_ne by (by intros ->).
      apply Hfresh. by right.
    + intros _. specialize (Hlen ltac:(done)). simpl in Hlen. lia.
Qed.

(** X3: [allocRegs(vs)] succeeds exactly when the values are pairwise
    distinct, none of them has an entry in [value_to_reg_] (the assertion
    of the loop), and the register counter stays within [int]: in the
    result [register_size_ + 1], which is computed also for no value at
    all, and in the increments of the loop. *)
Theorem allocRegs_succeeds_iff vs st :
  is_Some (allocRegs vs st) ↔
  NoDup vs
  ∧ (∀ v, v ∈ vs → value_to_reg_ st !! v = None)
  ∧ register_size_ st + 1 ≤ Int.INT_MAX
  ∧ register_size_ st + Z.of_nat (length vs) ≤ Int.INT_MAX.
Proof.
  unfold allocRegs, bind, gets, assert, ret, throw.
  destruct (bool_decide_reflect (register_size_ st + 1 ≤ Int.INT_MAX))
    as [Hmax | Hmax].
  2:{ split; [by intros [? [=]] | by intros (_ & _ & ? & _)]. }
  pose proof (allocRegs_loop_is_Some vs st) as Hloop.
  destruct (allocRegs_loop vs st) as [[[] st']|].
  - split; [| by eexists]. intros _.
    destruct Hloop as [(Hnd & Hfresh & Hlen) _]; [by eexists |].
    split_and!; [done | done | done |].
    destruct vs as [| v vs]; [simpl; lia | by apply Hlen].
  - split; [by intros [? [=]] |]. intros (Hnd & Hfresh & _ & Hlen).
    destruct Hloop as [_ Hloop].
    destruct Hloop as [? [=]]. by split_and!.
Qed.

(** ** [emitUse] on registered values *)

Section MoreUses.

Variable can_emit_inline : NodeId → bool.
Variable FLAGS_torch_jit_disable_warning_prints : bool.
Variable this : Impl.

(** X4: a use of a registered value that is dropped emits DROPR on its
    entry of [value_to_reg_], and a use, not dropped, of a value that a
    constant node defines emits LOADC on it, whatever the use counts: a
    constant is never moved.  Both uses increment the use counter of the
    value, and change nothing else. *)
Theorem emitUse_DROPR_or_LOADC input drop st reg :
  can_emit_inline (node_id (info_of (value_node input))) = false →
  value_to_reg_ st !! value_unique input = Some reg →
  drop = true ∨ kind (info_of (value_node input)) = prim_Constant →
  emitUse can_emit_inline FLAGS_torch_jit_disable_warning_prints this
    input drop st
  = Some
      (tt,
       set_instructions_source_
         (instructions_source_ st ++ [node_id (current_node_ st)])
         (set_instructions_
            (instructions_ st ++
               [mkInstruction (if drop then DROPR else LOADC)
                  (Int.to_int32 reg) 0])
            (set_use_count_
               (<[value_unique input :=
                    S (default 0%nat (use_count_ st !! value_unique input))]>
                  (use_count_ st)) st))).
Proof.
  intros Hinline Hreg Hcase.
  destruct input as [unique uses type node]. cbn [emitUse].
  unfold emitUse_body. simpl in *. rewrite Hinline.
  unfold registerFor, bind, gets, expect, modify, ret. simpl.
  rewrite Hreg. simpl. unfold insertInstruction. simpl.
  destruct drop; [done |].
  destruct Hcase as [? | Hkind]; [done |].
  by rewrite bool_decide_eq_true_2 by done.
Qed.

(** X5: a value that is neither lowered inline nor bound in
    [value_to_reg_] cannot be used: [registerFor] throws, and with it
    [emitUse], and [emitLoadInputs] and [emitDrop] on a list that starts
    with the value. *)
Theorem emitUse_unregistered_throws input rest drop st :
  can_emit_inline (node_id (info_of (value_node input))) = false →
  value_to_reg_ st !! value_unique input = None →
  registerFor (value_unique input) st = None
  ∧ emitUse can_emit_inline FLAGS_torch_jit_disable_warning_prints this
      input drop st = None
  ∧ emitLoadInputs can_emit_inline FLAGS_torch_jit_disable_warning_prints
      this (vcons input rest) st = None
  ∧ emitDrop can_emit_inline FLAGS_torch_jit_disable_warning_prints this
      (vcons input rest) st = None.
Proof.
  intros Hinline Hreg.
  assert (Hr : registerFor (value_unique input) st = None).
  { unfold registerFor, bind, gets. by rewrite Hreg. }
  assert (Hu : ∀ d,
            emitUse can_emit_inline FLAGS_torch_jit_disable_warning_prints
              this input d st = None).
  { intros d. destruct input as [unique uses type node]. cbn [emitUse].
    unfold emitUse_body. simpl in *. rewrite Hinline.
    unfold bind at 1. by rewrite Hr. }
  split_and!; [done | done | |].
  - cbn [emitLoadInputs]. unfold bind. by rewrite Hu.
  - cbn [emitDrop]. unfold bind. by rewrite Hu.
Qed.

End MoreUses.

Lemma emitUse_DROPR_or_LOADC_witness :
  instructions_ ∘ snd
  <$> emitUse Example.can_emit_inline false CodeImpl_class
        (mkValue 3%nat 1%nat Example.ty Example.Loop_flag) false Example.Loop_state
  = Some (instructions_ Example.Loop_state ++ [mkInstruction LOADC 0 0]).
Proof.
  rewrite (emitUse_DROPR_or_LOADC Example.can_emit_inline false
             CodeImpl_class (mkValue 3%nat 1%nat Example.ty Example.Loop_flag) false
             Example.Loop_state 0).
  - reflexivity.
  - reflexivity.
  - vm_compute; reflexivity.
  - right. reflexivity.
Defined.

Lemma emitUse_unregistered_throws_witness :
  emitLoadInputs Example.can_emit_inline false CodeImpl_class
    (vcons Example.a vnil) (CodeImpl_init Example.If_graph)
  = None.
Proof.
  apply (emitUse_unregistered_throws Example.can_emit_inline false
           CodeImpl_class Example.a vnil false
           (CodeImpl_init Example.If_graph)).
  - reflexivity.
  - vm_compute; reflexivity.
Defined.

(** ** The second overload of [emitLoadInputs] *)

Lemma values_take_all vs n :
  (values_size vs ≤ n)%nat → values_take n vs = vs.
Proof.
  revert n. induction vs as [| v vs IH]; intros [| n] Hn; simpl in *;
    try done; try lia.
  f_equal. apply IH. lia.
Qed.

Section MoreLoads.

Variable can_emit_inline : NodeId → bool.
Variable FLAGS_torch_jit_disable_warning_prints : bool.
Variable this : Impl.

Lemma emitLoadInputs_cons v vs :
  emitLoadInputs can_emit_inline FLAGS_torch_jit_disable_warning_prints
    this (vcons v vs)
  = (emitUse can_emit_inline FLAGS_torch_jit_disable_warning_prints this
       v false >>
     emitLoadInputs can_emit_inline FLAGS_torch_jit_disable_warning_prints
       this vs).
Proof. reflexivity. Qed.

Lemma emitLoadInputs_upto_loop_take inputs num_include :
  ∀ count st,
    emitLoadInputs_upto_loop can_emit_inline
      FLAGS_torch_jit_disable_warning_prints this inputs num_include count
      st
    = emitLoadInputs can_emit_inline FLAGS_torch_jit_disable_warning_prints
        this (values_take (Z.to_nat (num_include - count)) inputs) st.
Proof.
  induction inputs as [| v inputs IH]; intros count st.
  { simpl. by destruct (Z.to_nat _). }
  cbn [emitLoadInputs_upto_loop].
  destruct (bool_decide_reflect (count < num_include)) as [Hlt | Hge].
  - replace (Z.to_nat (num_include - count))
      with (S (Z.to_nat (num_include - (count + 1)))) by lia.
    cbn [values_take]. rewrite emitLoadInputs_cons. unfold bind.
    destruct (emitUse _ _ _ v false st) as [[[] s1]|]; [| done].
    apply IH.
  - rewrite IH.
    replace (Z.to_nat (num_include - count)) with 0%nat by lia.
    by destruct inputs.
Qed.

(** X6: [emitLoadInputs(inputs, num_include)] loads the first
    [num_include] inputs, as the one-argument overload does on that
    prefix: all of them when [num_include] is at least their number, none
    when it is zero or negative. *)
Theorem emitLoadInputs_upto_take inputs num_include st :
  emitLoadInputs_upto can_emit_inline
    FLAGS_torch_jit_disable_warning_prints this inputs num_include st
  = emitLoadInputs can_emit_inline FLAGS_torch_jit_disable_warning_prints
      this (values_take (Z.to_nat num_include) inputs) st
  ∧ (Z.of_nat (values_size inputs) ≤ num_include →
     emitLoadInputs_upto can_emit_inline
       FLAGS_torch_jit_disable_warning_prints this inputs num_include st
     = emitLoadInputs can_emit_inline
         FLAGS_torch_jit_disable_warning_prints this inputs st)
  ∧ (num_include ≤ 0 →
     emitLoadInputs_upto can_emit_inline
       FLAGS_torch_jit_disable_warning_prints this inputs num_include st
     = Some (tt, st)).
Proof.
  unfold emitLoadInputs_upto. rewrite emitLoadInputs_upto_loop_take.
  rewrite Z.sub_0_r. split_and!.
  - done.
  - intros Hn. by rewrite values_take_all by lia.
  - intros Hn. replace (Z.to_nat num_include) with 0%nat by lia.
    by destruct inputs.
Qed.

End MoreLoads.

(** ** [request_bailout] on any program *)

Lemma request_bailout_scan_past prog :
  ∀ (k i : nat),
    positions_from is_guard i prog !! k = None →
    request_bailout_scan k prog = prog.
Proof.
  induction prog as [| ins prog IH]; intros k i Hk; simpl in *; [done |].
  destruct (is_guard (op ins)).
  - destruct k as [| k]; simpl in Hk; [done |]. by rewrite (IH _ _ Hk).
  - by rewrite (IH _ _ Hk).
Qed.

Lemma request_bailout_scan_guards prog :
  ∀ (k i : nat),
    positions_from is_guard i (request_bailout_scan k prog)
    = positions_from is_guard i prog.
Proof.
  induction prog as [| ins prog IH]; intros k i; simpl; [done |].
  destruct (is_guard (op ins)) eqn:Hg.
  - destruct k as [| k]; simpl.
    + done.
    + by rewrite Hg, IH.
  - simpl. by rewrite Hg, IH.
Qed.

Lemma request_bailout_scan_commute prog :
  ∀ j k,
    request_bailout_scan j (request_bailout_scan k prog)
    = request_bailout_scan k (request_bailout_scan j prog).
Proof.
  induction prog as [| ins prog IH]; intros j k; simpl; [done |].
  destruct (is_guard (op ins)) eqn:Hg.
  - destruct j as [| j], k as [| k]; simpl; rewrite ?Hg; try done.
    by rewrite IH.
  - simpl. by rewrite Hg, IH.
Qed.

Lemma set_instructions_same st :
  set_instructions_ (instructions_ st) st = st.
Proof. by destruct st. Qed.

(** X7: on any program, patched before or not, [request_bailout(index)]
    counts GUARD and FAIL_GUARD instructions alike: when there is a guard
    number [index] (from 0, at position [j]), its opcode becomes
    FAIL_GUARD, with [X] and [N] kept, and no other instruction changes;
    when [index] is past the last guard, nothing changes at all. *)
Theorem request_bailout_any_program index st :
  match guard_positions (instructions_ st) !! index with
  | Some j =>
      ∃ guard,
        instructions_ st !! j = Some guard
        ∧ is_guard (op guard) = true
        ∧ instructions_ (request_bailout index st)
          = <[j := mkInstruction FAIL_GUARD (X guard) (N guard)]>
              (instructions_ st)
  | None =>
      (length (guard_positions (instructions_ st)) ≤ index)%nat
      ∧ request_bailout index st = st
  end.
Proof.
  destruct (guard_positions (instructions_ st) !! index) as [j|] eqn:Hk.
  - destruct (positions_from_lookup _ _ _ _ _ Hk) as (guard & Hj & HG & _).
    rewrite Nat.sub_0_r in Hj.
    destruct (request_bailout_scan_positions _ _ _ _ Hk) as [_ Hscan].
    rewrite Nat.sub_0_r in Hscan.
    exists guard. split_and!; [done | done |].
    unfold request_bailout. simpl. rewrite Hscan.
    apply list_eq. intros i. destruct (decide (i = j)) as [-> | Hne].
    + rewrite list_lookup_alter_eq, Hj.
      rewrite list_lookup_insert_eq by (by eapply lookup_lt_Some). done.
    + by rewrite list_lookup_alter_ne, list_lookup_insert_ne.
  - split; [by apply lookup_ge_None |].
    unfold request_bailout.
    rewrite (request_bailout_scan_past _ _ _ Hk).
    apply set_instructions_same.
Qed.

(** X8: a request leaves the positions of the guards as they are, so the
    indices of later requests keep their meaning, and two requests
    commute. *)
Theorem request_bailout_commute j k st :
  guard_positions (instructions_ (request_bailout k st))
  = guard_positions (instructions_ st)
  ∧ request_bailout j (request_bailout k st)
    = request_bailout k (request_bailout j st).
Proof.
  split.
  - apply request_bailout_scan_guards.
  - unfold request_bailout. destruct st; simpl.
    by rewrite request_bailout_scan_commute.
Qed.

(** ** The mobile pre-pass on any table *)

Section MoreMobile.

Variable CalculateNecessaryArgs : list nat → Values → nat.

(** X9: whatever [op_to_num_specified_args_] holds before, the pre-pass
    removes no entry and lowers none, and running it a second time on the
    same graph changes nothing. *)
Theorem process_ops_for_mobile_idempotent graph st :
  let st' := process_ops_for_mobile CalculateNecessaryArgs graph st in
  (∀ key n,
     op_to_num_specified_args_ st !! key = Some n →
     ∃ n', op_to_num_specified_args_ st' !! key = Some n' ∧ (n ≤ n')%nat)
  ∧ process_ops_for_mobile CalculateNecessaryArgs graph st' = st'.
Proof.
  intros st'. unfold st', process_ops_for_mobile. split.
  - intros key n Hkey. simpl. rewrite foldl_process_op_lookup, Hkey.
    destruct (_ <$> filter _ _) as [| m ms]; simpl.
    + exists n. by split.
    + eexists. split; [reflexivity |]. lia.
  - destruct st; unfold set_op_to_num_specified_args_; simpl. f_equal.
    apply map_eq. intros key. rewrite !foldl_process_op_lookup.
    destruct (_ <$> filter _ _) as [| m ms]; simpl; [done |].
    f_equal. lia.
Qed.

End MoreMobile.

(** ** What every emitter keeps *)

Lemma indexes_mono x size size' :
  (size ≤ size')%nat → indexes x size → indexes x size'.
Proof. intros Hle (k & Hk & ->). exists k. split; [lia | done]. Qed.

Lemma indexes_run_mono x n size size' :
  (size ≤ size')%nat → indexes_run x n size → indexes_run x n size'.
Proof.
  intros Hle (k & Hn & Hk & ->). exists k. split_and!; [done | lia | done].
Qed.

Lemma registers_run_mono x n size size' :
  size ≤ size' → registers_run x n size → registers_run x n size'.
Proof.
  intros Hle (r & H1 & Hr & ->). exists r. split_and!; try done; lia.
Qed.

Lemma operand_ok_mono st st' ins :
  tables_le st st' → operand_ok st ins → operand_ok st' ins.
Proof.
  intros (Ho & Hf & Ht & Hc & Hp & Hr). unfold operand_ok.
  destruct (op ins); try done;
    eauto using indexes_mono, indexes_run_mono, registers_run_mono.
Qed.

Lemma tables_le_refl st : tables_le st st.
Proof. unfold tables_le. split_and!; lia. Qed.

Lemma tables_le_trans st1 st2 st3 :
  tables_le st1 st2 → tables_le st2 st3 → tables_le st1 st3.
Proof. unfold tables_le. intros ? ?. split_and!; lia. Qed.

Lemma guards_followed_nil : guards_followed [].
Proof. intros i g Hi. by rewrite lookup_nil in Hi. Qed.

Lemma guards_followed_app c1 c2 :
  guards_followed c1 → guards_followed c2 → guards_followed (c1 ++ c2).
Proof.
  intros H1 H2 i g Hi Hg.
  destruct (decide (i < length c1)%nat) as [Hlt | Hge].
  - rewrite lookup_app_l in Hi by done.
    destruct (H1 _ _ Hi Hg) as (jf & Hjf & Hop). exists jf.
    split; [| done]. rewrite lookup_app_l; [done |].
    by eapply lookup_lt_Some.
  - rewrite lookup_app_r in Hi by lia.
    destruct (H2 _ _ Hi Hg) as (jf & Hjf & Hop). exists jf.
    split; [| done]. rewrite lookup_app_r by lia.
    by replace (S i - length c1)%nat with (S (i - length c1)) by lia.
Qed.

Lemma guards_followed_singleton ins :
  op ins ≠ GUARD → guards_followed [ins].
Proof.
  intros Hop [| i] g Hi Hg; simpl in Hi; [by simplify_eq |].
  by rewrite lookup_nil in Hi.
Qed.

Lemma guards_followed_pair guard jf :
  op jf = JF → guards_followed [guard; jf].
Proof.
  intros Hop [| [| i]] g Hi Hg; simpl in *.
  - by exists jf.
  - simplify_eq. by rewrite Hop in Hg.
  - by rewrite lookup_nil in Hi.
Qed.

Lemma guards_followed_suffix c1 c2 :
  guards_followed (c1 ++ c2) → guards_followed c2.
Proof.
  intros H i g Hi Hg.
  destruct (H (length c1 + i)%nat g) as (jf & Hjf & Hop); [| done |].
  - by rewrite lookup_app_r, Nat.add_comm, Nat.add_sub by lia.
  - exists jf. split; [| done].
    rewrite lookup_app_r in Hjf by lia.
    by replace (S (length c1 + i) - length c1)%nat with (S i) in Hjf by lia.
Qed.

(** Rewriting the operands of a run keeps its guards followed. *)
Lemma guards_followed_ops c1 c2 :
  op <$> c1 = op <$> c2 → guards_followed c1 → guards_followed c2.
Proof.
  intros Hops H i g Hi Hg.
  assert (Hop : ∀ j ins, c2 !! j = Some ins →
                  ∃ ins', c1 !! j = Some ins' ∧ op ins' = op ins).
  { intros j ins Hj.
    assert (Hl : (op <$> c1) !! j = Some (op ins))
      by (by rewrite Hops, list_lookup_fmap, Hj).
    rewrite list_lookup_fmap in Hl.
    destruct (c1 !! j) as [ins'|]; [| done]. exists ins'.
    split; [done |]. by injection Hl. }
  destruct (Hop _ _ Hi) as (g' & Hi' & Hg').
  destruct (H _ _ Hi' ltac:(congruence)) as (jf' & Hjf' & Hopjf).
  assert (Hl : (op <$> c2) !! S i = Some (op jf'))
    by (by rewrite <- Hops, list_lookup_fmap, Hjf').
  rewrite list_lookup_fmap in Hl.
  destruct (c2 !! S i) as [jf|]; [| done]. exists jf.
  split; [done |]. injection Hl as Hl. congruence.
Qed.

Lemma positions_from_app P c1 c2 :
  ∀ i,
    positions_from P i (c1 ++ c2)
    = positions_from P i c1 ++ positions_from P (i + length c1) c2.
Proof.
  induction c1 as [| ins c1 IH]; intros i; simpl.
  { by rewrite Nat.add_0_r. }
  rewrite IH. replace (S i + length c1)%nat with (i + S (length c1))%nat by lia.
  by destruct (P (op ins)).
Qed.

Lemma positions_from_ops P c1 c2 :
  op <$> c1 = op <$> c2 →
  ∀ i, positions_from P i c1 = positions_from P i c2.
Proof.
  revert c2. induction c1 as [| ins c1 IH]; intros [| ins2 c2] Hops i;
    simpl in *; try done.
  injection Hops as Hop Hops. by rewrite Hop, (IH _ Hops).
Qed.

Lemma positions_from_none P c :
  Forall (λ ins, P (op ins) = false) c → ∀ i, positions_from P i c = [].
Proof.
  induction 1 as [| ins c Hins _ IH]; intros i; simpl; [done |].
  by rewrite Hins.
Qed.

Lemma positions_from_nil_inv P c i :
  positions_from P i c = [] → Forall (λ ins, P (op ins) = false) c.
Proof.
  revert i. induction c as [| ins c IH]; intros i; simpl; [done |].
  destruct (P (op ins)) eqn:HP; [done |]. intros H. constructor; eauto.
Qed.

(** *** The relation [Emitted] *)

Section Emission.

Variable strict : bool.

Lemma Emitted_tables_le st st' code blocks :
Emitted strict st st' code blocks → tables_le st st'.
Proof.
intros E. unfold tables_le.
split_and!; try (apply prefix_length; apply E). apply E.
Qed.

Lemma block_kept_mono st st' b :
tables_le st st' → block_kept strict st b → block_kept strict st' b.
Proof.
intros Hle (Ho & Hg & Hs). split_and!; [| done | done].
eapply Forall_impl; [exact Ho |]. intros ins. by apply operand_ok_mono.
Qed.

Lemma Emitted_refl st : Emitted strict st st [] [].
Proof.
split; simpl; rewrite ?app_nil_r;
  first [done | lia | apply guards_followed_nil].
Qed.

Lemma Emitted_trans st1 st2 st3 c1 c2 b1 b2 :
Emitted strict st1 st2 c1 b1 → Emitted strict st2 st3 c2 b2 →
Emitted strict st1 st3 (c1 ++ c2) (b1 ++ b2).
Proof.
intros E1 E2. pose proof (Emitted_tables_le _ _ _ _ E2) as Hle.
destruct E1 as [I1 S1 O1 G1 B1 K1 F1 R1 ? ? ? ? ? ? ? Bd1 Uc1 ?].
destruct E2 as [I2 S2 O2 G2 B2 K2 F2 R2 ? ? ? ? ? ? ? Bd2 Uc2 ?].
split.
- rewrite I2, I1. by rewrite app_assoc.
- rewrite S2, S1, length_app. lia.
- apply Forall_app. split; [| done].
  eapply Forall_impl; [exact O1 |].
  intros ins. by apply operand_ok_mono.
- by apply guards_followed_app.
- rewrite B2, B1. by rewrite app_assoc.
- apply Forall_app. split; [| done].
  eapply Forall_impl; [exact K1 |].
  intros b. by apply block_kept_mono.
- rewrite F2, F1, length_app. lia.
- intros Hs. rewrite fmap_app, positions_from_app, fmap_app.
  rewrite (R1 Hs), (R2 Hs). by rewrite I1, length_app.
- by etrans.
- by etrans.
- by etrans.
- by etrans.
- by etrans.
- by etrans.
- lia.
- auto.
- intros v. specialize (Uc1 v). specialize (Uc2 v). lia.
- congruence.
Qed.

(** A step that touches none of the members [Emitted] speaks of, or only
  extends the tables and maps. *)
Lemma Emitted_same st st' :
instructions_ st' = instructions_ st →
instructions_source_ st' = instructions_source_ st →
bailout_blocks_ st' = bailout_blocks_ st →
bailout_functions_ st' = bailout_functions_ st →
constant_table_ st `prefix_of` constant_table_ st' →
operator_table_ st `prefix_of` operator_table_ st' →
function_table_ st `prefix_of` function_table_ st' →
forked_functions_ st `prefix_of` forked_functions_ st' →
type_table_ st `prefix_of` type_table_ st' →
profile_function_table_ st `prefix_of` profile_function_table_ st' →
register_size_ st ≤ register_size_ st' →
(∀ v, is_Some (value_to_reg_ st !! v) → is_Some (value_to_reg_ st' !! v)) →
(∀ v, (default 0 (use_count_ st !! v)
       ≤ default 0 (use_count_ st' !! v))%nat) →
current_node_ st' = current_node_ st →
Emitted strict st st' [] [].
Proof.
intros HI HS HB HF. intros.
split; simpl; rewrite ?app_nil_r, ?Nat.add_0_r;
  first [done | congruence | apply guards_followed_nil].
Qed.

(** *** [Sound] computations *)

Lemma Sound_ret {A} (a : A) : Sound strict (ret a).
Proof.
intros st b st' _ H. apply ret_Some in H as [-> ->].
eexists _, _. apply Emitted_refl.
Qed.

Lemma Sound_throw {A} : Sound strict (@throw A).
Proof. by intros st b st' _ H. Qed.

Lemma Sound_gets {A} (f : CodeImpl → A) : Sound strict (gets f).
Proof.
intros st b st' _ H. apply gets_Some in H as [-> ->].
eexists _, _. apply Emitted_refl.
Qed.

Lemma Sound_size_of {A} (f : CodeImpl → list A) : Sound strict (size_of f).
Proof. apply Sound_gets. Qed.

Lemma Sound_expect {A} (o : option A) : Sound strict (expect o).
Proof. destruct o; [apply Sound_ret | apply Sound_throw]. Qed.

Lemma Sound_assert b : Sound strict (assert b).
Proof. destruct b; [apply Sound_ret | apply Sound_throw]. Qed.

Lemma Sound_bind {A B} (m : M A) (f : A → M B) :
Sound strict m → (∀ a, Sound strict (f a)) → Sound strict (bind m f).
Proof.
intros Hm Hf st b st' Hpos H. apply bind_Some in H as (a & s1 & H1 & H2).
destruct (Hm _ _ _ Hpos H1) as (c1 & b1 & E1).
assert (Hpos1 : 0 ≤ register_size_ s1)
  by (pose proof (em_registers _ _ _ _ _ E1); lia).
destruct (Hf _ _ _ _ Hpos1 H2) as (c2 & b2 & E2).
eexists _, _. by eapply Emitted_trans.
Qed.

Lemma Sound_at part :
(∀ m, part = Some m → Sound strict m) → Sound strict (at_ part).
Proof. destruct part; [auto | intros _; apply Sound_throw]. Qed.

Lemma Sound_WithCurrentNode {A} n (body : M A) :
Sound strict body → Sound strict (WithCurrentNode n body).
Proof.
intros Hb st a st' Hpos H. unfold WithCurrentNode in H.
destruct (body _) as [[a1 s1]|] eqn:E; [| discriminate].
injection H as <- <-. apply Hb in E as (code & blocks & E); [| done].
exists code, blocks.
destruct E as [I1 S1 O1 G1 B1 K1 F1 R1 ? ? ? ? ? ? ? Bd1 Uc1 ?].
split; simpl in *; try done.
Qed.

Lemma Emitted_step st st' ins :
instructions_ st' = instructions_ st ++ [ins] →
length (instructions_source_ st') = S (length (instructions_source_ st)) →
bailout_blocks_ st' = bailout_blocks_ st →
bailout_functions_ st' = bailout_functions_ st →
constant_table_ st `prefix_of` constant_table_ st' →
operator_table_ st `prefix_of` operator_table_ st' →
function_table_ st `prefix_of` function_table_ st' →
forked_functions_ st `prefix_of` forked_functions_ st' →
type_table_ st `prefix_of` type_table_ st' →
profile_function_table_ st `prefix_of` profile_function_table_ st' →
register_size_ st ≤ register_size_ st' →
(∀ v, is_Some (value_to_reg_ st !! v) → is_Some (value_to_reg_ st' !! v)) →
(∀ v, (default 0 (use_count_ st !! v)
       ≤ default 0 (use_count_ st' !! v))%nat) →
current_node_ st' = current_node_ st →
operand_ok st' ins →
op ins ≠ GUARD →
Emitted strict st st' [ins] [].
Proof.
intros HI HS HB HF. intros. split; simpl; rewrite ?app_nil_r, ?Nat.add_0_r;
  try first [done | congruence | lia].
- by apply Forall_singleton.
- by apply guards_followed_singleton.
- intros _. unfold is_GUARD.
  by rewrite bool_decide_eq_false_2.
Qed.

(** A step of [modify] that keeps what [Emitted_same] asks for. *)
Lemma Sound_modify (f : CodeImpl → CodeImpl) :
(∀ st, Emitted strict st (f st) [] []) → Sound strict (modify f).
Proof.
intros Hf st [] st' _ H. apply modify_Some in H as ->. eauto.
Qed.

End Emission.

Lemma insertInstruction_view o x n st u st' :
  insertInstruction o x n st = Some (u, st') →
  ∃ l,
    st' =
      set_last_inserted_op_ l
        (set_instructions_source_
           (instructions_source_ st ++ [node_id (current_node_ st)])
           (set_instructions_
              (instructions_ st ++
                 [mkInstruction o (Int.to_int32 x) (Int.to_uint16 n)]) st)).
Proof.
  unfold insertInstruction. intros H.
  destruct (decide (o = OP)).
  - cbv zeta in H.
    destruct (match last_inserted_op_ _ with Some _ => _ | None => _ end);
      [| discriminate].
    simplify_eq. eauto.
  - simplify_eq. exists (last_inserted_op_ st). by destruct st.
Qed.

Lemma operand_ok_free st o x n :
  free_operand o = true → operand_ok st (mkInstruction o x n).
Proof. unfold operand_ok. by destruct o. Qed.

Lemma free_operand_GUARD o : free_operand o = true → o ≠ GUARD.
Proof. by intros H ->. Qed.

(** Solves the side conditions of [Emitted_same] and [Emitted_step] on a
    state that is given by the updates made to it. *)
Ltac kept_solve :=
  simpl;
  first
    [ reflexivity
    | done
    | lia
    | by apply prefix_app_r
    | rewrite ?length_app; simpl; lia
    | match goal with
      | |- ∀ v, is_Some _ → is_Some (<[?k := _]> _ !! v) =>
          let v := fresh "v" in
          intros v ?; destruct (decide (v = k)) as [-> |];
          rewrite ?lookup_insert_eq, ?lookup_insert_ne by done; eauto
      | |- ∀ v, (default _ _ ≤ default _ (<[?k := _]> _ !! v))%nat =>
          let v := fresh "v" in
          intros v; destruct (decide (v = k)) as [-> |];
          rewrite ?lookup_insert_eq, ?lookup_insert_ne by done; simpl; lia
      end ].

Section Primitives.

Variable strict : bool.

Lemma Sound_insertInstruction_free o x n :
free_operand o = true → Sound strict (insertInstruction o x n).
Proof.
intros Hfree st u st' _ H. apply insertInstruction_view in H as [l ->].
eexists _, _. apply Emitted_step; try kept_solve.
- by apply operand_ok_free.
- by apply free_operand_GUARD.
Qed.

End Primitives.

(** Decomposes a goal [Sound m] along the structure of [m]. *)
Ltac sound_step :=
  first
    [ assumption
    | match goal with
      | H : _ |- Sound _ _ => solve [apply H; auto]
      end
    | apply Sound_ret | apply Sound_throw
    | apply Sound_expect | apply Sound_assert
    | apply Sound_gets | apply Sound_size_of
    | apply Sound_modify; intros; apply Emitted_same; kept_solve
    | apply Sound_insertInstruction_free; reflexivity
    | apply Sound_WithCurrentNode
    | apply Sound_bind; [| intros ?]
    | apply Sound_at; intros ? [= <-]
    | progress cbv zeta
    | match goal with
      | |- Sound _ (if ?b then _ else _) => destruct b
      | |- Sound _ (match ?x with _ => _ end) => destruct x
      | |- Sound _ (insertInstruction (if ?b then _ else _) _ _) => destruct b
      end ].

Ltac sound := repeat sound_step.

Section SoundPrimitives.

Variable strict : bool.

Lemma Sound_allocRegs_loop vs : Sound strict (allocRegs_loop vs).
Proof. induction vs as [| v vs IH]; simpl; sound. Qed.

Lemma Sound_allocRegs vs : Sound strict (allocRegs vs).
Proof. pose proof (Sound_allocRegs_loop vs). unfold allocRegs. sound. Qed.

Lemma Sound_registerFor v : Sound strict (registerFor v).
Proof. unfold registerFor. sound. Qed.

Lemma Sound_insertConstant v : Sound strict (insertConstant v).
Proof. unfold insertConstant. sound. Qed.

Lemma Sound_output node : Sound strict (output node).
Proof. unfold output. sound. Qed.

Lemma Sound_emitConstant node : Sound strict (emitConstant node).
Proof.
pose proof Sound_output. pose proof Sound_insertConstant.
unfold emitConstant. sound.
Qed.

Lemma Sound_emitType t : Sound strict (emitType t).
Proof. unfold emitType. sound. Qed.

Lemma Sound_emitTypes_upto types num :
∀ i, Sound strict (emitTypes_upto types i num).
Proof.
pose proof Sound_emitType.
induction num as [| num IH]; intros i; simpl; sound.
Qed.

Lemma Sound_emitTypes types : Sound strict (emitTypes types).
Proof.
pose proof Sound_emitType.
induction types as [| t types IH]; simpl; sound.
Qed.

Lemma Sound_getAttributeSlot t field : Sound strict (getAttributeSlot t field).
Proof. unfold getAttributeSlot. sound. Qed.

Lemma Sound_getMethod methods method : Sound strict (getMethod methods method).
Proof. unfold getMethod. sound. Qed.

End SoundPrimitives.

(** *** The lowering rules *)

Lemma to_int32_idem z : Int.to_int32 (Int.to_int32 z) = Int.to_int32 z.
Proof.
  apply IntFacts.to_int32_small.
  unfold Int.to_int32, Int.to_signed.
  pose proof (Z.mod_pos_bound (z + 2 ^ (32 - 1)) (2 ^ 32) ltac:(lia)). lia.
Qed.

Lemma to_int32_X_of_size n : Int.to_int32 (X_of_size n) = Int.to_int32 (Z.of_nat n).
Proof. apply IntFacts.to_int32_to_int64. Qed.

Lemma to_uint16_N_of_size n :
  0 ≤ Int.to_uint16 (N_of_size n) ≤ Z.of_nat n.
Proof.
  unfold Int.to_uint16, N_of_size, Int.to_uint64, Int.to_unsigned.
  pose proof (Z.mod_pos_bound (Z.of_nat n) (2 ^ 64) ltac:(lia)).
  pose proof (Z.mod_pos_bound (Z.of_nat n mod 2 ^ 64) (2 ^ 16) ltac:(lia)).
  pose proof (Z.mod_le (Z.of_nat n) (2 ^ 64) ltac:(lia) ltac:(lia)).
  pose proof (Z.mod_le (Z.of_nat n mod 2 ^ 64) (2 ^ 16) ltac:(lia) ltac:(lia)).
  lia.
Qed.

(** Runs a computation that is given by its steps, to the state it ends
    in. *)
Ltac run_all :=
  repeat
    first
      [ inv_M_step
      | match goal with
        | H : insertInstruction _ _ _ _ = Some _ |- _ =>
            apply insertInstruction_view in H as [? ->]
        | H : (if ?b then _ else _) _ = Some _ |- _ => destruct b eqn:?
        end ].

(** An operand that is the size a table had before its last entry was
    added. *)
Ltac index_solve :=
  unfold operand_ok, indexes; simpl; eexists;
  split; [| first [apply to_int32_X_of_size | reflexivity]];
  rewrite ?length_app; simpl; lia.

Section SoundRules.

Variable strict : bool.
Variable can_emit_inline : NodeId → bool.
Variable FLAGS_torch_jit_disable_warning_prints : bool.

Lemma Sound_emitUse_body emitNode_input input drop :
  Sound strict emitNode_input →
  Sound strict (emitUse_body can_emit_inline emitNode_input input drop).
Proof.
  intros Hn. unfold emitUse_body.
  destruct (can_emit_inline _); [sound |].
  intros st u st' _ H. unfold registerFor in H. run_all.
  eexists [_], []. apply Emitted_step; try kept_solve.
  - apply operand_ok_free. by repeat case_match.
  - simpl. by repeat case_match.
Qed.

Lemma Sound_CodeImpl_emitOperator loads num_inputs node :
  Sound strict loads →
  Sound strict (CodeImpl_emitOperator loads num_inputs node).
Proof.
  intros Hl. unfold CodeImpl_emitOperator.
  apply Sound_bind; [done | intros _].
  apply Sound_bind; [apply Sound_expect | intros op].
  intros st u st' _ H. run_all.
  all: eexists [_], []; apply Emitted_step; try kept_solve; index_solve.
Qed.

Lemma Sound_emitOperator this loads num_inputs node :
  Sound strict loads →
  Sound strict (emitOperator this loads num_inputs node).
Proof.
  intros Hl. destruct this; simpl; [| unfold MobileCodeImpl_emitOperator];
    by apply Sound_CodeImpl_emitOperator.
Qed.

Lemma Sound_emitWait loads :
  Sound strict loads → Sound strict (emitWait loads).
Proof. intros Hl. unfold emitWait. sound. Qed.

Lemma Sound_emitCall func loads :
  Sound strict loads → Sound strict (emitCall func loads).
Proof.
  intros Hl. unfold emitCall. apply Sound_bind; [done | intros _].
  intros st u st' _ H. run_all.
  eexists [_], []; apply Emitted_step; try kept_solve; index_solve.
Qed.

Lemma Sound_emitStoreOutputs node : Sound strict (emitStoreOutputs node).
Proof.
  unfold emitStoreOutputs.
  destruct (bool_decide_reflect (length (outputs node) = 0%nat)) as [| Hne];
    [sound |].
  intros st u st' Hpos H.
  apply bind_Some in H as (regs & s1 & Ha & H).
  destruct (Sound_allocRegs strict _ _ _ _ Hpos Ha) as (c1 & b1 & E1).
  unfold allocRegs in Ha. apply bind_Some in Ha as (rs & s0 & Hg & Ha).
  apply gets_Some in Hg as [-> ->].
  apply bind_Some in Ha as ([] & s0 & Hresult & Ha).
  apply assert_Some in Hresult as [_ ->].
  apply bind_Some in Ha as ([] & s2 & Hloop & Ha).
  apply ret_Some in Ha as [-> ->].
  apply allocRegs_loop_Some in Hloop as (HR & _).
  rewrite length_fmap in HR.
  assert (E2 : ∃ ins, Emitted strict s2 st' [ins] []).
  { destruct (bool_decide_reflect (length (outputs node) = 1%nat))
      as [H1 | H1];
      apply insertInstruction_view in H as [l ->];
      eexists; apply Emitted_step; try kept_solve;
      unfold operand_ok, registers_run; simpl;
      exists (register_size_ st + 1);
      pose proof (to_uint16_N_of_size (length (outputs node)));
      split_and!; try done; lia. }
  destruct E2 as [ins E2]. eexists _, _. by eapply Emitted_trans.
Qed.

Lemma Sound_emitNodeAtBlockLevel node loads emitNode_node :
  Sound strict loads → Sound strict emitNode_node →
  Sound strict
    (emitNodeAtBlockLevel can_emit_inline node loads emitNode_node).
Proof.
  intros Hl Hn. unfold emitNodeAtBlockLevel.
  pose proof (Sound_emitConstant strict node).
  pose proof (Sound_emitStoreOutputs node). sound.
Qed.

Lemma emitTypes_upto_Some types num :
  ∀ i st u st',
    emitTypes_upto types i num st = Some (u, st') →
    (num ≠ 0%nat → (i + num ≤ length types)%nat)
    ∧ st' = set_type_table_
              (type_table_ st ++ take num (drop i types)) st.
Proof.
  induction num as [| num IH]; intros i st u st' H; simpl in H.
  { apply ret_Some in H as [_ ->]. split; [done |].
    rewrite app_nil_r. by destruct st. }
  unfold emitType in H. run_all.
  match goal with H : emitTypes_upto _ _ _ _ = _ |- _ =>
    apply IH in H as [Hle ->] end.
  match goal with H : types !! i = Some _ |- _ => rename H into Hi end.
  split; [apply lookup_lt_Some in Hi; lia |].
  unfold set_type_table_. simpl. f_equal.
  rewrite <- app_assoc. f_equal.
  by rewrite (drop_S _ _ _ Hi).
Qed.

Lemma emitTypes_Some types :
  ∀ st u st',
    emitTypes types st = Some (u, st') →
    st' = set_type_table_ (type_table_ st ++ types) st.
Proof.
  induction types as [| t types IH]; intros st u st' H; simpl in H.
  { apply ret_Some in H as [_ ->]. rewrite app_nil_r. by destruct st. }
  unfold emitType in H. run_all.
  match goal with H : emitTypes _ _ = _ |- _ => apply IH in H as -> end.
  unfold set_type_table_. simpl. f_equal. by rewrite <- app_assoc.
Qed.

Lemma Sound_emitTypeCheck loads num_inputs node :
  Sound strict loads → Sound strict (emitTypeCheck loads num_inputs node).
Proof.
  intros Hl. unfold emitTypeCheck.
  apply Sound_bind; [apply Sound_assert | intros _].
  apply Sound_bind; [done | intros _].
  intros st u st' _ H. run_all.
  match goal with H : emitTypes_upto _ _ _ _ = _ |- _ =>
    apply emitTypes_upto_Some in H as [Hle ->] end.
  eexists [_], []. apply Emitted_step; try kept_solve.
  unfold operand_ok, indexes_run. simpl.
  exists (length (type_table_ st)).
  pose proof (to_uint16_N_of_size num_inputs).
  split_and!; [lia | | apply to_int32_X_of_size].
  rewrite length_app, length_take, length_drop. lia.
Qed.

Lemma Sound_emitProfile loads node :
  Sound strict loads → Sound strict (emitProfile loads node).
Proof.
  intros Hl. unfold emitProfile. apply Sound_bind; [done | intros _].
  intros st u st' _ H. run_all.
  eexists [_], []; apply Emitted_step; try kept_solve; index_solve.
Qed.

Lemma Sound_emitGetAttr loads input_type node :
  Sound strict loads → Sound strict (emitGetAttr loads input_type node).
Proof.
  intros Hl. unfold emitGetAttr.
  pose proof (Sound_getAttributeSlot strict). sound.
Qed.

Lemma Sound_emitSetAttr loads input_type node :
  Sound strict loads → Sound strict (emitSetAttr loads input_type node).
Proof.
  intros Hl. unfold emitSetAttr.
  pose proof (Sound_getAttributeSlot strict). sound.
Qed.

Lemma Sound_emitInterfaceCall name loads num_inputs :
  Sound strict loads →
  Sound strict (emitInterfaceCall name loads num_inputs).
Proof.
  intros Hl. unfold emitInterfaceCall. apply Sound_bind; [done | intros _].
  intros st u st' _ H. unfold insertConstant in H. run_all.
  eexists [_], []; apply Emitted_step; try kept_solve.
  unfold operand_ok, indexes. simpl. eexists.
  split; [| apply to_int32_idem].
  rewrite length_app. simpl. lia.
Qed.

Lemma Sound_emitListUnpack loads node :
  Sound strict loads → Sound strict (emitListUnpack loads node).
Proof. intros Hl. unfold emitListUnpack. sound. Qed.

Lemma Sound_emitContainerConstruct op loads num_inputs node :
  op = NAMED_TUPLE_CONSTRUCT ∨ op = LIST_CONSTRUCT ∨ op = DICT_CONSTRUCT →
  Sound strict loads →
  Sound strict (emitContainerConstruct op loads num_inputs node).
Proof.
  intros Hop Hl. unfold emitContainerConstruct.
  apply Sound_bind; [done | intros _].
  apply Sound_bind; [apply Sound_output | intros o].
  intros st u st' _ H. unfold emitType in H. run_all.
  eexists [_], []; apply Emitted_step; try kept_solve.
  - destruct Hop as [-> | [-> | ->]]; index_solve.
  - simpl. by destruct Hop as [-> | [-> | ->]].
Qed.

Lemma Sound_emitTupleConstruct loads num_inputs node :
  Sound strict loads →
  Sound strict (emitTupleConstruct loads num_inputs node).
Proof.
  intros Hl. unfold emitTupleConstruct.
  pose proof (Sound_output strict node).
  pose proof (Sound_emitContainerConstruct NAMED_TUPLE_CONSTRUCT loads
                num_inputs node ltac:(auto) Hl).
  sound.
Qed.

Lemma Sound_emitCreateObject node : Sound strict (emitCreateObject node).
Proof.
  unfold emitCreateObject.
  apply Sound_bind; [apply Sound_output | intros o].
  intros st u st' _ H. unfold emitType in H. run_all.
  eexists [_], []; apply Emitted_step; try kept_solve; index_solve.
Qed.

Lemma Sound_emitIsinstance loads node :
  Sound strict loads → Sound strict (emitIsinstance loads node).
Proof.
  intros Hl. unfold emitIsinstance. apply Sound_bind; [done | intros _].
  apply Sound_bind; [apply Sound_expect | intros types].
  intros st u st' _ H. run_all.
  match goal with H : emitTypes _ _ = _ |- _ =>
    apply emitTypes_Some in H as -> end.
  eexists [_], []. apply Emitted_step; try kept_solve.
  unfold operand_ok, indexes_run. simpl.
  exists (length (type_table_ st)).
  pose proof (to_uint16_N_of_size (length types)).
  split_and!; [lia | | apply to_int32_X_of_size].
  rewrite length_app. lia.
Qed.

Lemma Sound_emitTupleSlice loads node :
  Sound strict loads → Sound strict (emitTupleSlice loads node).
Proof. intros Hl. unfold emitTupleSlice. sound. Qed.

Lemma Sound_emitFork loads num_inputs node :
  Sound strict loads → Sound strict (emitFork loads num_inputs node).
Proof.
  intros Hl. unfold emitFork. apply Sound_bind; [done | intros _].
  apply Sound_bind; [apply Sound_expect | intros subgraph].
  intros st u st' _ H. run_all.
  eexists [_], []; apply Emitted_step; try kept_solve.
  unfold operand_ok, indexes. simpl.
  exists (length (function_table_ st)).
  split; [rewrite length_app; simpl; lia |].
  rewrite IntFacts.to_int32_int64_size_sub, length_app. simpl.
  f_equal. lia.
Qed.

Lemma Sound_emitWarn loads node :
  Sound strict loads →
  Sound strict (emitWarn FLAGS_torch_jit_disable_warning_prints loads node).
Proof. intros Hl. unfold emitWarn. sound. Qed.

Lemma Sound_emitEnter loads :
  Sound strict loads → Sound strict (emitEnter loads).
Proof. intros Hl. unfold emitEnter. sound. Qed.

Lemma Sound_emitExit : Sound strict emitExit.
Proof. unfold emitExit. sound. Qed.

End SoundRules.

(** *** Backpatching and deferred blocks *)

Lemma Emitted_weaken strict st st' code blocks :
  Emitted strict st st' code blocks → Emitted false st st' code blocks.
Proof.
  intros [I1 S1 O1 G1 B1 K1 F1 R1 ? ? ? ? ? ? ? Bd1 Uc1 ?].
  split; try done.
  eapply Forall_impl; [exact K1 |]. intros b (? & ? & _). by split_and!.
Qed.

Lemma Emitted_strengthen strict st st' code blocks :
  Emitted false st st' code blocks →
  (strict = true →
   Forall (λ b, Forall (λ ins, op ins ≠ GUARD) (instructions b)) blocks
   ∧ jf_instruction_index <$> blocks
     = S <$> positions_from is_GUARD (length (instructions_ st)) code) →
  Emitted strict st st' code blocks.
Proof.
  intros [I1 S1 O1 G1 B1 K1 F1 R1 ? ? ? ? ? ? ? Bd1 Uc1 ?] Hs.
  split; try done.
  - apply Forall_forall. intros b Hb.
    rewrite Forall_forall in K1. destruct (K1 _ Hb) as (? & ? & _).
    split_and!; [done | done |]. intros Hst.
    destruct (Hs Hst) as [Hng _]. rewrite Forall_forall in Hng. auto.
  - intros Hst. by destruct (Hs Hst).
Qed.

Section Backpatching.

Variable strict : bool.

Lemma Emitted_insertInstruction_free o x n st u st' :
free_operand o = true →
insertInstruction o x n st = Some (u, st') →
Emitted strict st st'
  [mkInstruction o (Int.to_int32 x) (Int.to_uint16 n)] [].
Proof.
intros Hfree H. apply insertInstruction_view in H as [l ->].
apply Emitted_step; try kept_solve.
- by apply operand_ok_free.
- by apply free_operand_GUARD.
Qed.

(** Patching the offset of an instruction that was emitted since [st]. *)
Lemma Emitted_patch_X st s c1 ins c2 blocks i x u s' :
Emitted strict st s (c1 ++ ins :: c2) blocks →
i = (length (instructions_ st) + length c1)%nat →
free_operand (op ins) = true →
patch_X i x s = Some (u, s') →
Emitted strict st s' (c1 ++ set_X (Int.to_int32 x) ins :: c2) blocks.
Proof.
intros [I1 S1 O1 G1 B1 K1 F1 R1 ? ? ? ? ? ? ? Bd1 Uc1 ?] -> Hfree H.
apply patch_X_Some in H as (ins' & Hl & ->).
assert (HI : instructions_ s
             = (instructions_ st ++ c1) ++ ins :: c2)
  by (by rewrite I1, <- app_assoc).
rewrite HI in Hl. rewrite <- length_app, lookup_middle in Hl.
injection Hl as <-.
assert (Hops : op <$> c1 ++ ins :: c2
               = op <$> c1 ++ set_X (Int.to_int32 x) ins :: c2)
  by (by rewrite !fmap_app, !fmap_cons).
split; simpl; try done.
- rewrite HI, <- length_app, insert_middle. by rewrite <- app_assoc.
- rewrite length_app in S1 |- *. simpl in *. lia.
- rewrite Forall_app, Forall_cons in O1 |- *.
  destruct O1 as (? & _ & ?). split_and!; [done | | done].
  by apply operand_ok_free.
- by eapply guards_followed_ops.
- intros Hs. rewrite (R1 Hs). f_equal. by apply positions_from_ops.
Qed.

(** The GUARD of a bailout with its JF, after the type it checks was
  added to the type table. *)
Lemma Emitted_guard t st st1 s2 st' :
st1 = set_type_table_ (type_table_ st ++ [t]) st →
insertInstruction GUARD (X_of_size (length (type_table_ st))) 0 st1
= Some (tt, s2) →
insertInstruction JF 0 0 s2 = Some (tt, st') →
∃ guard,
  op guard = GUARD
  ∧ Emitted false st st' [guard; mkInstruction JF 0 0] [].
Proof.
intros -> Hg Hj.
apply insertInstruction_view in Hg as [l1 ->].
apply insertInstruction_view in Hj as [l2 ->].
exists (mkInstruction GUARD
          (Int.to_int32 (X_of_size (length (type_table_ st))))
          (Int.to_uint16 0)).
split; [reflexivity |].
split; simpl; rewrite ?app_nil_r, ?Nat.add_0_r; try kept_solve.
- rewrite <- app_assoc. reflexivity.
- repeat constructor. index_solve.
- by apply guards_followed_pair.
Qed.

(** The end of [emitBailOut]: the bailout function is recorded and the
  instructions after the JF become the deferred block. *)
Lemma Emitted_deferred st s c1 c2 blocks jf_index func u st' :
Emitted false st s (c1 ++ c2) blocks →
guards_followed c1 →
(jf_index + 1)%nat = (length (instructions_ st) + length c1)%nat →
createBailoutBlock jf_index
  (set_bailout_functions_ (bailout_functions_ s ++ [func]) s)
= Some (u, st') →
Emitted false st st' c1 (blocks ++ [mkBailoutBlock jf_index c2]).
Proof.
intros [I1 S1 O1 G1 B1 K1 F1 R1 ? ? ? ? ? ? ? Bd1 Uc1 ?] Hc1 Hjf H.
unfold createBailoutBlock, truncateInstructions in H. run_all.
apply Forall_app in O1 as [O1 O2].
split; simpl; try done.
- rewrite I1, Hjf, length_app.
  replace (length (instructions_ st) + length (c1 ++ c2)
           - (length (instructions_ st) + length (c1 ++ c2)
              - (length (instructions_ st) + length c1)))%nat
    with (length (instructions_ st ++ c1))
    by (rewrite !length_app; lia).
  by rewrite app_assoc, take_app_length.
- rewrite length_take, S1, I1, !length_app. lia.
- rewrite B1, I1, Hjf, <- length_app, app_assoc, drop_app_length.
  by rewrite <- app_assoc.
- apply Forall_app. split; [done |]. apply Forall_singleton.
  split_and!; simpl; [done | | done].
  by eapply guards_followed_suffix.
- rewrite length_app, F1, !length_app. simpl. lia.
Qed.

End Backpatching.

Lemma Emitted_nonneg strict st st' code blocks :
  Emitted strict st st' code blocks →
  0 ≤ register_size_ st → 0 ≤ register_size_ st'.
Proof. intros E. pose proof (em_registers _ _ _ _ _ E). lia. Qed.

Lemma Emitted_length strict st st' code blocks :
  Emitted strict st st' code blocks →
  length (instructions_ st') = (length (instructions_ st) + length code)%nat.
Proof. intros E. by rewrite (em_instructions _ _ _ _ _ E), length_app. Qed.

Section ControlRules.

Variable strict : bool.

Lemma Sound_emitIf loads block0 block1 :
Sound strict loads →
(∀ m, block0 = Some m → Sound strict m) →
(∀ m, block1 = Some m → Sound strict m) →
Sound strict (emitIf loads block0 block1).
Proof.
intros Hl H0 H1 st u st' Hpos H.
destruct block0 as [m0|]; [| by rewrite emitIf_throws in H; auto].
destruct block1 as [m1|]; [| by rewrite emitIf_throws in H; auto].
specialize (H0 _ eq_refl). specialize (H1 _ eq_refl).
unfold emitIf in H.
apply bind_Some in H as ([] & s1 & R1 & H).
destruct (Hl _ _ _ Hpos R1) as (L & bL & E1).
apply bind_Some in H as (start_if & ? & Hg & H).
apply size_of_Some in Hg as [-> ->].
apply bind_Some in H as ([] & s2 & R2 & H).
apply (Emitted_insertInstruction_free strict) in R2; [| done].
pose proof (Emitted_trans _ _ _ _ _ _ _ _ E1 R2) as E2.
apply bind_Some in H as ([] & s3 & R3 & H). simpl in R3.
destruct (H0 _ _ _ (Emitted_nonneg _ _ _ _ _ E2 Hpos) R3) as (T & bT & E3).
pose proof (Emitted_trans _ _ _ _ _ _ _ _ E2 E3) as E3'.
apply bind_Some in H as ([] & s4 & R4 & H).
apply (Emitted_insertInstruction_free strict) in R4; [| done].
pose proof (Emitted_trans _ _ _ _ _ _ _ _ E3' R4) as E4.
apply bind_Some in H as (start_else & ? & Hg & H).
apply size_of_Some in Hg as [-> ->].
apply bind_Some in H as ([] & s5 & R5 & H).
rewrite <- !app_assoc in E4. simpl in E4.
eapply Emitted_patch_X in R5; [| exact E4 | | done].
2:{ by rewrite (Emitted_length _ _ _ _ _ E1). }
apply bind_Some in H as ([] & s6 & R6 & H). simpl in R6.
destruct (H1 _ _ _ (Emitted_nonneg _ _ _ _ _ R5 Hpos) R6) as (F & bF & E6).
pose proof (Emitted_trans _ _ _ _ _ _ _ _ R5 E6) as E6'.
apply bind_Some in H as (size & ? & Hg & H).
apply size_of_Some in Hg as [-> ->].
assert (Hc : ∀ (jf jmp : Instruction),
          (L ++ jf :: T ++ [jmp]) ++ F = (L ++ jf :: T) ++ jmp :: F)
  by (intros; by list_norm).
rewrite Hc in E6'.
eapply Emitted_patch_X in H; [| exact E6' | | done].
- eauto.
- rewrite (Emitted_length _ _ _ _ _ E4), !length_app. simpl.
  rewrite !length_app. simpl. lia.
Qed.

Lemma Sound_emitLoop loads num_inputs block0 :
Sound strict loads →
(∀ m, block0 = Some m → Sound strict m) →
Sound strict (emitLoop loads num_inputs block0).
Proof.
intros Hl H0 st u st' Hpos H.
destruct block0 as [m0|]; [| by rewrite emitLoop_throws in H].
specialize (H0 _ eq_refl).
unfold emitLoop in H.
apply bind_Some in H as (c & s0 & R0 & H).
destruct (Sound_insertConstant strict _ _ _ _ Hpos R0) as (? & ? & E0).
apply bind_Some in H as ([] & s0' & R0' & H).
apply (Emitted_insertInstruction_free strict) in R0'; [| done].
pose proof (Emitted_trans _ _ _ _ _ _ _ _ E0 R0') as E0'.
apply bind_Some in H as ([] & s1 & R1 & H).
destruct (Hl _ _ _ (Emitted_nonneg _ _ _ _ _ E0' Hpos) R1) as (L & bL & E1).
pose proof (Emitted_trans _ _ _ _ _ _ _ _ E0' E1) as E1'.
apply bind_Some in H as (start & ? & Hg & H).
apply size_of_Some in Hg as [-> ->].
apply bind_Some in H as ([] & s2 & R2 & H).
apply (Emitted_insertInstruction_free strict) in R2; [| done].
pose proof (Emitted_trans _ _ _ _ _ _ _ _ E1' R2) as E2.
apply bind_Some in H as ([] & s3 & R3 & H). simpl in R3.
destruct (H0 _ _ _ (Emitted_nonneg _ _ _ _ _ E2 Hpos) R3) as (B & bB & E3).
pose proof (Emitted_trans _ _ _ _ _ _ _ _ E2 E3) as E3'.
apply bind_Some in H as (size & ? & Hg & H).
apply size_of_Some in Hg as [-> ->].
apply bind_Some in H as ([] & s4 & R4 & H).
apply (Emitted_insertInstruction_free strict) in R4; [| done].
pose proof (Emitted_trans _ _ _ _ _ _ _ _ E3' R4) as E4.
apply bind_Some in H as (size & ? & Hg & H).
apply size_of_Some in Hg as [-> ->].
assert (Hc : ∀ (c1 : list Instruction) lp jmp,
          ((c1 ++ [lp]) ++ B) ++ [jmp] = c1 ++ lp :: B ++ [jmp])
  by (intros; by list_norm).
rewrite Hc in E4.
eapply Emitted_patch_X in H; [| exact E4 | | done].
- eauto.
- by rewrite (Emitted_length _ _ _ _ _ E1').
Qed.

Lemma Sound_emitBailOut load_guarded subgraph load_rest node :
(∀ m, load_guarded = Some m → Sound strict m) →
(∀ m, load_rest = Some m → Sound strict m) →
(∀ m, load_rest = Some m → strict = true → NoBlocks m) →
Sound strict (emitBailOut load_guarded subgraph load_rest node).
Proof.
intros Hg Hr Hnb st u st' Hpos H.
destruct load_guarded as [mg|];
  [| by rewrite emitBailOut_throws in H; auto].
destruct load_rest as [mr|]; [| by rewrite emitBailOut_throws in H; auto].
specialize (Hg _ eq_refl). specialize (Hr _ eq_refl).
specialize (Hnb _ eq_refl).
unfold emitBailOut in H.
apply bind_Some in H as (jf_index & s2 & HG & H).
unfold emitGuard in HG.
apply bind_Some in HG as ([] & s1 & R1 & HG). simpl in R1.
destruct (Hg _ _ _ Hpos R1) as (Lg & bg & E1).
apply bind_Some in HG as (o & ? & Ho & HG).
apply expect_Some in Ho as [Ho ->].
unfold emitType in HG.
apply bind_Some in HG as (t & st1 & Ht & HG).
apply bind_Some in Ht as (t' & ? & Hsz & Ht).
apply size_of_Some in Hsz as [-> ->].
apply bind_Some in Ht as ([] & ? & Hm & Ht).
apply modify_Some in Hm as ->. apply ret_Some in Ht as [-> ->].
apply bind_Some in HG as ([] & sg & Rg & HG).
apply bind_Some in HG as ([] & sj & Rj & HG).
apply bind_Some in HG as (size & ? & Hsz & HG).
apply size_of_Some in Hsz as [-> ->].
apply ret_Some in HG as [-> ->].
destruct (Emitted_guard _ _ _ _ _ eq_refl Rg Rj) as (guard & Hop & E2).
pose proof (Emitted_trans _ _ _ _ _ _ _ _ (Emitted_weaken _ _ _ _ _ E1) E2)
  as E2'.
apply bind_Some in H as (unoptimized_graph & ? & Hu & H).
apply expect_Some in Hu as [Hu ->].
apply bind_Some in H as ([] & s3 & R3 & H). simpl in R3.
destruct (Hr _ _ _ (Emitted_nonneg _ _ _ _ _ E2' Hpos) R3) as (R & br & E3).
pose proof (Emitted_trans _ _ _ _ _ _ _ _ E2' (Emitted_weaken _ _ _ _ _ E3))
  as E3'.
apply bind_Some in H as (size & ? & Hsz & H).
apply size_of_Some in Hsz as [-> ->].
apply bind_Some in H as ([] & s4 & R4 & H).
apply insertInstruction_view in R4 as [l ->].
apply bind_Some in H as ([] & ? & Ha & H).
apply assert_Some in Ha as [_ ->].
apply bind_Some in H as (bailout_index & ? & Hi & H).
apply expect_Some in Hi as [Hi ->].
apply bind_Some in H as ([] & ? & Ha & H).
apply assert_Some in Ha as [_ ->].
apply bind_Some in H as ([] & s5 & Hm & H).
apply modify_Some in Hm as ->.
apply bind_Some in H as ([] & s6 & Hm & H).
apply modify_Some in Hm as ->.
match type of H with
| createBailoutBlock _ (set_bailout_functions_ _ ?s) = _ =>
    assert (E4 : ∃ tail_call,
              op tail_call = TAIL_CALL
              ∧ Emitted false s3 s [tail_call] [])
end.
{ eexists (mkInstruction TAIL_CALL _ _). split; [reflexivity |].
  apply Emitted_step; try kept_solve. index_solve. }
destruct E4 as (tail_call & Htc & E4).
pose proof (Emitted_trans _ _ _ _ _ _ _ _ E3' E4) as E4'.
rewrite <- !app_assoc in E4'. rewrite (app_assoc Lg) in E4'.
eapply Emitted_deferred in H; [| exact E4' | |].
- eexists _, _. apply Emitted_strengthen; [exact H |].
  intros Hs. specialize (Hnb Hs _ _ _ R3).
  assert (Hbr : br = []).
  { pose proof (em_blocks _ _ _ _ _ E3) as Hb. rewrite Hnb in Hb.
    apply (app_inv_head (bailout_blocks_ sj)). by rewrite app_nil_r. }
  subst br.
  pose proof (em_recorded _ _ _ _ _ E3 Hs) as HR. simpl in HR.
  symmetry in HR. apply fmap_nil_inv in HR.
  apply positions_from_nil_inv in HR.
  pose proof (em_blocks_kept _ _ _ _ _ E1) as K1.
  pose proof (em_recorded _ _ _ _ _ E1 Hs) as R1'.
  split.
  + rewrite ?app_nil_r. rewrite Forall_app, Forall_singleton. simpl. split.
    * eapply Forall_impl; [exact K1 |]. intros b (_ & _ & Hb). auto.
    * rewrite Forall_app, Forall_singleton. split; [| by rewrite Htc].
      eapply Forall_impl; [exact HR |]. intros ins Hins. simpl in Hins.
      unfold is_GUARD in Hins. by apply bool_decide_eq_false in Hins.
  + rewrite ?app_nil_r.
    rewrite !fmap_app, positions_from_app, fmap_app. simpl.
    rewrite R1'. unfold is_GUARD. rewrite Hop.
    rewrite bool_decide_eq_true_2 by done. simpl. do 2 f_equal.
    rewrite (Emitted_length _ _ _ _ _ E2'), length_app. simpl. lia.
- apply guards_followed_app; [apply E1 | by apply guards_followed_pair].
- rewrite (Emitted_length _ _ _ _ _ E2'), !length_app. simpl. lia.
Qed.

End ControlRules.

(** *** Every emitter is [Sound] *)

Section SoundEmitters.

Variable strict : bool.
Variable can_emit_inline : NodeId → bool.
Variable FLAGS_torch_jit_disable_warning_prints : bool.
Variable this : Impl.

Abbreviation emitNode' :=
  (emitNode can_emit_inline FLAGS_torch_jit_disable_warning_prints this).
Abbreviation emitUse' :=
  (emitUse can_emit_inline FLAGS_torch_jit_disable_warning_prints this).
Abbreviation emitLoadInputs' :=
  (emitLoadInputs can_emit_inline FLAGS_torch_jit_disable_warning_prints
     this).
Abbreviation emitDrop' :=
  (emitDrop can_emit_inline FLAGS_torch_jit_disable_warning_prints this).
Abbreviation emitCodeForBlock' :=
  (emitCodeForBlock can_emit_inline FLAGS_torch_jit_disable_warning_prints
     this).
Abbreviation emitNodes' :=
  (emitNodes can_emit_inline FLAGS_torch_jit_disable_warning_prints this).

Abbreviation Sound_values :=
  (values_Sound strict can_emit_inline
     FLAGS_torch_jit_disable_warning_prints this).
Abbreviation Sound_blocks :=
  (blocks_Sound strict can_emit_inline
     FLAGS_torch_jit_disable_warning_prints this).

Lemma Sound_values_loads vs : Sound_values vs → Sound strict (emitLoadInputs' vs).
Proof. destruct vs; simpl; tauto. Qed.

Lemma Sound_block0 blocks m :
  Sound_blocks blocks →
  match blocks with
  | bcons b _ => Some (emitCodeForBlock' b)
  | bnil => None
  end = Some m →
  Sound strict m.
Proof. destruct blocks; simpl; [done |]. by intros [? _] [= <-]. Qed.

Lemma Sound_block1 blocks m :
  Sound_blocks blocks →
  match blocks with
  | bcons _ (bcons b _) => Some (emitCodeForBlock' b)
  | _ => None
  end = Some m →
  Sound strict m.
Proof.
  destruct blocks as [| b0 [| b1 bs]]; simpl; [done | by intros _ ? |].
  by intros (_ & ? & _) [= <-].
Qed.

Lemma Sound_emitNode_of_parts info inputs blocks :
  (strict = true →
   bailout_inputs_registered can_emit_inline (kind info) inputs = true) →
  Sound_values inputs → Sound_blocks blocks →
  Sound strict (emitNode' (mkNode info inputs blocks)).
Proof.
  intros Hreg Hv Hb. pose proof (Sound_values_loads _ Hv) as Hl.
  pose proof (Sound_block0 blocks) as Hb0.
  pose proof (Sound_block1 blocks) as Hb1.
  cbn [emitNode]. apply Sound_WithCurrentNode.
  revert Hreg. destruct (kind info); intros Hreg.
  - (* prim::Drop *) destruct inputs; simpl in Hv; tauto.
  - apply Sound_emitConstant.
  - apply Sound_emitIf; eauto.
  - apply Sound_emitLoop; eauto.
  - by apply Sound_emitWait.
  - apply Sound_ret.
  - by apply Sound_emitOperator.
  - (* prim::CallFunction *)
    destruct inputs as [| callee args]; [sound |].
    destruct Hv as (_ & _ & _ & Hargs).
    apply Sound_values_loads in Hargs.
    pose proof (Sound_emitCall) as Hc. sound.
  - (* prim::CallMethod *)
    destruct inputs as [| self args]; [sound |].
    pose proof Sound_getMethod. pose proof Sound_emitCall.
    pose proof Sound_emitInterfaceCall. sound.
  - by apply Sound_emitTypeCheck.
  - (* prim::BailOut *)
    destruct inputs as [| unoptimized [| guarded rest]];
      try (apply Sound_emitBailOut; by intros ? [=]).
    destruct Hv as (_ & _ & _ & _ & _ & Hguarded & Hrest).
    apply Sound_values_loads in Hrest.
    apply Sound_emitBailOut; intros ? [= <-]; [| done |].
    + specialize (Hguarded false). sound.
    + intros Hs. apply NoBlocks_registered. by apply Hreg.
  - by apply Sound_emitProfile.
  - by apply Sound_emitProfile.
  - by apply Sound_emitGetAttr.
  - by apply Sound_emitSetAttr.
  - by apply Sound_emitListUnpack.
  - by apply Sound_emitTupleConstruct.
  - apply Sound_emitContainerConstruct; auto.
  - apply Sound_emitContainerConstruct; auto.
  - apply Sound_emitCreateObject.
  - by apply Sound_emitIsinstance.
  - by apply Sound_emitTupleSlice.
  - by apply Sound_emitFork.
  - by apply Sound_emitWarn.
  - by apply Sound_emitEnter.
  - apply Sound_emitExit.
  - by apply Sound_emitOperator.
Qed.

Lemma Sound_emitNodeAtBlockLevel_of info inputs blocks :
  Sound strict (emitNode' (mkNode info inputs blocks)) →
  Sound strict (emitLoadInputs' inputs) →
  Sound strict
    (emitNodeAtBlockLevel can_emit_inline info (emitLoadInputs' inputs)
       (emitNode' (mkNode info inputs blocks))).
Proof. intros. by apply Sound_emitNodeAtBlockLevel. Qed.

(** Under [strict], the BailOut nodes are taken to load registered
    inputs into their blocks. *)
Theorem emit_Sound :
  (∀ node,
     (strict = true → bailouts_registered_node can_emit_inline node = true) →
     Sound strict (emitNode' node)
     ∧ Sound strict (emitLoadInputs' (inputs_of node)))
  ∧ (∀ input,
       (strict = true →
        bailouts_registered_value can_emit_inline input = true) →
       ∀ drop, Sound strict (emitUse' input drop))
  ∧ (∀ inputs,
       (strict = true →
        bailouts_registered_values can_emit_inline inputs = true) →
       Sound_values inputs)
  ∧ (∀ block,
       (strict = true →
        bailouts_registered_block can_emit_inline block = true) →
       Sound strict (emitCodeForBlock' block))
  ∧ (∀ blocks,
       (strict = true →
        bailouts_registered_blocks can_emit_inline blocks = true) →
       Sound_blocks blocks)
  ∧ (∀ nodes,
       (strict = true →
        bailouts_registered_nodes can_emit_inline nodes = true) →
       Sound strict (emitNodes' nodes)).
Proof.
  apply ir_mutind.
  - intros info inputs Hv blocks Hb Hwf.
    assert (Hwf' : strict = true →
              bailout_inputs_registered can_emit_inline (kind info) inputs
              = true
              ∧ bailouts_registered_values can_emit_inline inputs = true
              ∧ bailouts_registered_blocks can_emit_inline blocks = true).
    { intros Hs. specialize (Hwf Hs). simpl in Hwf.
      by apply andb_true_iff in Hwf as [[? ?]%andb_true_iff ?]. }
    assert (Sound_values inputs) by (apply Hv; intros; by apply Hwf').
    assert (Sound_blocks blocks) by (apply Hb; intros; by apply Hwf').
    split.
    + apply Sound_emitNode_of_parts; [intros; by apply Hwf' | done | done].
    + by apply Sound_values_loads.
  - intros unique uses_size type node Hn Hwf drop.
    destruct (Hn Hwf) as [Hnode _].
    cbn [emitUse]. by apply Sound_emitUse_body.
  - intros _. simpl. split_and!; [apply Sound_ret | apply Sound_ret | done].
  - intros v Hv vs Hvs Hwf.
    assert (Hwf' : strict = true →
              bailouts_registered_value can_emit_inline v = true
              ∧ bailouts_registered_values can_emit_inline vs = true).
    { intros Hs. specialize (Hwf Hs). simpl in Hwf.
      by apply andb_true_iff in Hwf. }
    assert (Hv' : ∀ drop, Sound strict (emitUse' v drop))
      by (apply Hv; intros; by apply Hwf').
    assert (Hvs' : Sound_values vs) by (apply Hvs; intros; by apply Hwf').
    simpl.
    pose proof (Sound_values_loads _ Hvs').
    assert (Sound strict (emitDrop' vs))
      by (destruct vs; simpl in Hvs'; tauto).
    split_and!; try done.
    + pose proof (Hv' false). sound.
    + pose proof (Hv' true). sound.
  - intros [pi pin pb] Hp nodes Hns [ri rin rb] Hr Hwf.
    assert (Hwf' : strict = true →
              bailouts_registered_node can_emit_inline (mkNode pi pin pb)
              = true
              ∧ bailouts_registered_nodes can_emit_inline nodes = true
              ∧ bailouts_registered_node can_emit_inline (mkNode ri rin rb)
                = true).
    { intros Hs. specialize (Hwf Hs). cbn [bailouts_registered_block] in Hwf.
      by apply andb_true_iff in Hwf as [[? ?]%andb_true_iff ?]. }
    destruct Hp as [Hp Hpl]; [intros; by apply Hwf' |].
    destruct Hr as [Hr Hrl]; [intros; by apply Hwf' |].
    assert (Sound strict (emitNodes' nodes))
      by (apply Hns; intros; by apply Hwf').
    cbn [emitCodeForBlock]. simpl in Hpl, Hrl.
    pose proof (Sound_emitNodeAtBlockLevel_of _ _ _ Hp Hpl).
    pose proof (Sound_emitNodeAtBlockLevel_of _ _ _ Hr Hrl).
    sound.
  - done.
  - intros b Hb bs Hbs Hwf.
    assert (Hwf' : strict = true →
              bailouts_registered_block can_emit_inline b = true
              ∧ bailouts_registered_blocks can_emit_inline bs = true).
    { intros Hs. specialize (Hwf Hs). simpl in Hwf.
      by apply andb_true_iff in Hwf. }
    split; [apply Hb | apply Hbs]; intros; by apply Hwf'.
  - intros _. simpl. apply Sound_ret.
  - intros [ni nin nb] Hn ns Hns Hwf.
    assert (Hwf' : strict = true →
              bailouts_registered_node can_emit_inline (mkNode ni nin nb)
              = true
              ∧ bailouts_registered_nodes can_emit_inline ns = true).
    { intros Hs. specialize (Hwf Hs). cbn [bailouts_registered_nodes] in Hwf.
      by apply andb_true_iff in Hwf. }
    destruct Hn as [Hn Hnl]; [intros; by apply Hwf' |].
    assert (Sound strict (emitNodes' ns))
      by (apply Hns; intros; by apply Hwf').
    cbn [emitNodes]. simpl in Hnl.
    pose proof (Sound_emitNodeAtBlockLevel_of _ _ _ Hn Hnl).
    sound.
Qed.

Lemma Sound_emitCodeForBlock block :
  (strict = true → bailouts_registered_block can_emit_inline block = true) →
  Sound strict (emitCodeForBlock' block).
Proof. apply emit_Sound. Qed.

End SoundEmitters.

(** *** Inserting the deferred blocks *)

Lemma insertBailoutBlocks_loop_kept blocks :
  ∀ st,
    length (instructions_source_ st) = length (instructions_ st) →
    Forall (operand_ok st) (instructions_ st) →
    guards_followed (instructions_ st) →
    Forall (block_kept false st) blocks →
    post (insertBailoutBlocks_loop blocks) st (λ _ st',
      length (instructions_source_ st') = length (instructions_ st')
      ∧ Forall (operand_ok st') (instructions_ st')
      ∧ guards_followed (instructions_ st')
      ∧ bailout_blocks_ st' = bailout_blocks_ st
      ∧ bailout_functions_ st' = bailout_functions_ st
      ∧ op <$> instructions_ st'
        = (op <$> instructions_ st)
            ++ (op <$> concat (instructions <$> blocks))).
Proof.
  induction blocks as [| b blocks IH]; intros st Hsync Hops Hgf Hkept; simpl.
  { apply post_ret. split_and!; try done. by rewrite app_nil_r. }
  apply Forall_cons in Hkept as [(Hbo & Hbg & _) Hkept].
  apply post_bind, post_gets. apply post_bind, post_expect. intros jf Hjf.
  apply post_bind, post_assert. intros Hop%bool_decide_eq_true.
  apply post_bind, post_size_of.
  apply post_bind, post_run. intros [] s1 (jf' & Hjf' & ->)%patch_X_Some.
  rewrite Hjf in Hjf'. injection Hjf' as <-.
  apply post_bind, post_modify.
  apply post_bind, post_gets. apply post_bind, post_expect. intros src _.
  apply post_bind, post_modify.
  set (x := Int.to_int32 _).
  assert (Hsame : op <$> <[jf_instruction_index b := set_X x jf]>
                           (instructions_ st)
                  = op <$> instructions_ st).
  { rewrite list_fmap_insert. simpl. apply list_insert_id.
    by rewrite list_lookup_fmap, Hjf. }
  intros u st' H. eapply IH in H; simpl.
  - simpl in H. destruct H as (? & ? & ? & ? & ? & Hopeq).
    split_and!; try done.
    rewrite Hopeq, !fmap_app, Hsame. by rewrite <- app_assoc.
  - rewrite !length_app, length_replicate, length_insert. lia.
  - apply Forall_app. split; [| done].
    apply Forall_insert; [done |]. apply operand_ok_free. simpl.
    by rewrite Hop.
  - apply guards_followed_app; [| done].
    eapply guards_followed_ops; [| exact Hgf]. by rewrite Hsame.
  - done.
Qed.

Lemma bind_is_Some {A B} (m : M A) (f : A → M B) st :
  is_Some (bind m f st) ↔ ∃ a s1, m st = Some (a, s1) ∧ is_Some (f a s1).
Proof.
  unfold bind. destruct (m st) as [[a s1]|]; split.
  - eauto.
  - by intros (? & ? & [= <- <-] & ?).
  - by intros [? ?].
  - by intros (? & ? & ? & _).
Qed.

(** With the sources in step and a JF at every recorded index, the
    deferred blocks are inserted without error. *)
Lemma insertBailoutBlocks_loop_succeeds blocks :
  ∀ st,
    length (instructions_source_ st) = length (instructions_ st) →
    Forall
      (λ b, ∃ jf,
         instructions_ st !! jf_instruction_index b = Some jf ∧ op jf = JF)
      blocks →
    is_Some (insertBailoutBlocks_loop blocks st).
Proof.
  induction blocks as [| b blocks IH]; intros st Hsync Hjf; simpl.
  { by eexists. }
  apply Forall_cons in Hjf as [(jf & Hjf & Hop) Hrest].
  assert (Hsrc : is_Some (instructions_source_ st !! jf_instruction_index b)).
  { apply lookup_lt_is_Some. rewrite Hsync. by eapply lookup_lt_Some. }
  destruct Hsrc as [src Hsrc].
  apply bind_is_Some. eexists _, _. split; [reflexivity |]. rewrite Hjf.
  apply bind_is_Some. eexists _, _. split; [reflexivity |].
  apply bind_is_Some. exists tt, st.
  split; [by rewrite bool_decide_eq_true_2 |].
  apply bind_is_Some. eexists _, _. split; [reflexivity |].
  apply bind_is_Some. eexists tt, _.
  split; [unfold patch_X, bind, gets; by rewrite Hjf |].
  apply bind_is_Some. eexists tt, _. split; [reflexivity |].
  apply bind_is_Some. eexists _, _. split; [reflexivity |].
  simpl. rewrite Hsrc.
  apply bind_is_Some. eexists _, _. split; [reflexivity |].
  apply bind_is_Some. eexists tt, _. split; [reflexivity |].
  apply IH; simpl.
  - rewrite !length_app, length_replicate, length_insert. lia.
  - eapply Forall_impl; [exact Hrest |].
    intros b' (jf' & Hjf' & Hop'). simpl in *.
    destruct (decide (jf_instruction_index b' = jf_instruction_index b))
      as [Heq | Hne].
    + rewrite Heq in Hjf' |- *. rewrite Hjf in Hjf'. injection Hjf' as <-.
      eexists (set_X _ jf). split; [| exact Hop].
      rewrite lookup_app_l
        by (rewrite length_insert; by eapply lookup_lt_Some).
      by rewrite list_lookup_insert_eq by (by eapply lookup_lt_Some).
    + exists jf'. split; [| done].
      rewrite lookup_app_l
        by (rewrite length_insert; by eapply lookup_lt_Some).
      by rewrite list_lookup_insert_ne.
Qed.

Lemma operand_ok_in_range st ins :
  tables_fit st → operand_ok st ins → operand_in_range st ins.
Proof.
  intros (Ho & Hf & Ht & Hc & Hp & Hr).
  assert (Hi : ∀ x size,
            Z.of_nat size < 2 ^ 31 → indexes x size →
            0 ≤ x < Z.of_nat size).
  { intros x size Hsize (k & Hk & ->).
    rewrite IntFacts.to_int32_small; lia. }
  assert (Hn : ∀ x n size,
            Z.of_nat size < 2 ^ 31 → indexes_run x n size →
            0 ≤ x ∧ 0 ≤ n ∧ x + n ≤ Z.of_nat size).
  { intros x n size Hsize (k & H0 & Hk & ->).
    rewrite IntFacts.to_int32_small; lia. }
  assert (Hg : ∀ x n size,
            size < 2 ^ 31 → registers_run x n size →
            1 ≤ x ≤ size ∧ x + n - 1 ≤ size).
  { intros x n size Hsize (r & H1 & Hk & ->).
    rewrite IntFacts.to_int32_small; lia. }
  unfold operand_ok, operand_in_range.
  destruct (op ins); try done; try (by apply Hi); try (by apply Hn).
  - intros H. by destruct (Hg _ _ _ Hr H).
  - by apply Hg.
Qed.

(** ** Compiled programs *)

Section CompiledKept.

Variable can_emit_inline : NodeId → bool.
Variable FLAGS_torch_jit_disable_warning_prints : bool.

Lemma main_Emitted strict this graph st0 s_main :
  (strict = true →
   bailouts_registered_block can_emit_inline (block graph) = true) →
  instructions_ st0 = [] → instructions_source_ st0 = [] →
  bailout_blocks_ st0 = [] → bailout_functions_ st0 = [] →
  0 ≤ register_size_ st0 →
  (emitCodeForBlock can_emit_inline FLAGS_torch_jit_disable_warning_prints
     this (block graph) >>
   insertInstruction RET 0 0) st0 = Some (tt, s_main) →
  ∃ code blocks,
    Emitted strict st0 s_main code blocks
    ∧ instructions_ s_main = code
    ∧ bailout_blocks_ s_main = blocks
    ∧ length (instructions_source_ s_main) = length code
    ∧ length (bailout_functions_ s_main) = length blocks.
Proof.
  intros Hwf HI0 HS0 HB0 HF0 Hpos H.
  assert (Hs : Sound strict
            (emitCodeForBlock can_emit_inline
               FLAGS_torch_jit_disable_warning_prints this (block graph) >>
             insertInstruction RET 0 0)).
  { apply Sound_bind; [by apply Sound_emitCodeForBlock |].
    intros _. by apply Sound_insertInstruction_free. }
  destruct (Hs _ _ _ Hpos H) as (code & blocks & E).
  exists code, blocks. split; [done |].
  destruct E as [I1 S1 O1 G1 B1 K1 F1 R1 ? ? ? ? ? ? ? Bd1 Uc1 ?].
  rewrite HI0 in I1. rewrite HS0 in S1. rewrite HB0 in B1.
  rewrite HF0 in F1. simpl in *. by split_and!.
Qed.

(** What the mutual induction gives for the program [run()] leaves. *)
Lemma run_kept strict this graph st0 st' :
  (strict = true →
   bailouts_registered_block can_emit_inline (block graph) = true) →
  instructions_ st0 = [] → instructions_source_ st0 = [] →
  bailout_blocks_ st0 = [] → bailout_functions_ st0 = [] →
  0 ≤ register_size_ st0 →
  (emitCodeForBlock can_emit_inline FLAGS_torch_jit_disable_warning_prints
     this (block graph) >>
   insertInstruction RET 0 0 >>
   insertBailoutBlocks) st0 = Some (tt, st') →
  ∃ s_main,
    Emitted strict st0 s_main (instructions_ s_main)
      (bailout_blocks_ s_main)
    ∧ length (instructions_source_ st') = length (instructions_ st')
    ∧ Forall (operand_ok st') (instructions_ st')
    ∧ guards_followed (instructions_ st')
    ∧ bailout_blocks_ st' = bailout_blocks_ s_main
    ∧ bailout_functions_ st' = bailout_functions_ s_main
    ∧ op <$> instructions_ st'
      = (op <$> instructions_ s_main)
          ++ (op <$> concat (instructions <$> bailout_blocks_ s_main)).
Proof.
  intros Hwf HI0 HS0 HB0 HF0 Hpos Hrun.
  apply bind_Some in Hrun as ([] & s1 & R1 & Hrun).
  apply bind_Some in Hrun as ([] & s_main & RRET & Hins).
  assert (Hmain : (emitCodeForBlock can_emit_inline
                     FLAGS_torch_jit_disable_warning_prints this
                     (block graph) >>
                   insertInstruction RET 0 0) st0 = Some (tt, s_main)).
  { apply bind_Some. by exists tt, s1. }
  destruct (main_Emitted strict _ _ _ _ Hwf HI0 HS0 HB0 HF0 Hpos Hmain)
    as (code & blocks & E & <- & <- & HS & HF).
  exists s_main. split; [done |].
  unfold insertBailoutBlocks in Hins.
  apply bind_Some in Hins as (bs & ? & Hg & Hloop).
  apply gets_Some in Hg as [-> ->].
  eapply insertBailoutBlocks_loop_kept in Hloop.
  - by destruct Hloop as (? & ? & ? & ? & ? & ?).
  - done.
  - apply E.
  - apply E.
  - eapply Forall_impl; [apply E |]. intros b (? & ? & _). by split_and!.
Qed.

Lemma compiled_kept strict graph st' :
  (strict = true →
   bailouts_registered_block can_emit_inline (block graph) = true) →
  new_CodeImpl can_emit_inline FLAGS_torch_jit_disable_warning_prints graph
  = Some st' →
  ∃ s_main,
    Emitted strict (CodeImpl_init graph) s_main (instructions_ s_main)
      (bailout_blocks_ s_main)
    ∧ length (instructions_source_ st') = length (instructions_ st')
    ∧ Forall (operand_ok st') (instructions_ st')
    ∧ guards_followed (instructions_ st')
    ∧ bailout_blocks_ st' = bailout_blocks_ s_main
    ∧ bailout_functions_ st' = bailout_functions_ s_main
    ∧ op <$> instructions_ st'
      = (op <$> instructions_ s_main)
          ++ (op <$> concat (instructions <$> bailout_blocks_ s_main)).
Proof.
  intros Hwf Hrun.
  unfold new_CodeImpl, exec, CodeImpl_run in Hrun.
  apply fmap_Some in Hrun as ([[] st''] & Hrun & ->). simpl.
  by eapply run_kept.
Qed.

(** X10: the comment on [instructions_source_] holds of every compiled
    program: it has one entry for each instruction. *)
Theorem compiled_sources_in_step graph st :
  new_CodeImpl can_emit_inline FLAGS_torch_jit_disable_warning_prints graph
  = Some st →
  length (instructions_source_ st) = length (instructions_ st).
Proof.
  intros H. by destruct (compiled_kept false _ _ ltac:(done) H)
    as (s_main & _ & ? & _).
Qed.

(** X11: in a compiled program whose tables fit [int32_t], every operand
    that indexes a table is within that table: [operator_table_] for OP
    and OPN, [function_table_] for CALL, TAIL_CALL and FORK,
    [type_table_] for GUARD, CREATE_OBJECT and the container
    constructors, with the [N] types of TYPECHECK and ISINSTANCE,
    [constant_table_] for INTERFACE_CALL, [profile_function_table_] for
    PROFILE_OP, and the registers of STORE and STOREN lie between 1 and
    [register_size_]. *)
Theorem compiled_operands_in_range graph st :
  new_CodeImpl can_emit_inline FLAGS_torch_jit_disable_warning_prints graph
  = Some st →
  tables_fit st →
  Forall (operand_in_range st) (instructions_ st).
Proof.
  intros H Hfit.
  destruct (compiled_kept false _ _ ltac:(done) H)
    as (s_main & _ & _ & Hops & _).
  eapply Forall_impl; [exact Hops |].
  intros ins. by apply operand_ok_in_range.
Qed.

(** X12: in a compiled program every GUARD is immediately followed by a
    JF, the jump a failed guard takes. *)
Theorem compiled_guards_followed graph st :
  new_CodeImpl can_emit_inline FLAGS_torch_jit_disable_warning_prints graph
  = Some st →
  guards_followed (instructions_ st).
Proof.
  intros H. by destruct (compiled_kept false _ _ ltac:(done) H)
    as (s_main & _ & _ & _ & ? & _).
Qed.

(** X13: from a state whose register counter is not negative, lowering
    a block only extends the state: the instruction stream, the deferred
    blocks and every table keep what they held and grow at their end,
    the register counter and the use counts do not decrease, a value
    bound in [value_to_reg_] stays bound, and [current_node_] is restored. *)
Theorem emitCodeForBlock_only_extends this block st st' :
  0 ≤ register_size_ st →
  emitCodeForBlock can_emit_inline FLAGS_torch_jit_disable_warning_prints
    this block st = Some (tt, st') →
  instructions_ st `prefix_of` instructions_ st'
  ∧ bailout_blocks_ st `prefix_of` bailout_blocks_ st'
  ∧ constant_table_ st `prefix_of` constant_table_ st'
  ∧ operator_table_ st `prefix_of` operator_table_ st'
  ∧ function_table_ st `prefix_of` function_table_ st'
  ∧ forked_functions_ st `prefix_of` forked_functions_ st'
  ∧ type_table_ st `prefix_of` type_table_ st'
  ∧ profile_function_table_ st `prefix_of` profile_function_table_ st'
  ∧ register_size_ st ≤ register_size_ st'
  ∧ (∀ v, is_Some (value_to_reg_ st !! v) →
          is_Some (value_to_reg_ st' !! v))
  ∧ (∀ v, (default 0 (use_count_ st !! v)
           ≤ default 0 (use_count_ st' !! v))%nat)
  ∧ current_node_ st' = current_node_ st.
Proof.
  intros Hpos H.
  destruct (Sound_emitCodeForBlock false can_emit_inline
              FLAGS_torch_jit_disable_warning_prints this block
              ltac:(done) _ _ _ Hpos H)
    as (code & blocks & [I1 S1 O1 G1 B1 K1 F1 R1 ? ? ? ? ? ? ? Bd1 Uc1 ?]).
  split_and!; try done; by eexists.
Qed.

(** X14: when the BailOut nodes of the graph load registered values
    into their blocks, the deferred blocks of the compiled program are
    those of its GUARDs, in instruction order: block [k] is recorded at
    the JF that follows GUARD [k], and there are as many bailout
    functions as blocks. *)
Theorem compiled_guards_match_blocks graph st :
  bailouts_registered_block can_emit_inline (block graph) = true →
  new_CodeImpl can_emit_inline FLAGS_torch_jit_disable_warning_prints graph
  = Some st →
  jf_instruction_index <$> bailout_blocks_ st
  = S <$> GUARD_positions (instructions_ st)
  ∧ length (bailout_functions_ st) = length (bailout_blocks_ st).
Proof.
  intros Hwf H.
  destruct (compiled_kept true _ _ (λ _, Hwf) H)
    as (s_main & E & _ & _ & _ & HB & HF & Hops).
  rewrite HB, HF. split.
  - rewrite (em_recorded _ _ _ _ _ E eq_refl). simpl. f_equal.
    unfold GUARD_positions.
    rewrite (positions_from_ops _ (instructions_ st)
               (instructions_ s_main
                  ++ concat (instructions <$> bailout_blocks_ s_main)))
      by (by rewrite fmap_app).
    rewrite positions_from_app.
    rewrite (positions_from_none _ (concat _)); [by rewrite app_nil_r |].
    apply Forall_concat, Forall_fmap.
    eapply Forall_impl; [apply E |].
    intros b (_ & _ & Hng). simpl.
    eapply Forall_impl; [by apply Hng |].
    intros ins Hins. simpl in *. unfold is_GUARD.
    by rewrite bool_decide_eq_false_2.
  - pose proof (em_bailout_functions _ _ _ _ _ E) as HL. by simpl in HL.
Qed.

(** X15: for such a graph, inserting the deferred blocks cannot fail:
    compilation returns a program exactly when lowering the root block
    does. *)
Theorem compilation_fails_in_lowering graph :
  bailouts_registered_block can_emit_inline (block graph) = true →
  is_Some
    (new_CodeImpl can_emit_inline FLAGS_torch_jit_disable_warning_prints
       graph)
  ↔ is_Some
      (emitCodeForBlock can_emit_inline
         FLAGS_torch_jit_disable_warning_prints CodeImpl_class
         (block graph) (CodeImpl_init graph)).
Proof.
  intros Hwf. unfold new_CodeImpl, exec, CodeImpl_run.
  rewrite fmap_is_Some, bind_is_Some. split.
  { intros ([] & s1 & -> & _). by eexists. }
  intros [[[] s1] R1]. exists tt, s1. split; [done |].
  apply bind_is_Some.
  destruct (insertInstruction RET 0 0 s1) as [[[] s_main]|] eqn:RRET.
  2:{ unfold insertInstruction in RRET. simpl in RRET. done. }
  exists tt, s_main. split; [done |].
  assert (Hmain : (emitCodeForBlock can_emit_inline
                     FLAGS_torch_jit_disable_warning_prints CodeImpl_class
                     (block graph) >>
                   insertInstruction RET 0 0) (CodeImpl_init graph)
                  = Some (tt, s_main)).
  { apply bind_Some. by exists tt, s1. }
  assert (Hpos : 0 ≤ register_size_ (CodeImpl_init graph)) by (simpl; lia).
  destruct (main_Emitted true _ _ (CodeImpl_init graph) _ (λ _, Hwf)
              eq_refl eq_refl eq_refl eq_refl Hpos Hmain)
    as (code & blocks & E & HI & HB & HS & HF).
  unfold insertBailoutBlocks. apply bind_is_Some.
  eexists _, _. split; [reflexivity |].
  apply insertBailoutBlocks_loop_succeeds; [by rewrite HS, HI |].
  rewrite HB, HI. apply Forall_forall. intros b Hb.
  apply list_elem_of_lookup in Hb as [k Hk].
  pose proof (em_recorded _ _ _ _ _ E eq_refl) as HR. simpl in HR.
  assert (Hidx : (jf_instruction_index <$> blocks) !! k
                 = Some (jf_instruction_index b))
    by (by rewrite list_lookup_fmap, Hk).
  rewrite HR, list_lookup_fmap in Hidx.
  destruct (positions_from is_GUARD 0 code !! k) as [p|] eqn:Hp; [| done].
  injection Hidx as <-.
  destruct (positions_from_lookup _ _ _ _ _ Hp) as (guard & Hg & HG & _).
  rewrite Nat.sub_0_r in Hg. apply bool_decide_eq_true in HG.
  apply (em_guards _ _ _ _ _ E _ _ Hg HG).
Qed.

(** X23: the programs of [MobileCodeImpl], which runs the pre-pass
    before it lowers the graph, have their sources in step, their
    operands within the tables they index, and a JF after every GUARD,
    as those of [CodeImpl] have. *)
Theorem mobile_compiled_kept CalculateNecessaryArgs graph st :
  new_MobileCodeImpl can_emit_inline FLAGS_torch_jit_disable_warning_prints
    CalculateNecessaryArgs graph
  = Some st →
  length (instructions_source_ st) = length (instructions_ st)
  ∧ (tables_fit st → Forall (operand_in_range st) (instructions_ st))
  ∧ guards_followed (instructions_ st).
Proof.
  intros Hrun.
  unfold new_MobileCodeImpl, exec, MobileCodeImpl_run in Hrun.
  apply fmap_Some in Hrun as ([[] st''] & Hrun & ->). simpl.
  apply bind_Some in Hrun as ([] & st0 & Hm & Hrun).
  apply modify_Some in Hm as ->.
  eapply (run_kept false) in Hrun; try done.
  destruct Hrun as (s_main & _ & ? & Hops & ? & _).
  split_and!; [done | | done].
  intros Hfit. eapply Forall_impl; [exact Hops |].
  intros ins. by apply operand_ok_in_range.
Qed.

End CompiledKept.

(** ** Single lowering rules *)

Section MoreRules.

Variable can_emit_inline : NodeId → bool.
Variable FLAGS_torch_jit_disable_warning_prints : bool.
Variable this : Impl.

(** X16: [emitStoreOutputs] does nothing for a node without outputs;
    otherwise it binds the outputs, in order, to the consecutive fresh
    registers from [register_size_ + 1] on and emits one instruction
    whose [X] is the first of them: STORE for a single output, STOREN
    with the number of outputs otherwise. *)
Theorem emitStoreOutputs_binds node st st' :
  0 ≤ register_size_ st →
  emitStoreOutputs node st = Some (tt, st') →
  (outputs node = [] → st' = st)
  ∧ (outputs node ≠ [] →
     ∃ store,
       instructions_ st' = instructions_ st ++ [store]
       ∧ op store
         = (if bool_decide (length (outputs node) = 1%nat)
            then STORE else STOREN)
       ∧ X store = register_size_ st + 1
       ∧ (op store = STOREN →
          N store = Int.to_uint16 (N_of_size (length (outputs node))))
       ∧ register_size_ st'
         = register_size_ st + Z.of_nat (length (outputs node))
       ∧ (∀ (i : nat) o,
            outputs node !! i = Some o →
            value_to_reg_ st' !! out_unique o
            = Some (X store + Z.of_nat i))).
Proof.
  intros Hpos H. unfold emitStoreOutputs in H.
  destruct (bool_decide_reflect (length (outputs node) = 0%nat))
    as [H0 | H0].
  { apply ret_Some in H as [_ ->]. split; [done |].
    intros Hne. by destruct (outputs node). }
  split; [intros Hnil; by rewrite Hnil in H0 |]. intros _.
  apply bind_Some in H as (regs & s1 & Ha & H).
  unfold allocRegs in Ha. apply bind_Some in Ha as (rs & s0 & Hg & Ha).
  apply gets_Some in Hg as [-> ->].
  apply bind_Some in Ha as ([] & s0 & Hresult & Ha).
  apply assert_Some in Hresult as [_ ->].
  apply bind_Some in Ha as ([] & s2 & Hloop & Ha).
  apply ret_Some in Ha as [-> ->].
  assert (Hsome : is_Some (allocRegs_loop (out_unique <$> outputs node) st))
    by (by eexists).
  apply allocRegs_loop_is_Some in Hsome as (_ & _ & Hmax).
  rewrite length_fmap in Hmax.
  specialize (Hmax ltac:(by destruct (outputs node))).
  apply allocRegs_loop_Some in Hloop
    as (HR & _ & _ & Hassigned & _ & HI & _).
  rewrite length_fmap in HR.
  assert (Hsmall : Int.to_int32 (register_size_ st + 1)
                   = register_size_ st + 1).
  { apply IntFacts.to_int32_small. unfold Int.INT_MAX in Hmax. lia. }
  assert (Hbound : ∀ (i : nat) o,
            outputs node !! i = Some o →
            value_to_reg_ s2 !! out_unique o
            = Some (register_size_ st + 1 + Z.of_nat i)).
  { intros i o Hi. apply Hassigned. by rewrite list_lookup_fmap, Hi. }
  destruct (bool_decide (length (outputs node) = 1%nat));
    apply insertInstruction_view in H as [l ->];
    eexists; simpl; rewrite HI, Hsmall; split_and!; try done.
Qed.

(** X17: at block level a node that is lowered inline, as an input of
    its user, is skipped: nothing is emitted and nothing is bound; and
    whatever the node, [current_node_] is restored after it. *)
Theorem emitNodeAtBlockLevel_inline node loads emitNode_node st :
  (can_emit_inline (node_id node) = true →
   kind node ≠ prim_Constant → kind node ≠ prim_Return →
   emitNodeAtBlockLevel can_emit_inline node loads emitNode_node st
   = Some (tt, st))
  ∧ (∀ st',
       emitNodeAtBlockLevel can_emit_inline node loads emitNode_node st
       = Some (tt, st') →
       current_node_ st' = current_node_ st).
Proof.
  unfold emitNodeAtBlockLevel, WithCurrentNode. split.
  - intros Hinline Hc Hr. rewrite Hinline. simpl.
    destruct (kind node); try done; by destruct st.
  - intros st' H.
    match type of H with
    | match ?body with _ => _ end = _ =>
        destruct body as [[[] s1]|]; [| done]
    end.
    by injection H as <-.
Qed.


End MoreRules.

(** ** Nodes that are rejected *)

(** Shows that a computation given by its steps does not return, from a
    fact that contradicts one of them. *)
Ltac rejects :=
  match goal with
  | |- ?m = None => destruct m as [[? ?]|] eqn:Hrun; [exfalso | reflexivity]
  end;
  repeat
    first
      [ inv_M_step
      | match goal with
        | H : output _ _ = Some _ |- _ => unfold output in H
        | H : match ?l with [] => _ | _ :: _ => _ end _ = Some _ |- _ =>
            destruct l as [| ? [| ? ?]]
        | H : (if ?b then _ else _) _ = Some _ |- _ => destruct b eqn:?
        end ];
  simplify_eq; try done.

Section RejectedRules.

Variable FLAGS_torch_jit_disable_warning_prints : bool.

Lemma output_throws node st :
  length (outputs node) ≠ 1%nat → output node st = None.
Proof. unfold output. by destruct (outputs node) as [| ? [| ? ?]]. Qed.

Lemma emitConstant_throws node st :
  length (outputs node) ≠ 1%nat → emitConstant node st = None.
Proof.
  intros H. unfold emitConstant, bind. by rewrite output_throws.
Qed.

Lemma emitCreateObject_throws node st :
  length (outputs node) ≠ 1%nat → emitCreateObject node st = None.
Proof.
  intros H. unfold emitCreateObject, bind. by rewrite output_throws.
Qed.

Lemma emitTupleConstruct_throws loads num_inputs node st :
  length (outputs node) ≠ 1%nat →
  emitTupleConstruct loads num_inputs node st = None.
Proof.
  intros H. unfold emitTupleConstruct, bind. by rewrite output_throws.
Qed.

Lemma emitContainerConstruct_throws op loads num_inputs node st :
  length (outputs node) ≠ 1%nat →
  emitContainerConstruct op loads num_inputs node st = None.
Proof.
  intros H. unfold emitContainerConstruct, bind.
  destruct (loads st) as [[[] s1]|]; [| done]. by rewrite output_throws.
Qed.

Lemma emitTypeCheck_throws loads num_inputs node st :
  num_inputs = 0%nat ∨ (num_inputs + 1)%nat ≠ length (outputs node)
  ∨ attr_types (attrs node) = None →
  emitTypeCheck loads num_inputs node st = None.
Proof.
  intros H. unfold emitTypeCheck. rejects.
  match goal with H : _ && _ = true |- _ =>
    apply andb_true_iff in H as [Ha Hb] end.
  apply negb_true_iff, bool_decide_eq_false in Ha.
  apply bool_decide_eq_true in Hb.
  destruct H as [? | [? | ?]]; congruence.
Qed.

Lemma emitGetAttr_throws loads input_type node st :
  input_type = None ∨ attr_name (attrs node) = None →
  emitGetAttr loads input_type node st = None.
Proof. intros H. unfold emitGetAttr. rejects; destruct H; congruence. Qed.

Lemma emitSetAttr_throws loads input_type node st :
  input_type = None ∨ attr_name (attrs node) = None →
  emitSetAttr loads input_type node st = None.
Proof. intros H. unfold emitSetAttr. rejects; destruct H; congruence. Qed.

Lemma emitIsinstance_throws loads node st :
  attr_types (attrs node) = None → emitIsinstance loads node st = None.
Proof. intros H. unfold emitIsinstance. rejects; congruence. Qed.

Lemma emitTupleSlice_throws loads node st :
  attr_beg (attrs node) = None ∨ attr_end (attrs node) = None →
  emitTupleSlice loads node st = None.
Proof. intros H. unfold emitTupleSlice. rejects; destruct H; congruence. Qed.

Lemma emitFork_throws loads num_inputs node st :
  attr_Subgraph (attrs node) = None →
  emitFork loads num_inputs node st = None.
Proof. intros H. unfold emitFork. rejects; congruence. Qed.

Lemma emitOperator_throws this loads num_inputs node st :
  maybeOperator node = None →
  emitOperator this loads num_inputs node st = None.
Proof.
  intros H.
  assert (Heq : emitOperator this loads num_inputs node st
                = CodeImpl_emitOperator loads num_inputs node st)
    by (by destruct this).
  rewrite Heq. unfold CodeImpl_emitOperator. rejects; congruence.
Qed.

Lemma emitBailOut_rejects load_guarded subgraph load_rest node st :
  outputs node = [] ∨ subgraph = None
  ∨ attr_index (attrs node) = None
  ∨ (∃ index, attr_index (attrs node) = Some index ∧ index < 0) →
  emitBailOut load_guarded subgraph load_rest node st = None.
Proof.
  intros H. unfold emitBailOut, emitGuard. rejects.
  destruct H as [H | [H | [H | (index & H & Hneg)]]].
  - match goal with H' : outputs node !! 0%nat = Some _ |- _ =>
      by rewrite H in H' end.
  - congruence.
  - congruence.
  - match goal with H' : bool_decide (0 ≤ _) = true |- _ =>
      apply bool_decide_eq_true in H' end.
    simplify_eq. lia.
Qed.

End RejectedRules.

Section Rejected.

Variable can_emit_inline : NodeId → bool.
Variable FLAGS_torch_jit_disable_warning_prints : bool.
Variable this : Impl.

(** X19: a node that lacks a part its lowering rule reads is an error,
    whatever the state: an If with fewer than two blocks or a Loop
    without block, a CallFunction whose callee is absent or not of
    function type, a BailOut with fewer than two inputs, without output,
    subgraph or index, or with a negative index, a TypeCheck that fails
    the assertion on its inputs and outputs, a node whose single output
    or input is asserted and is not there, a missing attribute that the
    rule reads, an operator node without operator. *)
Theorem malformed_rejected node st :
  malformed node = true →
  emitNode can_emit_inline FLAGS_torch_jit_disable_warning_prints this
    node st = None.
Proof.
  intros Hm. destruct node as [info inputs blocks].
  cbn [emitNode]. unfold WithCurrentNode.
  match goal with
  | |- match ?body ?s with _ => _ end = None =>
      assert (Hbody : body s = None); [| by rewrite Hbody]
  end.
  simpl in Hm. generalize (set_current_node_ info st). intros s.
  destruct (kind info) eqn:Hk; try discriminate Hm.
  - (* prim::Constant *)
    apply emitConstant_throws. by apply negb_true_iff, bool_decide_eq_false in Hm.
  - (* prim::If *)
    apply emitIf_throws. destruct blocks as [| ? [| ? ?]]; auto. done.
  - (* prim::Loop *)
    destruct blocks; [apply emitLoop_throws | done].
  - (* prim::Return *)
    apply emitOperator_throws. by apply bool_decide_eq_true in Hm.
  - (* prim::CallFunction *)
    destruct inputs as [| callee args]; [done |].
    unfold bind. by destruct (value_type callee).
  - (* prim::CallMethod *)
    destruct inputs as [| self args]; [done |].
    apply bool_decide_eq_true in Hm.
    destruct (as_ClassType _); unfold bind; by rewrite Hm.
  - (* prim::TypeCheck *)
    apply emitTypeCheck_throws.
    apply orb_true_iff in Hm as [Hm | Hm];
      [apply orb_true_iff in Hm as [Hm | Hm] |].
    + left. by apply bool_decide_eq_true in Hm.
    + right. left. by apply negb_true_iff, bool_decide_eq_false in Hm.
    + right. right. by apply bool_decide_eq_true in Hm.
  - (* prim::BailOut *)
    destruct inputs as [| unoptimized [| guarded rest]];
      try (apply emitBailOut_throws; by left).
    apply emitBailOut_rejects.
    apply orb_true_iff in Hm as [Hm | Hm];
      [apply orb_true_iff in Hm as [Hm | Hm] |].
    + left. by apply bool_decide_eq_true in Hm.
    + right. left. by apply bool_decide_eq_true in Hm.
    + right. right. destruct (attr_index (attrs info)) as [index|];
        [| by left].
      right. exists index. split; [done |].
      by apply bool_decide_eq_true in Hm.
  - (* prim::GetAttr *)
    apply emitGetAttr_throws. destruct inputs as [| ? [| ? ?]]; auto.
    right. by apply bool_decide_eq_true in Hm.
  - (* prim::SetAttr *)
    apply emitSetAttr_throws. destruct inputs; auto.
    right. by apply bool_decide_eq_true in Hm.
  - (* prim::TupleConstruct *)
    apply emitTupleConstruct_throws.
    by apply negb_true_iff, bool_decide_eq_false in Hm.
  - (* prim::ListConstruct *)
    apply emitContainerConstruct_throws.
    by apply negb_true_iff, bool_decide_eq_false in Hm.
  - (* prim::DictConstruct *)
    apply emitContainerConstruct_throws.
    by apply negb_true_iff, bool_decide_eq_false in Hm.
  - (* prim::CreateObject *)
    apply emitCreateObject_throws.
    by apply negb_true_iff, bool_decide_eq_false in Hm.
  - (* prim::isinstance *)
    apply emitIsinstance_throws. by apply bool_decide_eq_true in Hm.
  - (* prim::TupleSlice *)
    apply emitTupleSlice_throws.
    apply orb_true_iff in Hm as [Hm | Hm]; [left | right];
      by apply bool_decide_eq_true in Hm.
  - (* prim::fork *)
    apply emitFork_throws. by apply bool_decide_eq_true in Hm.
  - (* an operator *)
    apply emitOperator_throws. by apply bool_decide_eq_true in Hm.
Qed.

End Rejected.

(** ** Nodes without code, and constants *)

Section Unchanged.

Variable can_emit_inline : NodeId → bool.
Variable FLAGS_torch_jit_disable_warning_prints : bool.
Variable this : Impl.

(** X20: a Param, a Drop without inputs, a constant of function type
    and, when warning prints are disabled, a warning are lowered to
    nothing: the state is unchanged, and the inputs of the warning are
    not even loaded, so that their use counts are not advanced. *)
Theorem without_code_unchanged node st :
  without_code FLAGS_torch_jit_disable_warning_prints node = true →
  emitNode can_emit_inline FLAGS_torch_jit_disable_warning_prints this
    node st = Some (tt, st).
Proof.
  intros Hw. destruct node as [info inputs blocks].
  cbn [emitNode]. unfold WithCurrentNode. simpl in Hw.
  destruct (kind info); try discriminate Hw.
  - destruct inputs; [| done]. simpl. by destruct st.
  - unfold emitConstant, output, bind.
    destruct (outputs info) as [| o [| ? ?]]; try done. simpl.
    rewrite Hw. simpl. by destruct st.
  - simpl. by destruct st.
  - unfold emitWarn. rewrite Hw. simpl. by destruct st.
Qed.

(** X21: a constant that is lowered at block level and then used is
    loaded from the slot it was given: the use emits LOADC with the
    index at which the constant table holds the value of the constant. *)
Theorem constant_loaded_from_its_slot node o value input loads
    emitNode_node st :
  kind node = prim_Constant →
  outputs node = [o] →
  is_FunctionType (out_type o) = false →
  attr_value (attrs node) = Some value →
  value_unique input = out_unique o →
  info_of (value_node input) = node →
  can_emit_inline (node_id node) = false →
  Z.of_nat (length (constant_table_ st)) < 2 ^ 31 →
  ∃ s1 st' slot,
    emitNodeAtBlockLevel can_emit_inline node loads emitNode_node st
    = Some (tt, s1)
    ∧ emitUse can_emit_inline FLAGS_torch_jit_disable_warning_prints this
        input false s1 = Some (tt, st')
    ∧ instructions_ st'
      = instructions_ st ++ [mkInstruction LOADC (Z.of_nat slot) 0]
    ∧ constant_table_ st' !! slot = Some value.
Proof.
  intros Hkind Hout Hfn Hvalue Hunique Hnode Hinline Hfit.
  destruct input as [unique uses type vnode]. simpl in *. subst.
  unfold emitNodeAtBlockLevel, WithCurrentNode, emitConstant, output.
  rewrite Hkind, Hout. unfold bind, ret. simpl. rewrite Hfn, Hvalue.
  simpl. eexists _, _, (length (constant_table_ st)).
  split; [reflexivity |].
  cbn [emitUse]. unfold emitUse_body. simpl. rewrite Hinline.
  unfold registerFor, bind, gets, expect, modify, ret. simpl.
  rewrite lookup_insert_eq. simpl. rewrite Hkind.
  rewrite bool_decide_eq_true_2 by done.
  unfold insertInstruction. simpl.
  split; [reflexivity |]. simpl.
  rewrite to_int32_idem, IntFacts.to_int32_small by lia.
  split; [done |].
  by rewrite lookup_app_r, Nat.sub_diag by lia.
Qed.

End Unchanged.


(** ** [insertBailoutBlocks] and its assertion *)

Lemma insertBailoutBlocks_loop_fails blocks :
  ∀ st,
    Exists
      (λ b, ∃ ins,
         instructions_ st !! jf_instruction_index b = Some ins
         ∧ op ins ≠ JF)
      blocks →
    insertBailoutBlocks_loop blocks st = None.
Proof.
  induction blocks as [| b blocks IH]; intros st Hbad.
  { by apply Exists_nil in Hbad. }
  destruct (insertBailoutBlocks_loop (b :: blocks) st) as [[u st']|] eqn:H;
    [exfalso | done].
  simpl in H.
  apply bind_Some in H as (jf & ? & Hg & H). apply gets_Some in Hg as [-> ->].
  apply bind_Some in H as (jf & ? & Hjf & H).
  apply expect_Some in Hjf as [Hjf ->].
  apply bind_Some in H as ([] & ? & Ha & H).
  apply assert_Some in Ha as [Hop%bool_decide_eq_true ->].
  apply bind_Some in H as (size & ? & Hg & H).
  apply size_of_Some in Hg as [-> ->].
  apply bind_Some in H as ([] & s1 & Hp & H).
  apply patch_X_Some in Hp as (jf' & Hjf' & ->).
  apply bind_Some in H as ([] & ? & Hm & H). apply modify_Some in Hm as ->.
  apply bind_Some in H as (src & ? & Hg & H). apply gets_Some in Hg as [-> ->].
  apply bind_Some in H as (src & ? & Hs & H).
  apply expect_Some in Hs as [Hs ->].
  apply bind_Some in H as ([] & ? & Hm & H). apply modify_Some in Hm as ->.
  rewrite IH in H; [done |]. simpl.
  apply Exists_cons in Hbad as [(ins & Hins & Hne) | Hbad].
  { rewrite Hjf in Hins. by simplify_eq. }
  eapply Exists_impl; [exact Hbad |].
  intros b' (ins & Hins & Hne). simpl. exists ins. split; [| done].
  rewrite lookup_app_l by (rewrite length_insert; by eapply lookup_lt_Some).
  rewrite list_lookup_insert_ne; [done |].
  intros Heq. rewrite Heq, Hins in Hjf. by simplify_eq.
Qed.

(** X22: [insertBailoutBlocks] asserts a JF at every recorded index.
    When [instructions_source_] is in step with the instructions and every
    recorded index holds a JF, it returns; when some recorded index holds
    an instruction of the stream that is not a JF, it is an error. *)
Theorem insertBailoutBlocks_asserts_JF st :
  (length (instructions_source_ st) = length (instructions_ st) →
   Forall
     (λ b, ∃ jf,
        instructions_ st !! jf_instruction_index b = Some jf ∧ op jf = JF)
     (bailout_blocks_ st) →
   is_Some (insertBailoutBlocks st))
  ∧ (Exists
       (λ b, ∃ ins,
          instructions_ st !! jf_instruction_index b = Some ins
          ∧ op ins ≠ JF)
       (bailout_blocks_ st) →
     insertBailoutBlocks st = None).
Proof.
  unfold insertBailoutBlocks, bind, gets. split.
  - intros Hsync Hjf. by apply insertBailoutBlocks_loop_succeeds.
  - apply insertBailoutBlocks_loop_fails.
Qed.

(** ** The theorems at the example graphs *)

Lemma compiled_sources_in_step_witness :
  new_CodeImpl Example.can_emit_inline false Example.If_graph
  = Some Example.If_program
  ∧ length (instructions_source_ Example.If_program)
    = length (instructions_ Example.If_program).
Proof.
  split; [vm_compute; reflexivity |].
  apply (compiled_sources_in_step Example.can_emit_inline false
           Example.If_graph Example.If_program).
  vm_compute; reflexivity.
Defined.

Lemma compiled_operands_in_range_witness :
  new_CodeImpl Example.can_emit_inline false Example.BailOut_graph
  = Some Example.BailOut_program
  ∧ Forall (operand_in_range Example.BailOut_program)
      (instructions_ Example.BailOut_program).
Proof.
  split; [vm_compute; reflexivity |].
  apply (compiled_operands_in_range Example.can_emit_inline false
           Example.BailOut_graph Example.BailOut_program).
  - vm_compute; reflexivity.
  - unfold tables_fit. simpl. lia.
Defined.

Lemma compiled_guards_followed_witness :
  new_CodeImpl Example.can_emit_inline false Example.BailOut_graph
  = Some Example.BailOut_program
  ∧ guards_followed (instructions_ Example.BailOut_program).
Proof.
  split; [vm_compute; reflexivity |].
  apply (compiled_guards_followed Example.can_emit_inline false
           Example.BailOut_graph Example.BailOut_program).
  vm_compute; reflexivity.
Defined.

Lemma emitCodeForBlock_only_extends_witness :
  emitCodeForBlock Example.can_emit_inline false CodeImpl_class
    (block Example.If_graph) (CodeImpl_init Example.If_graph)
  = Some (tt, MoreExamples.If_block_lowered)
  ∧ instructions_ (CodeImpl_init Example.If_graph)
    `prefix_of` instructions_ MoreExamples.If_block_lowered
  ∧ register_size_ (CodeImpl_init Example.If_graph)
    ≤ register_size_ MoreExamples.If_block_lowered.
Proof.
  split; [vm_compute; reflexivity |].
  destruct (emitCodeForBlock_only_extends Example.can_emit_inline false
              CodeImpl_class (block Example.If_graph)
              (CodeImpl_init Example.If_graph)
              MoreExamples.If_block_lowered)
    as (HI & _ & _ & _ & _ & _ & _ & _ & HR & _).
  - simpl. lia.
  - vm_compute; reflexivity.
  - split; [exact HI | exact HR].
Defined.

Lemma compiled_guards_match_blocks_witness :
  new_CodeImpl Example.can_emit_inline false Example.BailOut_graph
  = Some Example.BailOut_program
  ∧ jf_instruction_index <$> bailout_blocks_ Example.BailOut_program
    = S <$> GUARD_positions (instructions_ Example.BailOut_program)
  ∧ length (bailout_functions_ Example.BailOut_program)
    = length (bailout_blocks_ Example.BailOut_program).
Proof.
  split; [vm_compute; reflexivity |].
  apply (compiled_guards_match_blocks Example.can_emit_inline false
           Example.BailOut_graph Example.BailOut_program);
    vm_compute; reflexivity.
Defined.

Lemma compilation_fails_in_lowering_witness :
  is_Some
    (new_CodeImpl Example.can_emit_inline false Example.BailOut_graph).
Proof.
  apply (compilation_fails_in_lowering Example.can_emit_inline false
           Example.BailOut_graph).
  - vm_compute; reflexivity.
  - vm_compute. eexists; reflexivity.
Defined.

Lemma mobile_compiled_kept_witness :
  new_MobileCodeImpl Example.can_emit_inline false
    Example.CalculateNecessaryArgs Example.Const_graph
  = Some MoreExamples.Const_mobile_program
  ∧ length (instructions_source_ MoreExamples.Const_mobile_program)
    = length (instructions_ MoreExamples.Const_mobile_program)
  ∧ guards_followed (instructions_ MoreExamples.Const_mobile_program).
Proof.
  split; [vm_compute; reflexivity |].
  destruct (mobile_compiled_kept Example.can_emit_inline false
              Example.CalculateNecessaryArgs Example.Const_graph
              MoreExamples.Const_mobile_program)
    as (HS & _ & HG).
  - vm_compute; reflexivity.
  - split; [exact HS | exact HG].
Defined.

Lemma emitStoreOutputs_binds_witness :
  ∃ st',
    emitStoreOutputs (info_of Example.If_params)
      (CodeImpl_init Example.If_graph)
    = Some (tt, st')
    ∧ register_size_ st' = 3
    ∧ value_to_reg_ st' !! 2%nat = Some 2.
Proof.
  eexists. split; [vm_compute; reflexivity |].
  match goal with
  | |- register_size_ ?s = _ ∧ _ =>
      destruct (emitStoreOutputs_binds (info_of Example.If_params)
                  (CodeImpl_init Example.If_graph) s)
        as [_ H]
  end.
  - simpl. lia.
  - vm_compute; reflexivity.
  - destruct (H ltac:(discriminate))
      as (store & _ & _ & HX & _ & HR & Hbound).
    split; [exact HR |].
    pose proof (Hbound 1%nat (mkOutput 2%nat Example.ty) eq_refl) as Hb.
    rewrite HX in Hb. exact Hb.
Defined.

Lemma malformed_rejected_witness :
  emitNode Example.can_emit_inline false CodeImpl_class
    MoreExamples.If_without_blocks Example.If_state
  = None.
Proof.
  apply (malformed_rejected Example.can_emit_inline false CodeImpl_class
           MoreExamples.If_without_blocks Example.If_state).
  reflexivity.
Defined.

Lemma without_code_unchanged_witness :
  emitNode Example.can_emit_inline false CodeImpl_class Example.If_params
    Example.If_state
  = Some (tt, Example.If_state).
Proof.
  apply (without_code_unchanged Example.can_emit_inline false CodeImpl_class
           Example.If_params Example.If_state).
  reflexivity.
Defined.

Lemma constant_loaded_from_its_slot_witness :
  ∃ s1 st' slot,
    emitNodeAtBlockLevel Example.can_emit_inline (info_of Example.Const0)
      (ret tt) (ret tt) (CodeImpl_init Example.Const_graph)
    = Some (tt, s1)
    ∧ emitUse Example.can_emit_inline false CodeImpl_class
        (mkValue 10%nat 1%nat Example.ty Example.Const0) false s1
      = Some (tt, st')
    ∧ instructions_ st'
      = instructions_ (CodeImpl_init Example.Const_graph)
          ++ [mkInstruction LOADC (Z.of_nat slot) 0]
    ∧ constant_table_ st' !! slot = Some (IV_Int 7).
Proof.
  apply (constant_loaded_from_its_slot Example.can_emit_inline false
           CodeImpl_class (info_of Example.Const0)
           (mkOutput 10%nat Example.ty) (IV_Int 7)
           (mkValue 10%nat 1%nat Example.ty Example.Const0) (ret tt) (ret tt)
           (CodeImpl_init Example.Const_graph));
    first [reflexivity | simpl; lia].
Defined.
